(** * SYMBIONT-X orchestrator: workflow engine, HITL approvals, audit log

    A shallow embedding of the orchestrator agent
    ([src/agents/orchestrator]): [models.py], [hitl_models.py],
    [config.py], [state_manager.py], [agent_client.py],
    [workflow_engine.py], [audit_log.py], [hitl_api.py] and the two
    workflow endpoints of [main.py] that change state.

    Modelling decisions, all of them visible in the definitions below:

    - Storage is the in-memory backend ([cosmos_endpoint] unset, the
      default of [config.py]): [StateManager._workflows] is a dictionary
      holding the [Workflow] objects themselves.  [get_workflow] hands out
      the stored object and [_save_workflow] stores the object it is
      given under its own id, so the local variable [workflow] of the
      execution unit and the dictionary entry are one shared object.  The
      model keeps one [Workflow] value per id in [workflows] and lets
      every mutation, through either name, act on that entry.
    - [async] code is a resumption: a computation runs atomically until
      it awaits a collaborator (an HTTP request or [asyncio.sleep]), where
      it is [Suspended] with the request and a continuation.  Other
      requests served by the event loop meanwhile are the [interfere]
      part of the environment; the collaborators' answers are its
      [respond] part.
    - Python exceptions are the [Raised] results; state changes made
      before the exception stay, as in Python.
    - [datetime.utcnow()] reads the [utcnow] field of the world; identifiers
      drawn with [uuid.uuid4()] are explicit arguments.
    - Logging calls ([logger.info] ...) have no effect on the state and are
      left out. *)

From Stdlib Require Import ZArith Lia.
From stdpp Require Import base strings gmap list.

Local Open Scope Z_scope.

(** ** models.py *)

Inductive WorkflowStatus : Type :=
  | PENDING | SCANNING | ASSESSING | AWAITING_APPROVAL
  | REMEDIATING | COMPLETED | FAILED | CANCELLED.

Inductive WorkflowAction : Type :=
  | SCAN | ASSESS | AUTO_REMEDIATE | REQUEST_APPROVAL | NOTIFY | COMPLETE.

#[global] Instance WorkflowStatus_eq_dec : EqDecision WorkflowStatus.
Proof. solve_decision. Defined.

(** A vulnerability as the scanner reports it: a JSON object that the
    orchestrator passes on without looking inside. *)
Record Vulnerability : Type := {
  vuln_id : string;
  vuln_severity : string;
}.

(** The JSON object of one assessment, with the keys the engine reads.
    [risk_priority] is [assessment["risk_score"]["priority"]], [None]
    when either key is missing.  [cvss_score] is carried through
    unchanged (tenths of a point). *)
Record Assessment : Type := {
  vulnerability_id : option string;
  cve_id : option string;
  title : option string;
  severity : option string;
  risk_priority : option string;
  cvss_score : option Z;
}.

(** An element of the [assessments] array: a JSON object, or any other
    JSON value (on which [.get] raises [AttributeError]). *)
Inductive JAssessment : Type :=
  | AssessmentObject (a : Assessment)
  | AssessmentOther.

(** The [summary] object of an assessment response: its [P0] and [P1]
    entries. *)
Record Summary : Type := {
  summary_P0 : option Z;
  summary_P1 : option Z;
}.

(** [WorkflowStep.output_data], a [Dict[str, Any]]: the empty default
    and the four dictionaries the engine ever stores. *)
Inductive OutputData : Type :=
  | OutEmpty
  | OutScan (scan_id : option string) (vulnerability_count : nat)
            (vulnerabilities : list Vulnerability)
  | OutNoVulnerabilities
  | OutAssess (assessment_id : option string)
              (assessments : list JAssessment) (summary : Summary)
  | OutRemediate (auto_remediated awaiting_approval : nat).

(** Truth value of a dictionary: non-empty. *)
Definition output_truthy (d : OutputData) : bool :=
  match d with OutEmpty => false | _ => true end.

(** [output_data.get("vulnerabilities", [])] *)
Definition get_vulnerabilities (d : OutputData) : list Vulnerability :=
  match d with OutScan _ _ vs => vs | _ => [] end.

(** [output_data.get("assessments", [])] *)
Definition get_assessments (d : OutputData) : list JAssessment :=
  match d with OutAssess _ l _ => l | _ => [] end.

Record WorkflowStep : Type := {
  step_id : string;
  action : WorkflowAction;
  step_status : WorkflowStatus;
  agent : option string;
  output_data : OutputData;
  error_message : option string;
  started_at : option Z;
  step_completed_at : option Z;
}.

(** [Workflow.metadata]: the three keys [start_workflow] stores; a key is
    [None] when the dictionary lacks it. *)
Record Metadata : Type := {
  md_scan_types : option (list string);
  md_auto_remediate : option bool;
  md_notify : option bool;
}.

Record Workflow : Type := {
  workflow_id : string;
  repository : string;
  branch : string;
  status : WorkflowStatus;
  current_step : option string;
  steps : list WorkflowStep;
  wf_scan_id : option string;
  wf_assessment_id : option string;
  remediation_ids : list string;
  total_vulnerabilities : nat;
  critical_count : Z;
  high_count : Z;
  wf_auto_remediated : Z;
  wf_awaiting_approval : nat;
  created_at : Z;
  updated_at : Z;
  completed_at : option Z;
  triggered_by : string;
  metadata : Metadata;
}.

(** Attribute assignments on a [Workflow]. *)
Definition set_status (x : WorkflowStatus) (w : Workflow) : Workflow :=
  {| workflow_id := workflow_id w; repository := repository w; branch := branch w;
     status := x; current_step := current_step w; steps := steps w;
     wf_scan_id := wf_scan_id w; wf_assessment_id := wf_assessment_id w;
     remediation_ids := remediation_ids w;
     total_vulnerabilities := total_vulnerabilities w;
     critical_count := critical_count w; high_count := high_count w;
     wf_auto_remediated := wf_auto_remediated w;
     wf_awaiting_approval := wf_awaiting_approval w;
     created_at := created_at w; updated_at := updated_at w;
     completed_at := completed_at w; triggered_by := triggered_by w;
     metadata := metadata w |}.

Definition set_current_step (x : option string) (w : Workflow) : Workflow :=
  {| workflow_id := workflow_id w; repository := repository w; branch := branch w;
     status := status w; current_step := x; steps := steps w;
     wf_scan_id := wf_scan_id w; wf_assessment_id := wf_assessment_id w;
     remediation_ids := remediation_ids w;
     total_vulnerabilities := total_vulnerabilities w;
     critical_count := critical_count w; high_count := high_count w;
     wf_auto_remediated := wf_auto_remediated w;
     wf_awaiting_approval := wf_awaiting_approval w;
     created_at := created_at w; updated_at := updated_at w;
     completed_at := completed_at w; triggered_by := triggered_by w;
     metadata := metadata w |}.

Definition set_steps (x : list WorkflowStep) (w : Workflow) : Workflow :=
  {| workflow_id := workflow_id w; repository := repository w; branch := branch w;
     status := status w; current_step := current_step w; steps := x;
     wf_scan_id := wf_scan_id w; wf_assessment_id := wf_assessment_id w;
     remediation_ids := remediation_ids w;
     total_vulnerabilities := total_vulnerabilities w;
     critical_count := critical_count w; high_count := high_count w;
     wf_auto_remediated := wf_auto_remediated w;
     wf_awaiting_approval := wf_awaiting_approval w;
     created_at := created_at w; updated_at := updated_at w;
     completed_at := completed_at w; triggered_by := triggered_by w;
     metadata := metadata w |}.

Definition set_scan_id (x : option string) (w : Workflow) : Workflow :=
  {| workflow_id := workflow_id w; repository := repository w; branch := branch w;
     status := status w; current_step := current_step w; steps := steps w;
     wf_scan_id := x; wf_assessment_id := wf_assessment_id w;
     remediation_ids := remediation_ids w;
     total_vulnerabilities := total_vulnerabilities w;
     critical_count := critical_count w; high_count := high_count w;
     wf_auto_remediated := wf_auto_remediated w;
     wf_awaiting_approval := wf_awaiting_approval w;
     created_at := created_at w; updated_at := updated_at w;
     completed_at := completed_at w; triggered_by := triggered_by w;
     metadata := metadata w |}.

Definition set_assessment_id (x : option string) (w : Workflow) : Workflow :=
  {| workflow_id := workflow_id w; repository := repository w; branch := branch w;
     status := status w; current_step := current_step w; steps := steps w;
     wf_scan_id := wf_scan_id w; wf_assessment_id := x;
     remediation_ids := remediation_ids w;
     total_vulnerabilities := total_vulnerabilities w;
     critical_count := critical_count w; high_count := high_count w;
     wf_auto_remediated := wf_auto_remediated w;
     wf_awaiting_approval := wf_awaiting_approval w;
     created_at := created_at w; updated_at := updated_at w;
     completed_at := completed_at w; triggered_by := triggered_by w;
     metadata := metadata w |}.

Definition set_remediation_ids (x : list string) (w : Workflow) : Workflow :=
  {| workflow_id := workflow_id w; repository := repository w; branch := branch w;
     status := status w; current_step := current_step w; steps := steps w;
     wf_scan_id := wf_scan_id w; wf_assessment_id := wf_assessment_id w;
     remediation_ids := x;
     total_vulnerabilities := total_vulnerabilities w;
     critical_count := critical_count w; high_count := high_count w;
     wf_auto_remediated := wf_auto_remediated w;
     wf_awaiting_approval := wf_awaiting_approval w;
     created_at := created_at w; updated_at := updated_at w;
     completed_at := completed_at w; triggered_by := triggered_by w;
     metadata := metadata w |}.

Definition set_total_vulnerabilities (x : nat) (w : Workflow) : Workflow :=
  {| workflow_id := workflow_id w; repository := repository w; branch := branch w;
     status := status w; current_step := current_step w; steps := steps w;
     wf_scan_id := wf_scan_id w; wf_assessment_id := wf_assessment_id w;
     remediation_ids := remediation_ids w;
     total_vulnerabilities := x;
     critical_count := critical_count w; high_count := high_count w;
     wf_auto_remediated := wf_auto_remediated w;
     wf_awaiting_approval := wf_awaiting_approval w;
     created_at := created_at w; updated_at := updated_at w;
     completed_at := completed_at w; triggered_by := triggered_by w;
     metadata := metadata w |}.

Definition set_counts (crit high : Z) (w : Workflow) : Workflow :=
  {| workflow_id := workflow_id w; repository := repository w; branch := branch w;
     status := status w; current_step := current_step w; steps := steps w;
     wf_scan_id := wf_scan_id w; wf_assessment_id := wf_assessment_id w;
     remediation_ids := remediation_ids w;
     total_vulnerabilities := total_vulnerabilities w;
     critical_count := crit; high_count := high;
     wf_auto_remediated := wf_auto_remediated w;
     wf_awaiting_approval := wf_awaiting_approval w;
     created_at := created_at w; updated_at := updated_at w;
     completed_at := completed_at w; triggered_by := triggered_by w;
     metadata := metadata w |}.

Definition set_auto_remediated (x : Z) (w : Workflow) : Workflow :=
  {| workflow_id := workflow_id w; repository := repository w; branch := branch w;
     status := status w; current_step := current_step w; steps := steps w;
     wf_scan_id := wf_scan_id w; wf_assessment_id := wf_assessment_id w;
     remediation_ids := remediation_ids w;
     total_vulnerabilities := total_vulnerabilities w;
     critical_count := critical_count w; high_count := high_count w;
     wf_auto_remediated := x;
     wf_awaiting_approval := wf_awaiting_approval w;
     created_at := created_at w; updated_at := updated_at w;
     completed_at := completed_at w; triggered_by := triggered_by w;
     metadata := metadata w |}.

Definition set_awaiting_approval (x : nat) (w : Workflow) : Workflow :=
  {| workflow_id := workflow_id w; repository := repository w; branch := branch w;
     status := status w; current_step := current_step w; steps := steps w;
     wf_scan_id := wf_scan_id w; wf_assessment_id := wf_assessment_id w;
     remediation_ids := remediation_ids w;
     total_vulnerabilities := total_vulnerabilities w;
     critical_count := critical_count w; high_count := high_count w;
     wf_auto_remediated := wf_auto_remediated w;
     wf_awaiting_approval := x;
     created_at := created_at w; updated_at := updated_at w;
     completed_at := completed_at w; triggered_by := triggered_by w;
     metadata := metadata w |}.

Definition set_updated_at (x : Z) (w : Workflow) : Workflow :=
  {| workflow_id := workflow_id w; repository := repository w; branch := branch w;
     status := status w; current_step := current_step w; steps := steps w;
     wf_scan_id := wf_scan_id w; wf_assessment_id := wf_assessment_id w;
     remediation_ids := remediation_ids w;
     total_vulnerabilities := total_vulnerabilities w;
     critical_count := critical_count w; high_count := high_count w;
     wf_auto_remediated := wf_auto_remediated w;
     wf_awaiting_approval := wf_awaiting_approval w;
     created_at := created_at w; updated_at := x;
     completed_at := completed_at w; triggered_by := triggered_by w;
     metadata := metadata w |}.

Definition set_completed_at (x : option Z) (w : Workflow) : Workflow :=
  {| workflow_id := workflow_id w; repository := repository w; branch := branch w;
     status := status w; current_step := current_step w; steps := steps w;
     wf_scan_id := wf_scan_id w; wf_assessment_id := wf_assessment_id w;
     remediation_ids := remediation_ids w;
     total_vulnerabilities := total_vulnerabilities w;
     critical_count := critical_count w; high_count := high_count w;
     wf_auto_remediated := wf_auto_remediated w;
     wf_awaiting_approval := wf_awaiting_approval w;
     created_at := created_at w; updated_at := updated_at w;
     completed_at := x; triggered_by := triggered_by w;
     metadata := metadata w |}.

(** [WorkflowRequest] *)
Record WorkflowRequest : Type := {
  req_repository : string;
  req_branch : string;
  req_scan_types : list string;
  req_auto_remediate : bool;
  req_notify : bool;
}.

(** [models.ApprovalRequest], the body of [POST /approve]. *)
Record ApprovalBody : Type := {
  ab_workflow_id : string;
  ab_vulnerability_ids : list string;
  ab_approved : bool;
  ab_approver : string;
  ab_comment : option string;
}.

(** [WorkflowResponse] *)
Record WorkflowResponse : Type := {
  resp_workflow_id : string;
  resp_status : WorkflowStatus;
  resp_message : string;
  resp_workflow : option Workflow;
}.

(** ** config.py *)

Record Settings : Type := {
  auto_remediate_p3_p4 : bool;
  auto_remediate_p2 : bool;
  require_approval_p0_p1 : bool;
  agent_timeout_seconds : Z;
  workflow_timeout_seconds : Z;
  slack_webhook_url : option string;
}.

(** The defaults of [config.py]. *)
Definition default_settings : Settings := {|
  auto_remediate_p3_p4 := true;
  auto_remediate_p2 := false;
  require_approval_p0_p1 := true;
  agent_timeout_seconds := 300;
  workflow_timeout_seconds := 600;
  slack_webhook_url := None;
|}.

(** ** hitl_models.py *)

Inductive ApprovalStatus : Type :=
  | APPROVAL_PENDING | APPROVED | REJECTED | EXPIRED.

Inductive ApprovalType : Type :=
  | REMEDIATION | DEPLOYMENT | EXCEPTION | ESCALATION.

Inductive AuditAction : Type :=
  | SCAN_STARTED | SCAN_COMPLETED | VULNERABILITY_DETECTED
  | ASSESSMENT_COMPLETED | APPROVAL_REQUESTED | APPROVAL_GRANTED
  | APPROVAL_DENIED | REMEDIATION_STARTED | REMEDIATION_COMPLETED
  | REMEDIATION_FAILED | COMMENT_ADDED | EXCEPTION_GRANTED
  | WORKFLOW_COMPLETED.

#[global] Instance ApprovalStatus_eq_dec : EqDecision ApprovalStatus.
Proof. solve_decision. Defined.

(** [ApprovalStatus.value] *)
Definition approval_status_value (s : ApprovalStatus) : string :=
  match s with
  | APPROVAL_PENDING => "pending"
  | APPROVED => "approved"
  | REJECTED => "rejected"
  | EXPIRED => "expired"
  end.

(** [hitl_models.ApprovalRequest].  [notified_users] and
    [notification_sent_at] are never written and are left out. *)
Record ApprovalRequest : Type := {
  approval_id : string;
  ar_workflow_id : string;
  approval_type : ApprovalType;
  ar_status : ApprovalStatus;
  ar_title : string;
  ar_description : string;
  ar_vulnerability_ids : list string;
  ar_priority : string;
  risk_summary : string;
  recommended_action : string;
  requested_by : string;
  requested_at : Z;
  expires_at : option Z;
  resolved_by : option string;
  resolved_at : option Z;
  resolution_comment : option string;
}.

Definition set_ar_status (x : ApprovalStatus) (a : ApprovalRequest) : ApprovalRequest :=
  {| approval_id := approval_id a; ar_workflow_id := ar_workflow_id a;
     approval_type := approval_type a; ar_status := x;
     ar_title := ar_title a; ar_description := ar_description a;
     ar_vulnerability_ids := ar_vulnerability_ids a;
     ar_priority := ar_priority a; risk_summary := risk_summary a;
     recommended_action := recommended_action a;
     requested_by := requested_by a; requested_at := requested_at a;
     expires_at := expires_at a; resolved_by := resolved_by a;
     resolved_at := resolved_at a;
     resolution_comment := resolution_comment a |}.

Definition set_resolution (who : string) (when : Z) (comment : option string)
    (a : ApprovalRequest) : ApprovalRequest :=
  {| approval_id := approval_id a; ar_workflow_id := ar_workflow_id a;
     approval_type := approval_type a; ar_status := ar_status a;
     ar_title := ar_title a; ar_description := ar_description a;
     ar_vulnerability_ids := ar_vulnerability_ids a;
     ar_priority := ar_priority a; risk_summary := risk_summary a;
     recommended_action := recommended_action a;
     requested_by := requested_by a; requested_at := requested_at a;
     expires_at := expires_at a; resolved_by := Some who;
     resolved_at := Some when;
     resolution_comment := comment |}.

(** The [details] dictionaries the audit helpers build. *)
Inductive AuditDetails : Type :=
  | DetailsNone
  | DetailsApprovalRequested (priority : string) (vulnerability_count : nat)
  | DetailsDecision (decision : string) (comment : option string).

Record AuditLogEntry : Type := {
  entry_id : string;
  timestamp : Z;
  audit_action : AuditAction;
  actor : string;
  al_workflow_id : option string;
  al_vulnerability_id : option string;
  al_approval_id : option string;
  details : AuditDetails;
  success : bool;
  al_error_message : option string;
}.

(** [CreateApprovalRequest] and [ApprovalDecision], the bodies of the two
    HITL approval endpoints. *)
Record CreateApprovalRequest : Type := {
  car_workflow_id : string;
  car_title : string;
  car_description : string;
  car_vulnerability_ids : list string;
  car_priority : string;
  car_risk_summary : string;
  car_recommended_action : string;
  car_requested_by : string;
  car_expires_in_hours : Z;
}.

Record ApprovalDecision : Type := {
  dec_approved : bool;
  dec_resolver : string;
  dec_comment : option string;
}.

(** ** The process state *)

(** The three module-level stores of the orchestrator process and the
    clock: [StateManager._workflows], [hitl_api.approvals_store],
    [AuditLogService._entries] (oldest first), and the time
    [datetime.utcnow()] returns, in seconds from
    [datetime(1970, 1, 1)]. *)
Record World : Type := {
  workflows : gmap string Workflow;
  approvals_store : gmap string ApprovalRequest;
  audit_entries : list AuditLogEntry;
  utcnow : Z;
}.

Definition set_workflows (m : gmap string Workflow) (w : World) : World :=
  {| workflows := m; approvals_store := approvals_store w;
     audit_entries := audit_entries w; utcnow := utcnow w |}.

Definition set_approvals (m : gmap string ApprovalRequest) (w : World) : World :=
  {| workflows := workflows w; approvals_store := m;
     audit_entries := audit_entries w; utcnow := utcnow w |}.

Definition set_audit (l : list AuditLogEntry) (w : World) : World :=
  {| workflows := workflows w; approvals_store := approvals_store w;
     audit_entries := l; utcnow := utcnow w |}.

Definition set_utcnow (t : Z) (w : World) : World :=
  {| workflows := workflows w; approvals_store := approvals_store w;
     audit_entries := audit_entries w; utcnow := t |}.

(** A mutation of the [Workflow] object stored under [wid]. *)
Definition on_workflow (wid : string) (f : Workflow -> Workflow) (w : World) : World :=
  set_workflows (alter f wid (workflows w)) w.

(** [Workflow(workflow_id=..., repository=..., ...)] with the field
    defaults of [models.py], built at time [now]. *)
Definition new_Workflow (wid repo br trig : string) (md : Metadata) (now : Z) : Workflow := {|
  workflow_id := wid; repository := repo; branch := br;
  status := PENDING; current_step := None; steps := [];
  wf_scan_id := None; wf_assessment_id := None; remediation_ids := [];
  total_vulnerabilities := 0; critical_count := 0; high_count := 0;
  wf_auto_remediated := 0; wf_awaiting_approval := 0;
  created_at := now; updated_at := now; completed_at := None;
  triggered_by := trig; metadata := md;
|}.

Definition empty_metadata : Metadata :=
  {| md_scan_types := None; md_auto_remediate := None; md_notify := None |}.

(** The object a local variable [workflow] denotes.  The execution unit
    holds the object [create_workflow] stored, and nothing removes an
    entry ([delete_workflow] has no caller), so the entry exists; the
    theorems carry that as a hypothesis and the blank value is never
    read under it. *)
Definition the_workflow (wid : string) (w : World) : Workflow :=
  default (new_Workflow wid "" "main" "manual" empty_metadata 0) (workflows w !! wid).

(** ** Collaborator requests and their answers *)

(** The dictionary for one vulnerability that is sent to the remediation
    agent.  [ri_priority] and [ri_cvss_score] are the two keys only the
    decision step adds. *)
Record RemediationItem : Type := {
  ri_id : option string;
  ri_cve_id : option string;
  ri_title : option string;
  ri_severity : option string;
  ri_priority : option string;
  ri_cvss_score : option Z;
}.

(** Elements of the scanner's [results] array and of their
    [vulnerabilities] arrays: JSON objects or other JSON values. *)
Inductive JVulnerability : Type :=
  | VulnerabilityObject (v : Vulnerability)
  | VulnerabilityOther.

Inductive JScanEntry : Type :=
  | ScanEntryObject (vulns : list JVulnerability)
  | ScanEntryOther.

(** What [trigger_scan] returns: the scanner's JSON, or
    [{"error": ...}]. *)
Record TriggerResult : Type := {
  t_error : option string;
  t_scan_id : option string;
}.

(** What [get_scan_results] returns. *)
Record ScanResult : Type := {
  sr_status : option string;
  sr_error : option string;
  sr_results : list JScanEntry;
}.

(** What [assess_vulnerabilities] returns. *)
Record AssessResult : Type := {
  a_error : option string;
  a_assessment_id : option string;
  a_assessments : list JAssessment;
  a_summary : Summary;
}.

(** What [remediate_batch] returns. *)
Record RemediateResult : Type := {
  r_error : option string;
  r_fixes_generated : option Z;
  r_batch_id : option string;
}.

(** The awaited operations of [agent_client.py], with the arguments they
    are called with.  Each of the four client methods is one awaited
    operation: it sends one HTTP request with its own timeout
    ([trigger_scan] and [assess_vulnerabilities] after a health check of
    the agent, one more request with a timeout of ten seconds, when the
    agent is marked unhealthy), touches no workflow, and turns a failure
    into an [{"error": ...}] dictionary; [sleep] is [asyncio.sleep]. *)
Inductive Call : Type :=
  | trigger_scan (repo br : string) (scan_types : list string)
  | get_scan_results (scan_id : option string)
  | sleep (seconds : Z)
  | assess_vulnerabilities (vulnerabilities : list Vulnerability) (repo : string)
  | remediate_batch (vulnerabilities : list RemediationItem) (repo br : string)
                    (auto_create_pr : bool).

Definition Resp (c : Call) : Type :=
  match c with
  | trigger_scan _ _ _ => TriggerResult
  | get_scan_results _ => ScanResult
  | sleep _ => unit
  | assess_vulnerabilities _ _ => AssessResult
  | remediate_batch _ _ _ _ => RemediateResult
  end.

(** The kind of a call: which operation it is, whatever its arguments. *)
Inductive CallKind : Type :=
  | TriggerScan | GetScanResults | SleepCall | AssessCall | RemediateBatch.

#[global] Instance CallKind_eq_dec : EqDecision CallKind.
Proof. solve_decision. Defined.

Definition call_kind (c : Call) : CallKind :=
  match c with
  | trigger_scan _ _ _ => TriggerScan
  | get_scan_results _ => GetScanResults
  | sleep _ => SleepCall
  | assess_vulnerabilities _ _ => AssessCall
  | remediate_batch _ _ _ _ => RemediateBatch
  end.

Definition is_kind (kd : CallKind) (c : Call) : bool :=
  bool_decide (call_kind c = kd).

(** ** Exceptions, results and resumptions *)

(** [HTTPException] is raised by the endpoints; [AttributeError] and
    [OverflowError] by Python itself; with [RequestValidationError]
    FastAPI refuses, with status 422, a request whose parameter at
    [loc] breaks the constraint the route declares for it. *)
Inductive Exn : Type :=
  | HTTPException (status_code : nat) (detail : string)
  | AttributeError (msg : string)
  | OverflowError
  | RequestValidationError (loc : list string).

(** How a computation ends: with a value, with an exception, or not at
    all ([NoReturn]: a loop that never exits; the model reports it when
    the fuel of that loop is used up). *)
Inductive Result (A : Type) : Type :=
  | Ok (a : A)
  | Raised (e : Exn)
  | NoReturn.
Arguments Ok {A} a.
Arguments Raised {A} e.
Arguments NoReturn {A}.

(** A coroutine run from some state: it finishes, or it is suspended at
    an awaited call; the continuation takes the answer and the state in
    which the coroutine is resumed. *)
Inductive Outcome (A : Type) : Type :=
  | Finished (r : Result A) (w : World)
  | Suspended (c : Call) (w : World) (k : Resp c -> World -> Outcome A).
Arguments Finished {A} r w.
Arguments Suspended {A} c w k.

Definition Task (A : Type) : Type := World -> Outcome A.

Fixpoint bind_outcome {A B} (o : Outcome A) (f : A -> Task B) : Outcome B :=
  match o with
  | Finished (Ok a) w => f a w
  | Finished (Raised e) w => Finished (Raised e) w
  | Finished NoReturn w => Finished NoReturn w
  | Suspended c w k => Suspended c w (fun r w' => bind_outcome (k r w') f)
  end.

Definition ret {A} (a : A) : Task A := fun w => Finished (Ok a) w.
Definition bind {A B} (t : Task A) (f : A -> Task B) : Task B :=
  fun w => bind_outcome (t w) f.
Definition raise {A} (e : Exn) : Task A := fun w => Finished (Raised e) w.
Definition no_return {A} : Task A := fun w => Finished NoReturn w.
Definition await (c : Call) : Task (Resp c) :=
  fun w => Suspended c w (fun r w' => Finished (Ok r) w').
Definition read {A} (f : World -> A) : Task A := fun w => Finished (Ok (f w)) w.
Definition modify (f : World -> World) : Task unit := fun w => Finished (Ok tt) (f w).

#[global] Instance Task_ret : MRet Task := @ret.
#[global] Instance Task_bind : MBind Task := fun A B f t => bind t f.

(** [try: body except Exception as e: handler(e)] *)
Fixpoint try_outcome {A} (o : Outcome A) (h : Exn -> Task A) : Outcome A :=
  match o with
  | Finished (Raised e) w => h e w
  | Finished r w => Finished r w
  | Suspended c w k => Suspended c w (fun r w' => try_outcome (k r w') h)
  end.

Definition try_except {A} (body : Task A) (h : Exn -> Task A) : Task A :=
  fun w => try_outcome (body w) h.

(** Truth value of an [Optional[str]]: present and non-empty. *)
Definition str_truthy (s : option string) : bool :=
  match s with
  | Some s => negb (String.eqb s "")
  | None => false
  end.

(** ** state_manager.py *)

Definition initial_step (sid : string) (act : WorkflowAction) (ag : string) : WorkflowStep := {|
  step_id := sid; action := act; step_status := PENDING; agent := Some ag;
  output_data := OutEmpty; error_message := None;
  started_at := None; step_completed_at := None;
|}.

Definition initial_steps : list WorkflowStep := [
  initial_step "scan" SCAN "security-scanner";
  initial_step "assess" ASSESS "risk-assessment";
  initial_step "decide" AUTO_REMEDIATE "orchestrator";
  initial_step "remediate" AUTO_REMEDIATE "auto-remediation";
  initial_step "complete" COMPLETE "orchestrator"
].

(** [_save_workflow]: [self._workflows[workflow.workflow_id] = workflow]. *)
Definition _save_workflow (wf : Workflow) (w : World) : World :=
  set_workflows (<[workflow_id wf := wf]> (workflows w)) w.

Definition create_workflow (wid repo br trig : string) (md : Metadata) (w : World) : World :=
  let wf := new_Workflow wid repo br trig md (utcnow w) in
  let wf := set_steps initial_steps wf in
  let wf := set_current_step (Some "scan") wf in
  _save_workflow wf w.

Definition get_workflow (wid : string) (w : World) : option Workflow :=
  workflows w !! wid.

(** [update_workflow(workflow)] for the object stored under [wid]:
    stamps [updated_at]; saving the object under its own id leaves the
    dictionary as it is. *)
Definition update_workflow (wid : string) (w : World) : World :=
  on_workflow wid (set_updated_at (utcnow w)) w.

(** The body of the loop of [update_step] for the matching step. *)
Definition update_step_fields (st : WorkflowStatus) (out : option OutputData)
    (err : option string) (now : Z) (s : WorkflowStep) : WorkflowStep := {|
  step_id := step_id s;
  action := action s;
  step_status := st;
  agent := agent s;
  output_data :=
    match out with
    | Some d => if output_truthy d then d else output_data s
    | None => output_data s
    end;
  error_message := if str_truthy err then err else error_message s;
  started_at :=
    if decide (st = SCANNING) then Some now else started_at s;
  step_completed_at :=
    if decide (st = SCANNING) then step_completed_at s
    else if decide (st = COMPLETED \/ st = FAILED) then Some now
    else step_completed_at s;
|}.

(** [for step in workflow.steps: if step.step_id == step_id: ...; break] *)
Fixpoint update_first (sid : string) (f : WorkflowStep -> WorkflowStep)
    (l : list WorkflowStep) : list WorkflowStep :=
  match l with
  | [] => []
  | s :: rest =>
      if String.eqb (step_id s) sid then f s :: rest
      else s :: update_first sid f rest
  end.

Definition update_step (wid sid : string) (st : WorkflowStatus)
    (out : option OutputData) (err : option string) (w : World) : World :=
  match get_workflow wid w with
  | None => w
  | Some _ =>
      let w := on_workflow wid (fun wf =>
                 set_steps (update_first sid (update_step_fields st out err (utcnow w))
                                         (steps wf)) wf) w in
      update_workflow wid w
  end.

Definition complete_workflow (wid : string) (st : WorkflowStatus) (w : World) : World :=
  match get_workflow wid w with
  | None => w
  | Some _ =>
      let w := on_workflow wid (set_status st) w in
      let w := on_workflow wid (set_completed_at (Some (utcnow w))) w in
      let w := on_workflow wid (set_current_step None) w in
      update_workflow wid w
  end.

(** [next((s for s in workflow.steps if s.step_id == sid), None)] *)
Definition find_step (sid : string) (l : list WorkflowStep) : option WorkflowStep :=
  List.find (fun s => String.eqb (step_id s) sid) l.

(** ** agent_client.py *)

(** The result [poll_scan_completion] returns when the loop runs out. *)
Definition polling_timeout : ScanResult :=
  {| sr_status := Some "timeout"; sr_error := Some "Polling timeout"; sr_results := [] |}.

(** The [while elapsed < max_wait] loop.  [fuel] bounds the number of
    iterations the model follows; [no_return] stands for a loop that
    is still running when the fuel is gone. *)
Fixpoint poll_loop (fuel : nat) (scan_id : option string)
    (max_wait poll_interval elapsed : Z) : Task ScanResult :=
  match fuel with
  | O => no_return
  | S fuel' =>
      if elapsed <? max_wait then
        result ← await (get_scan_results scan_id) ;
        let st := default "unknown" (sr_status result) in
        if String.eqb st "completed" then mret result
        else if String.eqb st "failed" then mret result
        else
          await (sleep poll_interval) ;;
          poll_loop fuel' scan_id max_wait poll_interval (elapsed + poll_interval)
      else mret polling_timeout
  end.

(** With a poll interval of at least one second the loop body runs at
    most [max_wait] times, so this fuel is never used up; with an
    interval of zero or less and a scan that never finishes the Python
    loop does not end, and neither does the model ([NoReturn]). *)
Definition poll_fuel (max_wait : Z) : nat := S (Z.to_nat max_wait).

Definition poll_scan_completion (scan_id : option string)
    (max_wait poll_interval : Z) : Task ScanResult :=
  poll_loop (poll_fuel max_wait) scan_id max_wait poll_interval 0.

(** [scan_types or ["dependency", "code", "secret", "container", "iac"]] *)
Definition scan_types_or_default (l : list string) : list string :=
  match l with
  | [] => ["dependency"; "code"; "secret"; "container"; "iac"]
  | _ => l
  end.

(** ** workflow_engine.py *)

(** [_extract_vulnerabilities] *)
Definition _extract_vulnerabilities (r : ScanResult) : list Vulnerability :=
  flat_map (fun entry =>
    match entry with
    | ScanEntryObject vulns =>
        flat_map (fun v => match v with
                           | VulnerabilityObject v => [v]
                           | VulnerabilityOther => []
                           end) vulns
    | ScanEntryOther => []
    end) (sr_results r).

Definition _execute_scan (cfg : Settings) (wid : string) : Task unit :=
  modify (on_workflow wid (set_status SCANNING)) ;;
  modify (update_step wid "scan" SCANNING None None) ;;
  wf ← read (the_workflow wid) ;
  let scan_types := default [] (md_scan_types (metadata wf)) in
  scan_result ← await (trigger_scan (repository wf) (branch wf)
                                    (scan_types_or_default scan_types)) ;
  match t_error scan_result with
  | Some err =>
      modify (on_workflow wid (set_status FAILED)) ;;
      modify (update_step wid "scan" FAILED None (Some err))
  | None =>
      let scan_id := t_scan_id scan_result in
      modify (on_workflow wid (set_scan_id scan_id)) ;;
      final_result ← poll_scan_completion scan_id (workflow_timeout_seconds cfg) 5 ;
      (if decide (sr_status final_result = Some "completed") then
         let vulnerabilities := _extract_vulnerabilities final_result in
         modify (on_workflow wid (set_total_vulnerabilities (length vulnerabilities))) ;;
         modify (update_step wid "scan" COMPLETED
                   (Some (OutScan scan_id (length vulnerabilities) vulnerabilities)) None)
       else
         modify (on_workflow wid (set_status FAILED)) ;;
         modify (update_step wid "scan" FAILED None
                   (Some (default "Scan failed" (sr_error final_result))))) ;;
      modify (update_workflow wid)
  end.

Definition _execute_assessment (wid : string) : Task unit :=
  modify (on_workflow wid (set_status ASSESSING)) ;;
  modify (update_step wid "assess" SCANNING None None) ;;
  wf ← read (the_workflow wid) ;
  match find_step "scan" (steps wf) with
  | None => modify (on_workflow wid (set_status FAILED))
  | Some scan_step =>
      if negb (output_truthy (output_data scan_step)) then
        modify (on_workflow wid (set_status FAILED))
      else
        let vulnerabilities := get_vulnerabilities (output_data scan_step) in
        match vulnerabilities with
        | [] =>
            modify (update_step wid "assess" COMPLETED (Some OutNoVulnerabilities) None) ;;
            modify (update_workflow wid)
        | _ =>
            assessment_result ← await (assess_vulnerabilities vulnerabilities (repository wf)) ;
            match a_error assessment_result with
            | Some err =>
                modify (on_workflow wid (set_status FAILED)) ;;
                modify (update_step wid "assess" FAILED None (Some err))
            | None =>
                let aid := a_assessment_id assessment_result in
                let summary := a_summary assessment_result in
                modify (on_workflow wid (set_assessment_id aid)) ;;
                modify (on_workflow wid (set_counts (default 0 (summary_P0 summary))
                                                    (default 0 (summary_P1 summary)))) ;;
                modify (update_step wid "assess" COMPLETED
                          (Some (OutAssess aid (a_assessments assessment_result) summary))
                          None) ;;
                modify (update_workflow wid)
            end
        end
  end.

(** The dictionary [vuln] built in the loop of
    [_execute_remediation_decisions]. *)
Definition build_vuln (a : Assessment) (priority : string) : RemediationItem := {|
  ri_id := vulnerability_id a;
  ri_cve_id := cve_id a;
  ri_title := title a;
  ri_severity := severity a;
  ri_priority := Some priority;
  ri_cvss_score := cvss_score a;
|}.

(** [assessment.get("risk_score", {}).get("priority", "P2")] *)
Definition priority_of (a : Assessment) : string :=
  default "P2" (risk_priority a).

(** The [if]/[elif] chain of the loop body, on the two lists
    [(to_auto_remediate, to_await_approval)]. *)
Definition decision_logic (cfg : Settings) (auto_remediate_config : bool)
    (priority : string) (vuln : RemediationItem)
    (acc : list RemediationItem * list RemediationItem)
    : list RemediationItem * list RemediationItem :=
  let '(to_auto_remediate, to_await_approval) := acc in
  if String.eqb priority "P0" || String.eqb priority "P1" then
    if require_approval_p0_p1 cfg
    then (to_auto_remediate, to_await_approval ++ [vuln])
    else (to_auto_remediate ++ [vuln], to_await_approval)
  else if String.eqb priority "P2" then
    if auto_remediate_p2 cfg
    then (to_auto_remediate ++ [vuln], to_await_approval)
    else (to_auto_remediate, to_await_approval ++ [vuln])
  else if String.eqb priority "P3" || String.eqb priority "P4" then
    if auto_remediate_p3_p4 cfg && auto_remediate_config
    then (to_auto_remediate ++ [vuln], to_await_approval)
    else acc
  else acc.

(** [for assessment in assessments: ...]: the loop stops with
    [AttributeError] at the first element that is not a JSON object. *)
Fixpoint categorize (cfg : Settings) (auto_remediate_config : bool)
    (assessments : list JAssessment)
    (acc : list RemediationItem * list RemediationItem)
    : Result (list RemediationItem * list RemediationItem) :=
  match assessments with
  | [] => Ok acc
  | AssessmentOther :: _ => Raised (AttributeError "object has no attribute 'get'")
  | AssessmentObject a :: rest =>
      let priority := priority_of a in
      categorize cfg auto_remediate_config rest
        (decision_logic cfg auto_remediate_config priority (build_vuln a priority) acc)
  end.

Definition of_result {A} (r : Result A) : Task A := fun w => Finished r w.

(** [_send_notification] only logs (the Slack call is a TODO in the
    source), whatever [notify] and [slack_webhook_url] are: no effect. *)
Definition _send_notification (cfg : Settings) (wid : string)
    (vulnerabilities : list RemediationItem) : Task unit := mret tt.

Definition _execute_remediation_decisions (cfg : Settings) (wid : string) : Task unit :=
  modify (on_workflow wid (set_status REMEDIATING)) ;;
  wf ← read (the_workflow wid) ;
  match find_step "assess" (steps wf) with
  | None => mret tt
  | Some assess_step =>
      if negb (output_truthy (output_data assess_step)) then mret tt
      else
        let assessments := get_assessments (output_data assess_step) in
        match assessments with
        | [] => mret tt
        | _ =>
            let auto_remediate_config := default true (md_auto_remediate (metadata wf)) in
            lists ← of_result (categorize cfg auto_remediate_config assessments ([], [])) ;
            let to_auto_remediate := lists.1 in
            let to_await_approval := lists.2 in
            match to_auto_remediate with
            | [] => mret tt
            | _ =>
                remediation_result ←
                  await (remediate_batch to_auto_remediate (repository wf) (branch wf) false) ;
                match r_error remediation_result with
                | Some _ => mret tt
                | None =>
                    modify (on_workflow wid
                      (set_auto_remediated (default 0 (r_fixes_generated remediation_result)))) ;;
                    modify (on_workflow wid (fun wf =>
                      set_remediation_ids
                        (remediation_ids wf ++ [default "" (r_batch_id remediation_result)]) wf))
                end
            end ;;
            match to_await_approval with
            | [] => mret tt
            | _ =>
                modify (on_workflow wid (set_awaiting_approval (length to_await_approval))) ;;
                wf' ← read (the_workflow wid) ;
                if (0 <? wf_awaiting_approval wf')%nat then
                  modify (on_workflow wid (set_status AWAITING_APPROVAL)) ;;
                  if default true (md_notify (metadata wf'))
                  then _send_notification cfg wid to_await_approval
                  else mret tt
                else mret tt
            end ;;
            modify (update_step wid "remediate"
                      (match to_await_approval with
                       | [] => COMPLETED
                       | _ => AWAITING_APPROVAL
                       end)
                      (Some (OutRemediate (length to_auto_remediate)
                                          (length to_await_approval)))
                      None) ;;
            modify (update_workflow wid)
        end
  end.

Definition _complete_workflow (wid : string) : Task unit :=
  wf ← read (the_workflow wid) ;
  if decide (status wf = AWAITING_APPROVAL) then mret tt
  else modify (complete_workflow wid COMPLETED).

(** The part of [_execute_workflow] after the scan stage has returned. *)
Definition after_scan (cfg : Settings) (wid : string) : Task unit :=
  wf ← read (the_workflow wid) ;
  if decide (status wf = FAILED) then mret tt
  else
    _execute_assessment wid ;;
    wf ← read (the_workflow wid) ;
    if decide (status wf = FAILED) then mret tt
    else
      _execute_remediation_decisions cfg wid ;;
      _complete_workflow wid.

(** The execution unit that [start_workflow] schedules with
    [asyncio.create_task]. *)
Definition _execute_workflow (cfg : Settings) (wid : string) : Task unit :=
  try_except
    (_execute_scan cfg wid ;; after_scan cfg wid)
    (fun e =>
       modify (on_workflow wid (set_status FAILED)) ;;
       modify (update_workflow wid)).

(** [start_workflow], up to the point where it schedules
    [_execute_workflow]; [wid] is the [uuid4] it draws. *)
Definition start_workflow (request : WorkflowRequest) (trig wid : string) (w : World) : World :=
  create_workflow wid (req_repository request) (req_branch request) trig
    {| md_scan_types := Some (req_scan_types request);
       md_auto_remediate := Some (req_auto_remediate request);
       md_notify := Some (req_notify request) |} w.

(** The list comprehension of [approve_remediation]; [a.get] raises on
    an element that is not a JSON object. *)
Fixpoint select_to_remediate (vulnerability_ids : list string)
    (assessments : list JAssessment) : Result (list RemediationItem) :=
  match assessments with
  | [] => Ok []
  | AssessmentOther :: _ => Raised (AttributeError "object has no attribute 'get'")
  | AssessmentObject a :: rest =>
      match select_to_remediate vulnerability_ids rest with
      | Ok l =>
          let selected :=
            match vulnerability_id a with
            | Some i => bool_decide (i ∈ vulnerability_ids)
            | None => false
            end in
          if selected then
            Ok ({| ri_id := vulnerability_id a; ri_cve_id := cve_id a;
                   ri_title := title a; ri_severity := severity a;
                   ri_priority := None; ri_cvss_score := None |} :: l)
          else Ok l
      | other => other
      end
  end.

(** [WorkflowEngine.approve_remediation] *)
Definition approve_remediation (wid : string) (vulnerability_ids : list string)
    (approver : string) : Task (option Workflow) :=
  found ← read (get_workflow wid) ;
  match found with
  | None => mret None
  | Some wf =>
      if negb (bool_decide (status wf = AWAITING_APPROVAL)) then mret (Some wf)
      else
        match find_step "assess" (steps wf) with
        | Some assess_step =>
            if output_truthy (output_data assess_step) then
              to_remediate ← of_result (select_to_remediate vulnerability_ids
                                          (get_assessments (output_data assess_step))) ;
              match to_remediate with
              | [] => mret tt
              | _ =>
                  await (remediate_batch to_remediate (repository wf) (branch wf) false) ;;
                  mret tt
              end
            else mret tt
        | None => mret tt
        end ;;
        modify (on_workflow wid (set_awaiting_approval 0)) ;;
        modify (on_workflow wid (set_status COMPLETED)) ;;
        modify (fun w => on_workflow wid (set_completed_at (Some (utcnow w))) w) ;;
        modify (update_workflow wid) ;;
        read (get_workflow wid)
  end.

(** [WorkflowEngine.cancel_workflow] *)
Definition cancel_workflow (wid : string) (w : World) : option Workflow * World :=
  match get_workflow wid w with
  | None => (None, w)
  | Some _ =>
      let w := on_workflow wid (set_status CANCELLED) w in
      let w := on_workflow wid (set_completed_at (Some (utcnow w))) w in
      let w := update_workflow wid w in
      (get_workflow wid w, w)
  end.

(** ** main.py: the two endpoints that change a workflow *)

(** [POST /workflow/{workflow_id}/cancel] *)
Definition api_cancel_workflow (wid : string) (w : World) : Result WorkflowResponse * World :=
  match cancel_workflow wid w with
  | (None, w') => (Raised (HTTPException 404 "Workflow not found"), w')
  | (Some wf, w') =>
      (Ok {| resp_workflow_id := workflow_id wf; resp_status := status wf;
             resp_message := "Workflow cancelled"; resp_workflow := Some wf |}, w')
  end.

(** The branch [if not request.approved] of [POST /approve]. *)
Definition api_reject (request : ApprovalBody) (w : World) : WorkflowResponse * World :=
  let wid := ab_workflow_id request in
  let w' :=
    match get_workflow wid w with
    | Some _ =>
        let w := on_workflow wid (set_status COMPLETED) w in
        let w := on_workflow wid (set_awaiting_approval 0) w in
        update_workflow wid w
    | None => w
    end in
  ({| resp_workflow_id := wid; resp_status := COMPLETED;
      resp_message := "Remediation rejected";
      resp_workflow := get_workflow wid w' |}, w').

(** [POST /approve].  The message of the approving branch carries the
    number of ids, which is left out of the text here. *)
Definition api_approve_remediation (request : ApprovalBody) : Task WorkflowResponse :=
  if negb (ab_approved request) then
    fun w => let '(r, w') := api_reject request w in Finished (Ok r) w'
  else
    found ← approve_remediation (ab_workflow_id request)
              (ab_vulnerability_ids request) (ab_approver request) ;
    match found with
    | None => raise (HTTPException 404 "Workflow not found")
    | Some wf =>
        mret {| resp_workflow_id := workflow_id wf; resp_status := status wf;
                resp_message := "Approved remediations"; resp_workflow := Some wf |}
    end.

(** ** audit_log.py *)

(** [AuditLogService.log]; [eid] is the [uuid4] of the entry. *)
Definition log (eid : string) (act : AuditAction) (who : string)
    (wid vid aid : option string) (det : AuditDetails)
    (ok : bool) (err : option string) (w : World) : World :=
  let entry := {|
    entry_id := eid; timestamp := utcnow w; audit_action := act; actor := who;
    al_workflow_id := wid; al_vulnerability_id := vid; al_approval_id := aid;
    details := det; success := ok; al_error_message := err |} in
  set_audit (audit_entries w ++ [entry]) w.

Definition log_approval_requested (eid wid aid priority : string)
    (vulnerability_count : nat) (w : World) : World :=
  log eid APPROVAL_REQUESTED "orchestrator" (Some wid) None (Some aid)
      (DetailsApprovalRequested priority vulnerability_count) true None w.

Definition log_approval_decision (eid aid wid : string) (approved : bool)
    (who : string) (comment : option string) (w : World) : World :=
  log eid (if approved then APPROVAL_GRANTED else APPROVAL_DENIED) who
      (Some wid) None (Some aid)
      (DetailsDecision (if approved then "approved" else "rejected") comment)
      true None w.

(** ** hitl_api.py *)

(** [timedelta(hours=h)], in seconds.  A [timedelta] holds at most
    999999999 days either way; beyond that the constructor raises
    [OverflowError], for which [None] stands. *)
Definition timedelta_hours (h : Z) : option Z :=
  let days := (3600 * h) / 86400 in
  if (-999999999 <=? days) && (days <=? 999999999) then Some (3600 * h) else None.

(** [datetime.min] and [datetime.max], the first second of year 1 and
    the last of year 9999, on the clock of the world. *)
Definition datetime_min : Z := -62135596800.
Definition datetime_max : Z := 253402300799.

(** [t + d] for a [datetime] and a [timedelta]: [OverflowError] when
    the sum is no [datetime]. *)
Definition datetime_add (t d : Z) : option Z :=
  if (datetime_min <=? t + d) && (t + d <=? datetime_max) then Some (t + d) else None.

(** [datetime.utcnow() + timedelta(hours=h)] *)
Definition expiry_after (now h : Z) : option Z :=
  match timedelta_hours h with
  | Some d => datetime_add now d
  | None => None
  end.

(** [POST /hitl/approvals].  [aid] and [eid] are the identifiers drawn
    for the approval and for its audit entry; a clock second is a
    second.  [expires_in_hours] is any integer: when the expiry cannot
    be computed the [OverflowError] leaves the endpoint before anything
    is stored or logged.  The notification service runs with its
    default configuration (no Teams webhook, no e-mail), in which
    [send_approval_request] sends nothing.  The result is the
    [approval_id] of the response. *)
Definition create_approval (request : CreateApprovalRequest) (aid eid : string)
    (w : World) : Result string * World :=
  match expiry_after (utcnow w) (car_expires_in_hours request) with
  | None => (Raised OverflowError, w)
  | Some expiry =>
      let approval := {|
        approval_id := aid;
        ar_workflow_id := car_workflow_id request;
        approval_type := REMEDIATION;
        ar_status := APPROVAL_PENDING;
        ar_title := car_title request;
        ar_description := car_description request;
        ar_vulnerability_ids := car_vulnerability_ids request;
        ar_priority := car_priority request;
        risk_summary := car_risk_summary request;
        recommended_action := car_recommended_action request;
        requested_by := car_requested_by request;
        requested_at := utcnow w;
        expires_at := Some expiry;
        resolved_by := None; resolved_at := None; resolution_comment := None |} in
      let w := set_approvals (<[aid := approval]> (approvals_store w)) w in
      let w := log_approval_requested eid (car_workflow_id request) aid
                 (car_priority request) (length (car_vulnerability_ids request)) w in
      (Ok aid, w)
  end.

(** [approval.expires_at and approval.expires_at < now] *)
Definition expiry_passed (now : Z) (a : ApprovalRequest) : bool :=
  match expires_at a with
  | Some e => e <? now
  | None => false
  end.

(** [GET /hitl/approvals/pending]: marks the pending approvals whose
    expiry has passed as expired and returns the ones still pending.
    The order of the returned list (by [requested_at], newest first) is
    not modelled. *)
Definition get_pending_approvals (w : World) : list ApprovalRequest * World :=
  let now := utcnow w in
  let store :=
    (fun a => if bool_decide (ar_status a = APPROVAL_PENDING) && expiry_passed now a
              then set_ar_status EXPIRED a else a) <$> approvals_store w in
  (filter (fun a => ar_status a = APPROVAL_PENDING) (map_to_list store).*2,
   set_approvals store w).

(** [POST /hitl/approvals/{approval_id}/decide]; the result is the
    [status] of the response. *)
Definition decide_approval (aid : string) (decision : ApprovalDecision)
    (eid : string) (w : World) : Result ApprovalStatus * World :=
  match approvals_store w !! aid with
  | None => (Raised (HTTPException 404 "Approval not found"), w)
  | Some approval =>
      if negb (bool_decide (ar_status approval = APPROVAL_PENDING)) then
        (Raised (HTTPException 400
           ("Approval already " +:+ approval_status_value (ar_status approval))), w)
      else
        let st := if dec_approved decision then APPROVED else REJECTED in
        let approval' :=
          set_resolution (dec_resolver decision) (utcnow w) (dec_comment decision)
            (set_ar_status st approval) in
        let w := set_approvals (<[aid := approval']> (approvals_store w)) w in
        let w := log_approval_decision eid aid (ar_workflow_id approval)
                   (dec_approved decision) (dec_resolver decision)
                   (dec_comment decision) w in
        (Ok st, w)
  end.

(** ** The environment of a coroutine *)

(** Requests the event loop may serve while a coroutine is suspended:
    the endpoints above that run without awaiting a collaborator, and
    the passing of time. *)
Inductive ApiOp : Type :=
  | OpCancel (wid : string)
  | OpReject (request : ApprovalBody)
  | OpCreateApproval (request : CreateApprovalRequest) (aid eid : string)
  | OpDecide (aid : string) (decision : ApprovalDecision) (eid : string)
  | OpListPending
  | OpTick (seconds : Z).

Definition apply_op (w : World) (op : ApiOp) : World :=
  match op with
  | OpCancel wid => (api_cancel_workflow wid w).2
  | OpReject request => (api_reject request w).2
  | OpCreateApproval request aid eid => (create_approval request aid eid w).2
  | OpDecide aid decision eid => (decide_approval aid decision eid w).2
  | OpListPending => (get_pending_approvals w).2
  | OpTick d => set_utcnow (utcnow w + d) w
  end.

(** [respond n c] is the answer to call [c] when it is the [n]-th
    awaited call of the run; [interfere n] are the requests served
    while that call is pending. *)
Record Env : Type := {
  respond : nat -> forall c : Call, Resp c;
  interfere : nat -> list ApiOp;
}.

(** What a run leaves behind: the result, the final state, the calls
    made in order, and the states in which the coroutine could be
    observed (at each suspension, then at the end). *)
Record Run (A : Type) : Type := {
  result : Result A;
  final : World;
  calls : list Call;
  observed : list World;
}.
Arguments result {A} _.
Arguments final {A} _.
Arguments calls {A} _.
Arguments observed {A} _.

Fixpoint run {A} (env : Env) (n : nat) (o : Outcome A) : Run A :=
  match o with
  | Finished r w =>
      {| result := r; final := w; calls := []; observed := [w] |}
  | Suspended c w k =>
      let w' := foldl apply_op w (interfere env n) in
      let rest := run env (S n) (k (respond env n c) w') in
      {| result := result rest; final := final rest;
         calls := c :: calls rest; observed := w :: observed rest |}
  end.


(** The number of calls of one kind in a trace. *)
Definition count_calls (p : Call -> bool) (l : list Call) : nat :=
  length (List.filter p l).

(** The statuses of the steps of workflow [wid], in order. *)
Definition step_statuses (wid : string) (w : World) : list WorkflowStatus :=
  step_status <$> steps (the_workflow wid w).

(** ⌈a / b⌉ for [b > 0]. *)
Definition ceil_div (a b : Z) : Z := (a + b - 1) / b.

(** ** Definitions used by the statements below *)

(** The world in which the object stored under [wid] is [wf]. *)
Definition put (wid : string) (wf : Workflow) (w : World) : World :=
  set_workflows (<[wid := wf]> (workflows w)) w.

(** Sequencing of runs: the run of [t ≫= f] is the run of [t] followed,
    when [t] returns a value, by the run of [f] on that value from the
    state [t] left.  The state in which [t] finished is the state in
    which [f] starts, so it is observed once. *)
Definition then_run {A B} (r1 : Run A) (k : A -> World -> Run B) : Run B :=
  match result r1 with
  | Ok a =>
      let r2 := k a (final r1) in
      {| result := result r2; final := final r2;
         calls := calls r1 ++ calls r2;
         observed := removelast (observed r1) ++ observed r2 |}
  | Raised e =>
      {| result := Raised e; final := final r1;
         calls := calls r1; observed := observed r1 |}
  | NoReturn =>
      {| result := NoReturn; final := final r1;
         calls := calls r1; observed := observed r1 |}
  end.

(** The run of [try: t except: h]. *)
Definition catch_run {A} (r1 : Run A) (h : Exn -> World -> Run A) : Run A :=
  match result r1 with
  | Raised e =>
      let r2 := h e (final r1) in
      {| result := result r2; final := final r2;
         calls := calls r1 ++ calls r2;
         observed := removelast (observed r1) ++ observed r2 |}
  | _ => r1
  end.

(** The two routes of the decision policy, and the policy table in the
    words of the specification: [P0]/[P1] by the require-approval flag,
    [P2] by the auto-remediate-P2 flag, [P3]/[P4] to auto-remediation
    when the low-priority flag and the workflow's own flag are both set.
    [None]: the table names no route. *)
Inductive Route : Type := AutoRemediate | ApprovalQueue.

#[global] Instance Route_eq_dec : EqDecision Route.
Proof. solve_decision. Defined.

Definition policy_route (cfg : Settings) (auto_remediate_config : bool)
    (priority : string) : option Route :=
  if bool_decide (priority = "P0" \/ priority = "P1") then
    Some (if require_approval_p0_p1 cfg then ApprovalQueue else AutoRemediate)
  else if bool_decide (priority = "P2") then
    Some (if auto_remediate_p2 cfg then AutoRemediate else ApprovalQueue)
  else if bool_decide (priority = "P3" \/ priority = "P4") then
    if auto_remediate_p3_p4 cfg && auto_remediate_config
    then Some AutoRemediate else None
  else None.

(** The assessments the table sends to route [r], as the dictionaries
    the engine builds for them. *)
Definition routed_to (cfg : Settings) (auto_remediate_config : bool) (r : Route)
    (l : list Assessment) : list RemediationItem :=
  (fun a => build_vuln a (priority_of a)) <$>
  filter (fun a => policy_route cfg auto_remediate_config (priority_of a) = Some r) l.

(** *** Sample data *)

Definition empty_world (now : Z) : World :=
  {| workflows := ∅; approvals_store := ∅; audit_entries := []; utcnow := now |}.

Definition sample_request : WorkflowRequest :=
  {| req_repository := "acme/api"; req_branch := "main";
     req_scan_types := ["dependency"]; req_auto_remediate := true;
     req_notify := true |}.

(** A process in which workflow ["wf-1"] has just been started. *)
Definition started_world : World :=
  start_workflow sample_request "api" "wf-1" (empty_world 1000).

(** Workflow ["wf-1"] in a terminal state, and a process that holds
    it. *)
Definition completed_workflow : Workflow :=
  set_status COMPLETED (the_workflow "wf-1" started_world).

Definition completed_world : World :=
  set_workflows (<["wf-1" := completed_workflow]> (workflows started_world)) started_world.

Definition sample_assessment (vid priority : string) : Assessment :=
  {| vulnerability_id := Some vid; cve_id := None; title := None;
     severity := Some "high"; risk_priority := Some priority;
     cvss_score := None |}.

Definition sample_vulnerability : Vulnerability :=
  {| vuln_id := "V1"; vuln_severity := "high" |}.

(** A pending approval created at time 0 that expires at time 100, in a
    process whose clock reads 200. *)
Definition stale_approval : ApprovalRequest := {|
  approval_id := "ap-1"; ar_workflow_id := "wf-1"; approval_type := REMEDIATION;
  ar_status := APPROVAL_PENDING; ar_title := "Fix V1"; ar_description := "";
  ar_vulnerability_ids := ["V1"]; ar_priority := "P1"; risk_summary := "";
  recommended_action := ""; requested_by := "system"; requested_at := 0;
  expires_at := Some 100; resolved_by := None; resolved_at := None;
  resolution_comment := None |}.

Definition stale_world : World :=
  {| workflows := ∅; approvals_store := {[ "ap-1" := stale_approval ]};
     audit_entries := []; utcnow := 200 |}.

Definition approve_by_alice : ApprovalDecision :=
  {| dec_approved := true; dec_resolver := "alice"; dec_comment := None |}.

Definition approve_wf1 : ApprovalBody :=
  {| ab_workflow_id := "wf-1"; ab_vulnerability_ids := ["V1"];
     ab_approved := true; ab_approver := "alice"; ab_comment := None |}.

(** [default_settings] with the low-priority auto-remediation switched
    off. *)
Definition no_low_priority_settings : Settings := {|
  auto_remediate_p3_p4 := false;
  auto_remediate_p2 := false;
  require_approval_p0_p1 := true;
  agent_timeout_seconds := 300;
  workflow_timeout_seconds := 600;
  slack_webhook_url := None;
|}.

(** Whatever the collaborators answer and whatever else happens while
    the coroutine is suspended, it makes at most [b] calls of the kind
    [p]. *)
Fixpoint calls_at_most {A} (p : Call -> bool) (b : nat) (o : Outcome A) : Prop :=
  match o with
  | Finished _ _ => True
  | Suspended c _ k =>
      if p c then
        match b with
        | O => False
        | S b' => forall r w', calls_at_most p b' (k r w')
        end
      else forall r w', calls_at_most p b (k r w')
  end.

(** Whatever the collaborators answer and whatever else happens while
    the coroutine is suspended, its result satisfies [P]. *)
Fixpoint returns {A} (P : Result A -> Prop) (o : Outcome A) : Prop :=
  match o with
  | Finished r _ => P r
  | Suspended _ _ k => forall r w', returns P (k r w')
  end.

(** The results a terminated poll may have: an answer of the scanner
    that says [completed] or [failed], or the timeout dictionary. *)
Definition poll_answer (r : Result ScanResult) : Prop :=
  exists res, r = Ok res
    /\ (sr_status res = Some "completed" \/ sr_status res = Some "failed"
        \/ res = polling_timeout).

(** How many calls of each kind one execution unit may make: one
    request to start the scan, one assessment, one remediation batch,
    and as many polls, each followed by at most one sleep, as the
    workflow timeout allows at the poll interval of five seconds. *)
Definition unit_budget (cfg : Settings) (kd : CallKind) : nat :=
  match kd with
  | TriggerScan | AssessCall | RemediateBatch => 1
  | GetScanResults | SleepCall =>
      Z.to_nat (ceil_div (workflow_timeout_seconds cfg) 5)
  end.

(** An environment given by the answers of the four collaborators
    ([scan n] answers a poll that is the [n]-th call of the run) and by
    the requests served meanwhile. *)
Definition make_env (tr : TriggerResult) (scan : nat -> ScanResult)
    (ar : AssessResult) (rr : RemediateResult) (ops : nat -> list ApiOp) : Env := {|
  respond := fun n c =>
    match c return Resp c with
    | trigger_scan _ _ _ => tr
    | get_scan_results _ => scan n
    | sleep _ => tt
    | assess_vulnerabilities _ _ => ar
    | remediate_batch _ _ _ _ => rr
    end;
  interfere := ops;
|}.

Definition scan_started : TriggerResult :=
  {| t_error := None; t_scan_id := Some "scan-1" |}.

Definition scan_running : ScanResult :=
  {| sr_status := Some "running"; sr_error := None; sr_results := [] |}.

Definition scan_failed : ScanResult :=
  {| sr_status := Some "failed"; sr_error := None; sr_results := [] |}.

(** A scan that found the one sample vulnerability. *)
Definition scan_completed : ScanResult :=
  {| sr_status := Some "completed"; sr_error := None;
     sr_results := [ScanEntryObject [VulnerabilityObject sample_vulnerability]] |}.

(** The scanner is still running at the first poll (call 1 of the unit)
    and has finished at the second (call 3). *)
Definition scan_script (last : ScanResult) (n : nat) : ScanResult :=
  if (n <? 3)%nat then scan_running else last.

Definition assessed (priority : string) : AssessResult :=
  {| a_error := None; a_assessment_id := Some "as-1";
     a_assessments := [AssessmentObject (sample_assessment "V1" priority)];
     a_summary := {| summary_P0 := None; summary_P1 := None |} |}.

Definition remediated : RemediateResult :=
  {| r_error := None; r_fixes_generated := Some 1; r_batch_id := Some "batch-1" |}.

Definition no_ops : nat -> list ApiOp := fun _ => [].

(** The scan completes with one finding, which is assessed as
    [priority]; nothing else happens meanwhile. *)
Definition one_finding_env (priority : string) : Env :=
  make_env scan_started (scan_script scan_completed) (assessed priority) remediated no_ops.



(** The scanner reports that the scan failed. *)
Definition failed_scan_env : Env :=
  make_env scan_started (scan_script scan_failed) (assessed "P1") remediated no_ops.



(** *** Reasoning about a coroutine among other requests *)

(** What the requests of [ApiOp] may do to workflow [wid] while its
    execution unit is suspended: the object stays in the store; its
    steps, metadata, repository and branch stay as they are; its status
    stays or becomes [CANCELLED] or [COMPLETED]. *)
Definition rely_api (wid : string) (w w' : World) : Prop :=
  forall wf, get_workflow wid w = Some wf ->
    exists wf', get_workflow wid w' = Some wf'
      /\ steps wf' = steps wf
      /\ metadata wf' = metadata wf
      /\ repository wf' = repository wf
      /\ branch wf' = branch wf
      /\ (status wf' = status wf \/ status wf' = CANCELLED \/ status wf' = COMPLETED).

(** [evolves env n0 rely R Q tr prev o]: the coroutine [o], resumed in
    state [prev] after the calls [tr], reaches its next suspension or its
    end in a state related to [prev] by [R]; when it is resumed in any
    state [rely] allows, the same holds again; and when it ends, [Q]
    holds of the calls made, the result and the final state.  The
    answers are those of [env], with [n0] the index of the first call. *)
Fixpoint evolves {A} (env : Env) (n0 : nat) (rely R : World -> World -> Prop)
    (Q : list Call -> Result A -> World -> Prop)
    (tr : list Call) (prev : World) (o : Outcome A) : Prop :=
  match o with
  | Finished r w => R prev w /\ Q tr r w
  | Suspended c w k =>
      R prev w /\
      forall w', rely w w' ->
        evolves env n0 rely R Q (tr ++ [c]) w'
                (k (respond env (n0 + length tr) c) w')
  end.

(** The observed states of a run, seen from the state [prev] in which it
    was started or last resumed: each is reached by [R], and the next one
    after a change [rely] allows. *)
Fixpoint guided (rely R : World -> World -> Prop) (prev : World) (l : list World) : Prop :=
  match l with
  | [] => True
  | w :: rest =>
      R prev w /\
      match rest with
      | [] => True
      | _ => exists w', rely w w' /\ guided rely R w' rest
      end
  end.

(** An environment whose interference respects [rely]. *)
Definition obeys (rely : World -> World -> Prop) (env : Env) : Prop :=
  forall n w, rely w (foldl apply_op w (interfere env n)).

(** *** The order of step statuses *)

Definition is_pending (s : WorkflowStatus) : bool :=
  match s with PENDING => true | _ => false end.

(** The shape the specification asks of a list of step statuses: a
    prefix of [COMPLETED], then at most one entry that is neither
    [COMPLETED] nor [PENDING] (a failed step or the step in progress),
    then [PENDING] to the end. *)
Fixpoint ordered (l : list WorkflowStatus) : bool :=
  match l with
  | [] => true
  | COMPLETED :: rest => ordered rest
  | _ :: rest => forallb is_pending rest
  end.

(** The shape the engine keeps: [decide] and [complete] stay [PENDING],
    and the three steps the engine updates -- [scan], [assess],
    [remediate] -- are [ordered]. *)
Definition engine_ordered (l : list WorkflowStatus) : bool :=
  match l with
  | [s; a; PENDING; m; PENDING] => ordered [s; a; m]
  | _ => false
  end.

(** A status that is [COMPLETED] or [FAILED] stays what it is. *)
Definition settled (a b : WorkflowStatus) : Prop :=
  (a = COMPLETED \/ a = FAILED) -> b = a.

(** From one list of step statuses to a later one. *)
Definition advances (v1 v2 : list WorkflowStatus) : Prop :=
  (engine_ordered v1 = true -> engine_ordered v2 = true) /\ Forall2 settled v1 v2.

(** One atomic section of the execution unit of [wid]: it changes the
    object stored under [wid] and nothing else, leaves metadata,
    repository and branch alone, keeps the steps in their places, and
    the step statuses advance. *)
Definition unit_step (wid : string) (w1 w2 : World) : Prop :=
  exists wf1 wf2,
    get_workflow wid w1 = Some wf1
    /\ w2 = put wid wf2 w1
    /\ metadata wf2 = metadata wf1
    /\ repository wf2 = repository wf1
    /\ branch wf2 = branch wf1
    /\ step_id <$> steps wf2 = step_id <$> steps wf1
    /\ advances (step_status <$> steps wf1) (step_status <$> steps wf2).

(** A status that is neither [FAILED] nor [AWAITING_APPROVAL]. *)
Definition calm (s : WorkflowStatus) : Prop :=
  s <> FAILED /\ s <> AWAITING_APPROVAL.

(** The object stored under [wid] has the given metadata, repository,
    branch and steps, and satisfies [P]. *)
Definition wf_at (wid : string) (md : Metadata) (repo br : string)
    (L : list WorkflowStep) (P : Workflow -> Prop) (w : World) : Prop :=
  exists wf, get_workflow wid w = Some wf
    /\ metadata wf = md /\ repository wf = repo /\ branch wf = br
    /\ steps wf = L /\ P wf.

Definition is_calm (wf : Workflow) : Prop := calm (status wf).
Definition has_status (s : WorkflowStatus) (wf : Workflow) : Prop := status wf = s.

(** [update_step] applied to a list of steps. *)
Definition mark (sid : string) (st : WorkflowStatus) (out : option OutputData)
    (err : option string) (now : Z) (L : list WorkflowStep) : list WorkflowStep :=
  update_first sid (update_step_fields st out err now) L.

(** The run of a poll in environment [env] from call index [m].  Its
    result and its calls depend on the answers only, not on the state
    (lemma [poll_run_any_world]). *)
Definition poll_run (env : Env) (m : nat) (scan_id : option string)
    (max_wait poll_interval : Z) : Run ScanResult :=
  run env m (poll_scan_completion scan_id max_wait poll_interval (empty_world 0)).

(** *** What each stage leaves behind *)

(** The steps of a workflow along the stages; the [t]s are the clock
    readings at the updates. *)
Definition steps_scanning (t1 : Z) : list WorkflowStep :=
  mark "scan" SCANNING None None t1 initial_steps.

Definition steps_scan_failed (t1 t2 : Z) (err : string) : list WorkflowStep :=
  mark "scan" FAILED None (Some err) t2 (steps_scanning t1).

Definition steps_scanned (t1 t2 : Z) (out : OutputData) : list WorkflowStep :=
  mark "scan" COMPLETED (Some out) None t2 (steps_scanning t1).

Definition steps_assessing (scanned : list WorkflowStep) (t3 : Z) : list WorkflowStep :=
  mark "assess" SCANNING None None t3 scanned.

Definition steps_assess_failed (scanned : list WorkflowStep) (t3 t4 : Z) (err : string)
    : list WorkflowStep :=
  mark "assess" FAILED None (Some err) t4 (steps_assessing scanned t3).

Definition steps_assessed (scanned : list WorkflowStep) (t3 t4 : Z) (out : OutputData)
    : list WorkflowStep :=
  mark "assess" COMPLETED (Some out) None t4 (steps_assessing scanned t3).

Definition steps_decided (assessed : list WorkflowStep) (t5 : Z)
    (to_auto to_await : list RemediationItem) : list WorkflowStep :=
  mark "remediate"
       (match to_await with [] => COMPLETED | _ => AWAITING_APPROVAL end)
       (Some (OutRemediate (length to_auto) (length to_await))) None t5 assessed.

Section stage_results.
Context (cfg : Settings) (env : Env) (n0 : nat) (wid : string).
Context (md : Metadata) (repo br : string).

(** The request that starts the scan, and the output the scan step
    gets from a completed scan. *)
Definition the_trigger : Call :=
  trigger_scan repo br (scan_types_or_default (default [] (md_scan_types md))).

Definition scan_output (scan_id : option string) (res : ScanResult) : OutputData :=
  OutScan scan_id (length (_extract_vulnerabilities res)) (_extract_vulnerabilities res).

(** After [_execute_scan], started after the calls [tr]. *)
Definition scan_post (tr tr' : list Call) (r : Result unit) (w' : World) : Prop :=
  r = Ok tt /\
  let trig := respond env (n0 + length tr) the_trigger in
  match t_error trig with
  | Some e =>
      tr' = tr ++ [the_trigger]
      /\ exists t1 t2,
           wf_at wid md repo br (steps_scan_failed t1 t2 e) (has_status FAILED) w'
  | None =>
      let p := poll_run env (S (n0 + length tr)) (t_scan_id trig)
                        (workflow_timeout_seconds cfg) 5 in
      tr' = tr ++ the_trigger :: calls p
      /\ exists res t1 t2,
           result p = Ok res
           /\ if decide (sr_status res = Some "completed") then
                wf_at wid md repo br
                      (steps_scanned t1 t2 (scan_output (t_scan_id trig) res)) is_calm w'
              else
                wf_at wid md repo br
                      (steps_scan_failed t1 t2 (default "Scan failed" (sr_error res)))
                      (has_status FAILED) w'
  end.

(** After [_execute_assessment], started after the calls [tr] on a
    workflow whose scan found [vs]. *)
Definition assess_post (scanned : list WorkflowStep) (vs : list Vulnerability)
    (tr tr' : list Call) (r : Result unit) (w' : World) : Prop :=
  r = Ok tt /\
  match vs with
  | [] =>
      tr' = tr
      /\ exists t3 t4,
           wf_at wid md repo br (steps_assessed scanned t3 t4 OutNoVulnerabilities)
                 is_calm w'
  | _ =>
      let c := assess_vulnerabilities vs repo in
      let ar := respond env (n0 + length tr) c in
      tr' = tr ++ [c]
      /\ exists t3 t4,
           match a_error ar with
           | Some e =>
               wf_at wid md repo br (steps_assess_failed scanned t3 t4 e)
                     (has_status FAILED) w'
           | None =>
               wf_at wid md repo br
                     (steps_assessed scanned t3 t4
                        (OutAssess (a_assessment_id ar) (a_assessments ar) (a_summary ar)))
                     is_calm w'
           end
  end.

(** After [_execute_remediation_decisions], started after the calls
    [tr] on a workflow whose assess step holds [assessments]. *)
Definition decisions_post (assessed : list WorkflowStep) (assessments : list JAssessment)
    (tr tr' : list Call) (r : Result unit) (w' : World) : Prop :=
  match assessments with
  | [] =>
      r = Ok tt /\ tr' = tr
      /\ wf_at wid md repo br assessed (has_status REMEDIATING) w'
  | _ =>
      match categorize cfg (default true (md_auto_remediate md)) assessments ([], []) with
      | Ok (to_auto, to_await) =>
          r = Ok tt
          /\ tr' = tr ++ match to_auto with
                         | [] => []
                         | _ => [remediate_batch to_auto repo br false]
                         end
          /\ exists t5,
               wf_at wid md repo br (steps_decided assessed t5 to_auto to_await)
                     (fun wf =>
                        match to_await with
                        | [] => is_calm wf
                        | _ => status wf = AWAITING_APPROVAL
                               /\ wf_awaiting_approval wf = length to_await
                        end) w'
      | Raised e =>
          r = Raised e /\ tr' = tr
          /\ wf_at wid md repo br assessed (has_status REMEDIATING) w'
      | NoReturn => False
      end
  end.

(** After [_execute_remediation_decisions] and [_complete_workflow].
    [caught] tells whether the handler of [_execute_workflow] has run
    on an exception. *)
Definition decide_and_complete_post (caught : bool) (assessed : list WorkflowStep)
    (assessments : list JAssessment)
    (tr tr' : list Call) (r : Result unit) (w' : World) : Prop :=
  match assessments with
  | [] =>
      r = Ok tt /\ tr' = tr
      /\ wf_at wid md repo br assessed (has_status COMPLETED) w'
  | _ =>
      match categorize cfg (default true (md_auto_remediate md)) assessments ([], []) with
      | Ok (to_auto, to_await) =>
          r = Ok tt
          /\ tr' = tr ++ match to_auto with
                         | [] => []
                         | _ => [remediate_batch to_auto repo br false]
                         end
          /\ exists t5,
               wf_at wid md repo br (steps_decided assessed t5 to_auto to_await)
                     (fun wf =>
                        match to_await with
                        | [] => status wf = COMPLETED
                        | _ => status wf = AWAITING_APPROVAL
                               /\ wf_awaiting_approval wf = length to_await
                        end) w'
      | Raised e =>
          tr' = tr
          /\ if caught
             then r = Ok tt /\ wf_at wid md repo br assessed (has_status FAILED) w'
             else r = Raised e
                  /\ wf_at wid md repo br assessed (has_status REMEDIATING) w'
      | NoReturn => False
      end
  end.

(** After the part of the unit that follows a completed scan. *)
Definition after_scan_post (caught : bool) (scanned : list WorkflowStep)
    (vs : list Vulnerability)
    (tr tr' : list Call) (r : Result unit) (w' : World) : Prop :=
  exists t3 t4,
    match vs with
    | [] =>
        decide_and_complete_post caught
          (steps_assessed scanned t3 t4 OutNoVulnerabilities) [] tr tr' r w'
    | _ =>
        let c := assess_vulnerabilities vs repo in
        let ar := respond env (n0 + length tr) c in
        match a_error ar with
        | Some e =>
            r = Ok tt /\ tr' = tr ++ [c]
            /\ wf_at wid md repo br (steps_assess_failed scanned t3 t4 e)
                     (has_status FAILED) w'
        | None =>
            decide_and_complete_post caught
              (steps_assessed scanned t3 t4
                 (OutAssess (a_assessment_id ar) (a_assessments ar) (a_summary ar)))
              (a_assessments ar) (tr ++ [c]) tr' r w'
        end
    end.

(** After the whole execution unit, started as the first thing of the
    run: what it called, how it ended and what it left stored, by the
    answers of the collaborators. *)
Definition unit_post (caught : bool) (tr' : list Call) (r : Result unit) (w' : World)
    : Prop :=
  let trig := respond env n0 the_trigger in
  match t_error trig with
  | Some e =>
      r = Ok tt /\ tr' = [the_trigger]
      /\ exists t1 t2,
           wf_at wid md repo br (steps_scan_failed t1 t2 e) (has_status FAILED) w'
  | None =>
      let p := poll_run env (S n0) (t_scan_id trig) (workflow_timeout_seconds cfg) 5 in
      exists res t1 t2,
        result p = Ok res
        /\ if decide (sr_status res = Some "completed") then
             after_scan_post caught
               (steps_scanned t1 t2 (scan_output (t_scan_id trig) res))
               (_extract_vulnerabilities res)
               (the_trigger :: calls p) tr' r w'
           else
             r = Ok tt /\ tr' = the_trigger :: calls p
             /\ wf_at wid md repo br
                      (steps_scan_failed t1 t2 (default "Scan failed" (sr_error res)))
                      (has_status FAILED) w'
  end.

End stage_results.

(** *** Statements about whole runs *)

(** The metadata [start_workflow] stores for a request. *)
Definition request_metadata (request : WorkflowRequest) : Metadata :=
  {| md_scan_types := Some (req_scan_types request);
     md_auto_remediate := Some (req_auto_remediate request);
     md_notify := Some (req_notify request) |}.

(** The same collaborators, with no other request served meanwhile. *)
Definition undisturbed (env : Env) : Env :=
  {| respond := respond env; interfere := fun _ => [] |}.

(** The identifiers of the steps of a workflow, in order. *)
Definition step_ids (wid : string) (w : World) : list string :=
  step_id <$> steps (the_workflow wid w).

Definition canonical_ids : list string :=
  ["scan"; "assess"; "decide"; "remediate"; "complete"].

(** From an earlier state of workflow [wid] to a later one: the
    workflow is still stored, its steps are in the same places, and
    their statuses have advanced. *)
Definition steps_advance (wid : string) (a b : World) : Prop :=
  is_Some (get_workflow wid a) ->
  is_Some (get_workflow wid b)
  /\ step_ids wid b = step_ids wid a
  /\ advances (step_statuses wid a) (step_statuses wid b).

(** Nothing but the workflows has changed. *)
Definition same_records (a b : World) : Prop :=
  approvals_store b = approvals_store a /\ audit_entries b = audit_entries a.

(** After the trigger answered without error: the run of the poll, and
    the index of the call that follows it. *)
Definition the_poll (cfg : Settings) (env : Env) (n : nat) (md : Metadata)
    (repo br : string) : Run ScanResult :=
  poll_run env (S n) (t_scan_id (respond env n (the_trigger md repo br)))
           (workflow_timeout_seconds cfg) 5.

(** Whether, by the answers of the collaborators, a stage of the unit
    started as call [n] fails: the scanner refuses the scan; the poll
    ends with anything but [completed] (a failed scan or the timeout);
    the assessor answers with an error; or the decision loop raises.
    An error answer of the remediator is not among them. *)
Definition stage_failure (cfg : Settings) (env : Env) (n : nat) (md : Metadata)
    (repo br : string) : bool :=
  match t_error (respond env n (the_trigger md repo br)) with
  | Some _ => true
  | None =>
      let p := the_poll cfg env n md repo br in
      match result p with
      | Ok res =>
          if bool_decide (sr_status res = Some "completed") then
            match _extract_vulnerabilities res with
            | [] => false
            | vs =>
                let ar := respond env (n + length (the_trigger md repo br :: calls p))
                                  (assess_vulnerabilities vs repo) in
                match a_error ar with
                | Some _ => true
                | None =>
                    match a_assessments ar with
                    | [] => false
                    | l =>
                        match categorize cfg (default true (md_auto_remediate md)) l ([], []) with
                        | Raised _ => true
                        | _ => false
                        end
                    end
                end
            end
          else true
      | _ => false
      end
  end.

(** The status of workflow [wid] in each state in which a run can be
    observed. *)
Definition statuses_seen {A} (wid : string) (r : Run A) : list WorkflowStatus :=
  (fun w => status (the_workflow wid w)) <$> observed r.

(** As [one_finding_env "P3"], but [POST /workflow/wf-1/cancel] is
    served while the first poll (call 1) is pending. *)
Definition cancelling_env : Env :=
  make_env scan_started (scan_script scan_completed) (assessed "P3") remediated
           (fun n => if (n =? 1)%nat then [OpCancel "wf-1"] else []).

(** The scanner accepts the scan, but the remediator answers with an
    error. *)
Definition remediation_refused : RemediateResult :=
  {| r_error := Some "remediator down"; r_fixes_generated := None; r_batch_id := None |}.

Definition failed_remediation_env : Env :=
  make_env scan_started (scan_script scan_completed) (assessed "P3")
           remediation_refused no_ops.

(** What [approve_remediation] selects from the assess step of [wf]
    for the approved ids. *)
Definition approved_selection (ids : list string) (wf : Workflow)
    : Result (list RemediationItem) :=
  match find_step "assess" (steps wf) with
  | Some s =>
      if output_truthy (output_data s)
      then select_to_remediate ids (get_assessments (output_data s))
      else Ok []
  | None => Ok []
  end.

(** ** Python built-ins of the listing and query functions *)

(** [sorted(l, key=key, reverse=reverse)].  Python's sort is stable,
    also with [reverse=True]: elements with equal keys keep the order
    they have in [l].  That and the ordering determine the result, so
    it is described here by insertion from the right: an element goes in
    front of the first one it may precede. *)
Fixpoint insert_sorted {A} (key : A -> Z) (reverse : bool) (x : A) (l : list A) : list A :=
  match l with
  | [] => [x]
  | y :: rest =>
      if (if reverse then key y <=? key x else key x <=? key y)
      then x :: l
      else y :: insert_sorted key reverse x rest
  end.

Definition sorted {A} (key : A -> Z) (reverse : bool) (l : list A) : list A :=
  foldr (insert_sorted key reverse) [] l.

(** [l[:limit]]: the first [limit] elements, and for a negative
    [limit] all but the last [-limit]. *)
Definition slice_to {A} (limit : Z) (l : list A) : list A :=
  if 0 <=? limit then take (Z.to_nat limit) l
  else take (length l - Z.to_nat (- limit)) l.

(** [d[k] = d.get(k, 0) + 1] over a list: how often each key occurs. *)
Definition count_by {A} (key : A -> string) (l : list A) : gmap string nat :=
  foldl (fun (d : gmap string nat) x => <[key x := S (default 0%nat (d !! key x))]> d) ∅ l.

(** ** The enum values of [models.py] and [hitl_models.py] *)

Definition workflow_status_value (s : WorkflowStatus) : string :=
  match s with
  | PENDING => "pending"
  | SCANNING => "scanning"
  | ASSESSING => "assessing"
  | AWAITING_APPROVAL => "awaiting_approval"
  | REMEDIATING => "remediating"
  | COMPLETED => "completed"
  | FAILED => "failed"
  | CANCELLED => "cancelled"
  end.

Definition audit_action_value (a : AuditAction) : string :=
  match a with
  | SCAN_STARTED => "scan_started"
  | SCAN_COMPLETED => "scan_completed"
  | VULNERABILITY_DETECTED => "vulnerability_detected"
  | ASSESSMENT_COMPLETED => "assessment_completed"
  | APPROVAL_REQUESTED => "approval_requested"
  | APPROVAL_GRANTED => "approval_granted"
  | APPROVAL_DENIED => "approval_denied"
  | REMEDIATION_STARTED => "remediation_started"
  | REMEDIATION_COMPLETED => "remediation_completed"
  | REMEDIATION_FAILED => "remediation_failed"
  | COMMENT_ADDED => "comment_added"
  | EXCEPTION_GRANTED => "exception_granted"
  | WORKFLOW_COMPLETED => "workflow_completed"
  end.

#[global] Instance AuditAction_eq_dec : EqDecision AuditAction.
Proof. solve_decision. Defined.

Definition audit_actions : list AuditAction :=
  [SCAN_STARTED; SCAN_COMPLETED; VULNERABILITY_DETECTED; ASSESSMENT_COMPLETED;
   APPROVAL_REQUESTED; APPROVAL_GRANTED; APPROVAL_DENIED; REMEDIATION_STARTED;
   REMEDIATION_COMPLETED; REMEDIATION_FAILED; COMMENT_ADDED; EXCEPTION_GRANTED;
   WORKFLOW_COMPLETED].

(** [AuditAction(value)]: the member with that value; [None] stands for
    the [ValueError] of a value no member has. *)
Definition audit_action_of_value (value : string) : option AuditAction :=
  List.find (fun a => String.eqb (audit_action_value a) value) audit_actions.

(** [hitl_models.Comment] *)
Record Comment : Type := {
  comment_id : string;
  target_type : string;
  target_id : string;
  author : string;
  content : string;
  comment_created_at : Z;
  edited_at : option Z;
  mentions : list string;
}.

(** [AuditLogService._comments]: the dictionary from target ids to
    comment lists, as its items in the order of the dictionary. *)
Definition CommentStore : Type := list (string * list Comment).

(** ** state_manager.py: the functions the engine does not call *)

Module StateManager.

(** [list_workflows(status, repository, limit)].  [values] is
    [list(self._workflows.values())]: the stored workflows in the order
    the dictionary holds them.  The members of [WorkflowStatus] are
    non-empty strings, so a given status always filters; an empty
    repository name does not. *)
Definition list_workflows (status_filter : option WorkflowStatus)
    (repository_filter : option string) (limit : Z) (values : list Workflow)
    : list Workflow :=
  let workflows :=
    match status_filter with
    | Some s => filter (fun w => status w = s) values
    | None => values
    end in
  let workflows :=
    if str_truthy repository_filter
    then filter (fun w => Some (repository w) = repository_filter) workflows
    else workflows in
  slice_to limit (sorted created_at true workflows).

(** [get_pending_approvals]: [list_workflows] with its default limit. *)
Definition get_pending_approvals (values : list Workflow) : list Workflow :=
  list_workflows (Some AWAITING_APPROVAL) None 50 values.

(** [delete_workflow], in-memory. *)
Definition delete_workflow (wid : string) (w : World) : bool * World :=
  (true,
   if bool_decide (is_Some (workflows w !! wid))
   then set_workflows (delete wid (workflows w)) w
   else w).

Record Stats : Type := {
  total : nat;
  by_status : gmap string nat;
  storage : string;
}.

(** [get_stats], in-memory. *)
Definition get_stats (values : list Workflow) : Stats := {|
  total := length values;
  by_status := count_by (fun w => workflow_status_value (status w)) values;
  storage := "in_memory";
|}.

End StateManager.

(** ** audit_log.py: comments and queries *)

Module AuditLogService.

(** [comment.content = new_content; comment.edited_at = utcnow()] *)
Definition set_content (new_content : string) (now : Z) (c : Comment) : Comment :=
  {| comment_id := comment_id c; target_type := target_type c;
     target_id := target_id c; author := author c;
     content := new_content;
     comment_created_at := comment_created_at c;
     edited_at := Some now; mentions := mentions c |}.

(** How the search of [edit_comment] ends in one comment list: the id
    is not there, the first comment with the id is someone else's, or
    it was edited. *)
Inductive Edit : Type :=
  | NotFound
  | NotAuthor
  | Edited (c : Comment) (l : list Comment).

Fixpoint edit_in (cid new_content editor : string) (now : Z) (l : list Comment) : Edit :=
  match l with
  | [] => NotFound
  | c :: rest =>
      if String.eqb (comment_id c) cid then
        if negb (String.eqb (author c) editor) then NotAuthor
        else
          let c' := set_content new_content now c in
          Edited c' (c' :: rest)
      else
        match edit_in cid new_content editor now rest with
        | Edited c' rest' => Edited c' (c :: rest')
        | other => other
        end
  end.

(** [edit_comment]: the two nested loops; the result is the edited
    comment, or [None]. *)
Fixpoint edit_comment (cid new_content editor : string) (now : Z) (comments : CommentStore)
    : option Comment * CommentStore :=
  match comments with
  | [] => (None, [])
  | (target, l) :: rest =>
      match edit_in cid new_content editor now l with
      | Edited c' l' => (Some c', (target, l') :: rest)
      | NotAuthor => (None, comments)
      | NotFound =>
          let '(r, rest') := edit_comment cid new_content editor now rest in
          (r, (target, l) :: rest')
      end
  end.

(** [get_entries].  A filter that is [None] or an empty string does
    not filter. *)
Definition get_entries (workflow_id vulnerability_id : option string)
    (action : option AuditAction) (actor_filter : option string) (since : option Z)
    (limit : Z) (w : World) : list AuditLogEntry :=
  let entries := audit_entries w in
  let entries :=
    if str_truthy workflow_id
    then filter (fun e => al_workflow_id e = workflow_id) entries else entries in
  let entries :=
    if str_truthy vulnerability_id
    then filter (fun e => al_vulnerability_id e = vulnerability_id) entries else entries in
  let entries :=
    match action with
    | Some a => filter (fun e => audit_action e = a) entries
    | None => entries
    end in
  let entries :=
    if str_truthy actor_filter
    then filter (fun e => Some (actor e) = actor_filter) entries else entries in
  let entries :=
    match since with
    | Some t => filter (fun e => t <= timestamp e) entries
    | None => entries
    end in
  slice_to limit (sorted timestamp true entries).

(** [get_workflow_timeline] *)
Definition get_workflow_timeline (wid : string) (w : World) : list AuditLogEntry :=
  sorted timestamp false (filter (fun e => al_workflow_id e = Some wid) (audit_entries w)).

Record Stats : Type := {
  total_entries : nat;
  total_comments : nat;
  by_action : gmap string nat;
}.

(** [get_stats] *)
Definition get_stats (comments : CommentStore) (w : World) : Stats := {|
  total_entries := length (audit_entries w);
  total_comments := foldr (fun item n => (length item.2 + n)%nat) 0%nat comments;
  by_action := count_by (fun e => audit_action_value (audit_action e)) (audit_entries w);
|}.

End AuditLogService.

(** ** hitl_api.py: the listing and query endpoints *)

Module HitlApi.

(** [GET /hitl/approvals]: the total of the approvals that pass the
    filters, and the first [limit] of them, newest first.  [values] is
    [list(approvals_store.values())].  The route declares
    [limit: int = Query(50, le=200)]: a request with a larger limit is
    refused with a validation error (status 422) and the function is
    not run. *)
Definition list_approvals (status : option ApprovalStatus)
    (workflow_id priority : option string) (limit : Z) (values : list ApprovalRequest)
    : Result (nat * list ApprovalRequest) :=
  if 200 <? limit then Raised (RequestValidationError ["query"; "limit"])
  else
    let approvals :=
      match status with
      | Some s => filter (fun a => ar_status a = s) values
      | None => values
      end in
    let approvals :=
      if str_truthy workflow_id
      then filter (fun a => Some (ar_workflow_id a) = workflow_id) approvals
      else approvals in
    let approvals :=
      if str_truthy priority
      then filter (fun a => Some (ar_priority a) = priority) approvals
      else approvals in
    let approvals := sorted requested_at true approvals in
    Ok (length approvals, slice_to limit approvals).

(** [PUT /hitl/comments/{comment_id}] *)
Definition edit_comment (cid new_content editor : string) (now : Z) (comments : CommentStore)
    : Result Comment * CommentStore :=
  match AuditLogService.edit_comment cid new_content editor now comments with
  | (Some c, comments') => (Ok c, comments')
  | (None, comments') =>
      (Raised (HTTPException 404 "Comment not found or not authorized to edit"), comments')
  end.

(** [GET /hitl/audit]: the number of entries returned, and the entries.
    An [action] that names no member of [AuditAction] is dropped.  The
    route declares [limit: int = Query(100, le=1000)]: a request with a
    larger limit is refused with a validation error (status 422) and
    the function is not run. *)
Definition get_audit_log (workflow_id vulnerability_id action actor_filter : option string)
    (limit : Z) (w : World) : Result (nat * list AuditLogEntry) :=
  if 1000 <? limit then Raised (RequestValidationError ["query"; "limit"])
  else
    let action_enum :=
      match action with
      | Some value => if str_truthy action then audit_action_of_value value else None
      | None => None
      end in
    let entries :=
      AuditLogService.get_entries workflow_id vulnerability_id action_enum actor_filter
                                  None limit w in
    Ok (length entries, entries).

End HitlApi.

(** ** main.py: the endpoints that read *)

Module Main.

(** [GET /workflows]: the number of workflows returned, and the
    workflows. *)
Definition list_workflows (status_filter : option WorkflowStatus)
    (repository_filter : option string) (limit : Z) (values : list Workflow)
    : nat * list Workflow :=
  let workflows := StateManager.list_workflows status_filter repository_filter limit values in
  (length workflows, workflows).

(** [GET /approvals] *)
Definition get_pending_approvals (values : list Workflow) : nat * list Workflow :=
  let workflows := StateManager.get_pending_approvals values in
  (length workflows, workflows).

End Main.

(** ** Definitions used by the statements about these functions *)

(** In the order [sorted] produces: ascending keys, or descending ones
    with [reverse]. *)
Definition in_order {A} (key : A -> Z) (reverse : bool) (l : list A) : Prop :=
  forall i j x y, (i <= j)%nat -> l !! i = Some x -> l !! j = Some y ->
    if reverse then key y <= key x else key x <= key y.

(** Whether the filters of [list_workflows] let a workflow through. *)
Definition workflow_matches (status_filter : option WorkflowStatus)
    (repository_filter : option string) (wf : Workflow) : Prop :=
  match status_filter with Some s => status wf = s | None => True end
  /\ (if str_truthy repository_filter then Some (repository wf) = repository_filter
      else True).

#[global] Instance workflow_matches_dec status_filter repository_filter wf :
  Decision (workflow_matches status_filter repository_filter wf).
Proof.
  unfold workflow_matches.
  destruct status_filter, (str_truthy repository_filter); apply _.
Defined.

(** Whether the filters of [list_approvals] let an approval through. *)
Definition approval_matches (status : option ApprovalStatus)
    (workflow_id priority : option string) (a : ApprovalRequest) : Prop :=
  match status with Some s => ar_status a = s | None => True end
  /\ (if str_truthy workflow_id then Some (ar_workflow_id a) = workflow_id else True)
  /\ (if str_truthy priority then Some (ar_priority a) = priority else True).

#[global] Instance approval_matches_dec status workflow_id priority a :
  Decision (approval_matches status workflow_id priority a).
Proof.
  unfold approval_matches.
  destruct status, (str_truthy workflow_id), (str_truthy priority); apply _.
Defined.

(** What the requests served while a unit is suspended leave of
    workflow [wid]: it stays stored, with its steps, metadata,
    repository and branch, and with its remediation record. *)
Definition keeps_remediation (wid : string) (w w' : World) : Prop :=
  forall wf, get_workflow wid w = Some wf ->
    exists wf', get_workflow wid w' = Some wf'
      /\ steps wf' = steps wf
      /\ metadata wf' = metadata wf
      /\ repository wf' = repository wf
      /\ branch wf' = branch wf
      /\ wf_auto_remediated wf' = wf_auto_remediated wf
      /\ remediation_ids wf' = remediation_ids wf.

(** The scanner never says that the scan has ended. *)
Definition never_finished (env : Env) (scan_id : option string) : Prop :=
  forall m, let st := default "unknown" (sr_status (respond env m (get_scan_results scan_id))) in
            st <> "completed" /\ st <> "failed".

(** Whether the filters of [get_entries] let an entry through. *)
Definition entry_matches (workflow_id vulnerability_id : option string)
    (action : option AuditAction) (actor_filter : option string) (since : option Z)
    (e : AuditLogEntry) : Prop :=
  (if str_truthy workflow_id then al_workflow_id e = workflow_id else True)
  /\ (if str_truthy vulnerability_id then al_vulnerability_id e = vulnerability_id else True)
  /\ match action with Some a => audit_action e = a | None => True end
  /\ (if str_truthy actor_filter then Some (actor e) = actor_filter else True)
  /\ match since with Some t => t <= timestamp e | None => True end.

#[global] Instance entry_matches_dec workflow_id vulnerability_id action actor_filter since e :
  Decision (entry_matches workflow_id vulnerability_id action actor_filter since e).
Proof.
  unfold entry_matches.
  destruct (str_truthy workflow_id), (str_truthy vulnerability_id), action,
    (str_truthy actor_filter), since; apply _.
Defined.

(** *** Sample environments *)

(** A scan that completes and finds nothing. *)
Definition scan_clean : ScanResult :=
  {| sr_status := Some "completed"; sr_error := None; sr_results := [] |}.

Definition clean_scan_env : Env :=
  make_env scan_started (scan_script scan_clean) (assessed "P1") remediated no_ops.

(** The scanner refuses to start the scan. *)
Definition scan_refused : TriggerResult :=
  {| t_error := Some "Status 503"; t_scan_id := None |}.

Definition refused_scan_env : Env :=
  make_env scan_refused (scan_script scan_completed) (assessed "P1") remediated no_ops.

(** The scanner keeps saying that the scan is running. *)
Definition stuck_scan_env : Env :=
  make_env scan_started (fun _ => scan_running) (assessed "P1") remediated no_ops.

(** The assessor answers with an error. *)
Definition assessment_refused : AssessResult :=
  {| a_error := Some "Status 500"; a_assessment_id := None; a_assessments := [];
     a_summary := {| summary_P0 := None; summary_P1 := None |} |}.

Definition failed_assessment_env : Env :=
  make_env scan_started (scan_script scan_completed) assessment_refused remediated no_ops.

(** The assessor answers with a list that holds something that is not
    an object. *)
Definition assessment_malformed : AssessResult :=
  {| a_error := None; a_assessment_id := Some "as-1";
     a_assessments := [AssessmentObject (sample_assessment "V1" "P3"); AssessmentOther];
     a_summary := {| summary_P0 := None; summary_P1 := None |} |}.

Definition malformed_assessment_env : Env :=
  make_env scan_started (scan_script scan_completed) assessment_malformed remediated no_ops.

Definition sample_approval_request : CreateApprovalRequest :=
  {| car_workflow_id := "wf-1"; car_title := "Fix V1"; car_description := "";
     car_vulnerability_ids := ["V1"]; car_priority := "P1"; car_risk_summary := "";
     car_recommended_action := ""; car_requested_by := "system";
     car_expires_in_hours := 24 |}.

(** The process in which workflow ["wf-1"] has been scanned and its one
    finding assessed as [P3]: the state in which its unit waits for the
    remediator (the sixth state in which that run can be observed). *)
Definition assessed_world : World :=
  default started_world
    (observed (run (one_finding_env "P3") 0
                 (_execute_workflow default_settings "wf-1" started_world)) !! 5%nat).

(** * Properties *)

(** ** The store: reading back what was written *)

#[local] Arguments get_workflow : simpl never.
#[local] Arguments the_workflow : simpl never.
#[local] Arguments on_workflow : simpl never.
#[local] Arguments update_workflow : simpl never.
#[local] Arguments update_step : simpl never.
#[local] Arguments complete_workflow : simpl never.
#[local] Arguments put : simpl never.

Lemma put_id wid wf w : workflows w !! wid = Some wf -> put wid wf w = w.
Proof. intros H. unfold put, set_workflows. rewrite insert_id by done. by destruct w. Qed.

Lemma put_put wid a b w : put wid b (put wid a w) = put wid b w.
Proof. unfold put, set_workflows; simpl. by rewrite insert_insert_eq. Qed.

Lemma get_workflow_put wid wf w : get_workflow wid (put wid wf w) = Some wf.
Proof. unfold get_workflow, put; simpl. by rewrite lookup_insert_eq. Qed.

Lemma the_workflow_put wid wf w : the_workflow wid (put wid wf w) = wf.
Proof. unfold the_workflow, put; simpl. by rewrite lookup_insert_eq. Qed.

Lemma on_workflow_put wid f wf w : on_workflow wid f (put wid wf w) = put wid (f wf) w.
Proof.
  unfold on_workflow, put, set_workflows; simpl. f_equal.
  by rewrite alter_insert_eq.
Qed.

Lemma utcnow_put wid wf w : utcnow (put wid wf w) = utcnow w.
Proof. done. Qed.

Lemma approvals_store_put wid wf w : approvals_store (put wid wf w) = approvals_store w.
Proof. done. Qed.

Lemma audit_entries_put wid wf w : audit_entries (put wid wf w) = audit_entries w.
Proof. done. Qed.

Lemma update_workflow_put wid wf w :
  update_workflow wid (put wid wf w) = put wid (set_updated_at (utcnow w) wf) w.
Proof. unfold update_workflow. by rewrite on_workflow_put. Qed.

Lemma update_step_put wid sid st out err wf w :
  update_step wid sid st out err (put wid wf w) =
  put wid (set_updated_at (utcnow w)
            (set_steps (update_first sid (update_step_fields st out err (utcnow w))
                                     (steps wf)) wf)) w.
Proof.
  unfold update_step. rewrite get_workflow_put. cbv zeta.
  by rewrite on_workflow_put, update_workflow_put.
Qed.

Lemma complete_workflow_put wid st wf w :
  complete_workflow wid st (put wid wf w) =
  put wid (set_updated_at (utcnow w)
            (set_current_step None
              (set_completed_at (Some (utcnow w)) (set_status st wf)))) w.
Proof.
  unfold complete_workflow. rewrite get_workflow_put. cbv zeta.
  by rewrite !on_workflow_put, update_workflow_put.
Qed.

Lemma start_workflow_put request trig wid w :
  start_workflow request trig wid w =
  put wid (set_current_step (Some "scan") (set_steps initial_steps
            (new_Workflow wid (req_repository request) (req_branch request) trig
               {| md_scan_types := Some (req_scan_types request);
                  md_auto_remediate := Some (req_auto_remediate request);
                  md_notify := Some (req_notify request) |} (utcnow w)))) w.
Proof. reflexivity. Qed.

Create Rewrite HintDb world.
#[local] Hint Rewrite put_put get_workflow_put the_workflow_put on_workflow_put
  utcnow_put approvals_store_put audit_entries_put update_workflow_put
  update_step_put complete_workflow_put : world.

(** Unfolding the monad, and nothing else. *)
Ltac exec :=
  cbv beta iota zeta delta
    [mbind mret Task_bind Task_ret bind ret read modify await raise
     no_return of_result try_except];
  cbn [bind_outcome try_outcome negb].

(** ** Runs compose *)

Lemma Run_eta {A} (r : Run A) :
  {| result := result r; final := final r; calls := calls r; observed := observed r |} = r.
Proof. by destruct r. Qed.

Lemma observed_nonempty {A} env n (o : Outcome A) : observed (run env n o) <> [].
Proof. destruct o; simpl; discriminate. Qed.

Lemma removelast_cons_nonempty {X} (x : X) l : l <> [] -> removelast (x :: l) = x :: removelast l.
Proof. by destruct l. Qed.

Lemma run_bind {A B} env (o : Outcome A) (f : A -> Task B) : forall n,
  run env n (bind_outcome o f) =
  then_run (run env n o)
           (fun a w => run env (n + length (calls (run env n o))) (f a w)).
Proof.
  induction o as [r w | c w k IH]; intros n.
  - destruct r as [a | e |]; simpl; unfold then_run; simpl; try done.
    rewrite Nat.add_0_r. by rewrite Run_eta.
  - simpl. rewrite IH. unfold then_run; simpl.
    set (r1 := run env (S n) (k (respond env n c) (foldl apply_op w (interfere env n)))).
    replace (n + S (length (calls r1)))%nat with (S n + length (calls r1))%nat by lia.
    pose proof (removelast_cons_nonempty w (observed r1) (observed_nonempty _ _ _)) as E.
    destruct (result r1); cbn [result final calls observed app]; try done.
    first [ by rewrite E | simpl in E; by rewrite E ].
Qed.

Lemma run_try {A} env (o : Outcome A) (h : Exn -> Task A) : forall n,
  run env n (try_outcome o h) =
  catch_run (run env n o)
            (fun e w => run env (n + length (calls (run env n o))) (h e w)).
Proof.
  induction o as [r w | c w k IH]; intros n.
  - destruct r as [a | e |]; simpl; unfold catch_run; simpl; try done.
    rewrite Nat.add_0_r. by rewrite Run_eta.
  - simpl. rewrite IH. unfold catch_run; simpl.
    set (r1 := run env (S n) (k (respond env n c) (foldl apply_op w (interfere env n)))).
    replace (n + S (length (calls r1)))%nat with (S n + length (calls r1))%nat by lia.
    pose proof (removelast_cons_nonempty w (observed r1) (observed_nonempty _ _ _)) as E.
    destruct (result r1) eqn:E1; cbn [result final calls observed app];
      rewrite ?E1; try done.
    simpl in E. by rewrite E.
Qed.

(** ** Cancellation *)

Lemma cancel_workflow_stored w wid wf :
  get_workflow wid w = Some wf ->
  let wf' := set_updated_at (utcnow w)
               (set_completed_at (Some (utcnow w)) (set_status CANCELLED wf)) in
  cancel_workflow wid w = (Some wf', put wid wf' w).
Proof.
  intros Hg wf'. rewrite <- (put_id wid wf w Hg) at 1.
  unfold cancel_workflow. rewrite get_workflow_put. cbv zeta.
  by autorewrite with world.
Qed.

(** C10.  [cancel_workflow] never looks at the current status: for every
    stored workflow it writes [CANCELLED] and stamps [completed_at], the
    endpoint answers with that workflow, and the outcome is the same
    whatever the status was before -- [COMPLETED], [FAILED] and
    [CANCELLED] included. *)
Theorem cancel_workflow_overwrites_any_status (w : World) (wid : string) (wf : Workflow) :
  workflows w !! wid = Some wf ->
  exists wf',
    cancel_workflow wid w = (Some wf', put wid wf' w)
    /\ status wf' = CANCELLED
    /\ completed_at wf' = Some (utcnow w)
    /\ (exists resp, api_cancel_workflow wid w = (Ok resp, put wid wf' w)
                     /\ resp_status resp = CANCELLED)
    /\ forall s : WorkflowStatus,
         cancel_workflow wid (put wid (set_status s wf) w) = (Some wf', put wid wf' w).
Proof.
  intros Hwf.
  exists (set_updated_at (utcnow w)
            (set_completed_at (Some (utcnow w)) (set_status CANCELLED wf))).
  assert (Hc : forall wf0, set_status CANCELLED wf0 = set_status CANCELLED wf ->
      cancel_workflow wid (put wid wf0 w) =
      (Some (set_updated_at (utcnow w)
               (set_completed_at (Some (utcnow w)) (set_status CANCELLED wf))),
       put wid (set_updated_at (utcnow w)
               (set_completed_at (Some (utcnow w)) (set_status CANCELLED wf))) w)).
  { intros wf0 E. unfold cancel_workflow. rewrite get_workflow_put. cbv zeta.
    autorewrite with world. by rewrite E. }
  assert (Hw : cancel_workflow wid w = cancel_workflow wid (put wid wf w))
    by (by rewrite put_id).
  repeat split; try done.
  - rewrite Hw. by apply Hc.
  - eexists. split.
    + unfold api_cancel_workflow. rewrite Hw, Hc by done. reflexivity.
    + reflexivity.
  - intros s. by apply Hc.
Qed.

Lemma cancel_workflow_overwrites_any_status_witness :
  workflows completed_world !! "wf-1" = Some completed_workflow
  /\ exists wf',
       cancel_workflow "wf-1" completed_world = (Some wf', put "wf-1" wf' completed_world)
       /\ status wf' = CANCELLED
       /\ completed_at wf' = Some 1000.
Proof.
  split; [reflexivity|].
  destruct (cancel_workflow_overwrites_any_status completed_world "wf-1"
              completed_workflow eq_refl) as (wf' & H1 & H2 & H3 & _).
  exists wf'. repeat split; assumption.
Defined.

(** ** Deciding an approval *)

Lemma decide_approval_missing w aid d eid :
  approvals_store w !! aid = None ->
  decide_approval aid d eid w = (Raised (HTTPException 404 "Approval not found"), w).
Proof. intros H. unfold decide_approval. by rewrite H. Qed.

Lemma decide_approval_not_pending w aid a d eid :
  approvals_store w !! aid = Some a ->
  ar_status a <> APPROVAL_PENDING ->
  decide_approval aid d eid w =
  (Raised (HTTPException 400 ("Approval already " +:+ approval_status_value (ar_status a))), w).
Proof.
  intros H Hs. unfold decide_approval. rewrite H.
  by rewrite bool_decide_eq_false_2.
Qed.

(** A pending approval is resolved: status, resolver, time and comment
    are written, and one audit entry is appended. *)
Lemma decide_approval_pending w aid a d eid :
  approvals_store w !! aid = Some a ->
  ar_status a = APPROVAL_PENDING ->
  exists w' a',
    decide_approval aid d eid w =
      (Ok (if dec_approved d then APPROVED else REJECTED), w')
    /\ approvals_store w' !! aid = Some a'
    /\ ar_status a' = (if dec_approved d then APPROVED else REJECTED)
    /\ resolved_by a' = Some (dec_resolver d)
    /\ resolved_at a' = Some (utcnow w)
    /\ resolution_comment a' = dec_comment d
    /\ length (audit_entries w') = S (length (audit_entries w)).
Proof.
  intros H Hs. unfold decide_approval. rewrite H.
  rewrite bool_decide_eq_true_2 by done. cbn [negb]. cbv zeta.
  do 2 eexists. split; [reflexivity|].
  cbn. rewrite lookup_insert_eq. split; [reflexivity|].
  rewrite length_app. cbn. repeat split; try done. lia.
Qed.

(** A second decision on the same approval is refused and changes
    nothing. *)
Lemma decide_approval_twice w aid a d1 e1 d2 e2 :
  approvals_store w !! aid = Some a ->
  ar_status a = APPROVAL_PENDING ->
  let w1 := (decide_approval aid d1 e1 w).2 in
  exists detail,
    decide_approval aid d2 e2 w1 = (Raised (HTTPException 400 detail), w1).
Proof.
  intros H Hs w1.
  destruct (decide_approval_pending w aid a d1 e1 H Hs)
    as (w' & a' & E & Hl & Hst & _).
  subst w1. rewrite E. cbn [snd]. eexists.
  apply decide_approval_not_pending with (a := a'); [done|].
  rewrite Hst. by destruct (dec_approved d1).
Qed.

(** C6.  [decide_approval] is refused with 404 when the approval is
    missing and with 400, changing nothing, when it is not pending; a
    pending approval gets its terminal status, resolver, time and
    comment, one audit entry is written, and every further decision on
    it is refused with 400, changing nothing.  The expiry is never
    looked at: a pending approval is decided whatever its [expires_at].
    At the failing input, the pending approval whose [expires_at] (100)
    lies before the clock (200) is approved, not refused; the sibling
    read path [get_pending_approvals] does treat the same approval as
    expired, after which the decision is refused. *)
Theorem decide_approval_accepts_elapsed_expiry (w : World) (aid : string)
    (d : ApprovalDecision) (eid : string) :
  (approvals_store w !! aid = None ->
     decide_approval aid d eid w = (Raised (HTTPException 404 "Approval not found"), w))
  /\ (forall a, approvals_store w !! aid = Some a -> ar_status a <> APPROVAL_PENDING ->
        exists detail, decide_approval aid d eid w = (Raised (HTTPException 400 detail), w))
  /\ (forall a, approvals_store w !! aid = Some a -> ar_status a = APPROVAL_PENDING ->
        exists w' a',
          decide_approval aid d eid w =
            (Ok (if dec_approved d then APPROVED else REJECTED), w')
          /\ approvals_store w' !! aid = Some a'
          /\ ar_status a' = (if dec_approved d then APPROVED else REJECTED)
          /\ resolved_by a' = Some (dec_resolver d)
          /\ resolved_at a' = Some (utcnow w)
          /\ resolution_comment a' = dec_comment d
          /\ length (audit_entries w') = S (length (audit_entries w))
          /\ forall d2 e2, exists detail,
               decide_approval aid d2 e2 w' = (Raised (HTTPException 400 detail), w'))
  /\ expiry_passed (utcnow stale_world) stale_approval = true
  /\ (decide_approval "ap-1" approve_by_alice "e-1" stale_world).1 = Ok APPROVED
  /\ ar_status <$>
       (approvals_store (decide_approval "ap-1" approve_by_alice "e-1" stale_world).2
          !! "ap-1") = Some APPROVED
  /\ ar_status <$>
       (approvals_store (get_pending_approvals stale_world).2 !! "ap-1") = Some EXPIRED
  /\ (decide_approval "ap-1" approve_by_alice "e-1"
        (get_pending_approvals stale_world).2).1
     = Raised (HTTPException 400 "Approval already expired").
Proof.
  split; [apply decide_approval_missing|].
  split; [intros a H Hs; eexists; by apply decide_approval_not_pending|].
  split; [|vm_compute; repeat split; reflexivity].
  intros a H Hs.
  destruct (decide_approval_pending w aid a d eid H Hs)
    as (w' & a' & E & Hl & Hst & Hby & Hat & Hc & Hlen).
  exists w', a'. repeat split; try done.
  intros d2 e2.
  destruct (decide_approval_twice w aid a d eid d2 e2 H Hs) as [detail Ht].
  rewrite E in Ht. by exists detail.
Qed.

(** ** Resolving at the workflow level *)

Lemma approve_remediation_missing w wid ids who :
  get_workflow wid w = None ->
  approve_remediation wid ids who w = Finished (Ok None) w.
Proof. intros H. unfold approve_remediation. exec. by rewrite H. Qed.

Lemma approve_remediation_not_awaiting w wid ids who wf :
  get_workflow wid w = Some wf ->
  status wf <> AWAITING_APPROVAL ->
  approve_remediation wid ids who w = Finished (Ok (Some wf)) w.
Proof.
  intros H Hs. unfold approve_remediation. exec. rewrite H.
  by rewrite bool_decide_eq_false_2.
Qed.

(** C2, as stated, fails: approving for a workflow that is not awaiting
    approval (here one that was just started and is [PENDING]) is
    answered with an ordinary response and no error. *)
Lemma approve_not_awaiting_succeeds :
  status (the_workflow "wf-1" started_world) = PENDING
  /\ api_approve_remediation approve_wf1 started_world =
     Finished (Ok {| resp_workflow_id := "wf-1"; resp_status := PENDING;
                     resp_message := "Approved remediations";
                     resp_workflow := Some (the_workflow "wf-1" started_world) |})
              started_world.
Proof. split; reflexivity. Qed.

(** C2, amended.  An approving [POST /approve] is refused with 404 when
    the workflow does not exist; for a workflow that is not awaiting
    approval it is answered normally, with the workflow as it is and
    nothing changed or submitted.  A rejecting [POST /approve] is never
    refused: it answers [COMPLETED] whether or not the workflow exists,
    and an existing workflow is set to [COMPLETED] whatever its status
    was.  [decide_approval] is refused with 404 when the approval does
    not exist and with 400 when it is not pending, and changes nothing
    in either case. *)
Theorem resolve_approval_rejections (w : World) (request : ApprovalBody) :
  let wid := ab_workflow_id request in
  (ab_approved request = true ->
     (get_workflow wid w = None ->
        api_approve_remediation request w =
        Finished (Raised (HTTPException 404 "Workflow not found")) w)
     /\ (forall wf, get_workflow wid w = Some wf ->
           status wf <> AWAITING_APPROVAL ->
           api_approve_remediation request w =
           Finished (Ok {| resp_workflow_id := workflow_id wf; resp_status := status wf;
                           resp_message := "Approved remediations";
                           resp_workflow := Some wf |}) w))
  /\ (ab_approved request = false ->
        exists resp w',
          api_approve_remediation request w = Finished (Ok resp) w'
          /\ resp_status resp = COMPLETED
          /\ resp_message resp = "Remediation rejected"
          /\ (get_workflow wid w = None -> w' = w)
          /\ (is_Some (get_workflow wid w) -> status (the_workflow wid w') = COMPLETED))
  /\ (forall aid d eid, approvals_store w !! aid = None ->
        decide_approval aid d eid w =
        (Raised (HTTPException 404 "Approval not found"), w))
  /\ (forall aid a d eid, approvals_store w !! aid = Some a ->
        ar_status a <> APPROVAL_PENDING ->
        exists detail,
          decide_approval aid d eid w = (Raised (HTTPException 400 detail), w)).
Proof.
  intros wid. split; [|split; [|split]].
  - intros Ha. split.
    + intros H. unfold api_approve_remediation. rewrite Ha. exec.
      fold wid. by rewrite approve_remediation_missing.
    + intros wf H Hs. unfold api_approve_remediation. rewrite Ha. exec.
      fold wid. by rewrite (approve_remediation_not_awaiting _ _ _ _ wf).
  - intros Ha. unfold api_approve_remediation, api_reject. rewrite Ha. cbn [negb].
    fold wid. eexists _, _. split; [reflexivity|]. split; [done|]. split; [done|].
    split.
    + by intros ->.
    + intros [wf Hg]. rewrite Hg. rewrite <- (put_id wid wf w Hg).
      unfold update_workflow. autorewrite with world.
      by rewrite ?the_workflow_put.
  - intros. by apply decide_approval_missing.
  - intros aid a d eid H Hs. eexists. by apply decide_approval_not_pending.
Qed.

Lemma resolve_approval_rejections_witness :
  ab_approved approve_wf1 = true
  /\ get_workflow "wf-1" (empty_world 0) = None
  /\ api_approve_remediation approve_wf1 (empty_world 0) =
     Finished (Raised (HTTPException 404 "Workflow not found")) (empty_world 0).
Proof.
  split; [reflexivity|]. split; [reflexivity|].
  apply (resolve_approval_rejections (empty_world 0) approve_wf1); reflexivity.
Defined.

(** ** The decision policy *)

Lemma decision_logic_policy cfg ac p v l1 l2 :
  decision_logic cfg ac p v (l1, l2) =
  match policy_route cfg ac p with
  | Some AutoRemediate => (l1 ++ [v], l2)
  | Some ApprovalQueue => (l1, l2 ++ [v])
  | None => (l1, l2)
  end.
Proof.
  unfold decision_logic, policy_route.
  destruct (String.eqb_spec p "P0") as [->|N0]; [by destruct (require_approval_p0_p1 cfg)|].
  destruct (String.eqb_spec p "P1") as [->|N1]; [by destruct (require_approval_p0_p1 cfg)|].
  rewrite (bool_decide_eq_false_2 (p = "P0" \/ p = "P1")) by (intros [?|?]; congruence).
  cbn [orb].
  destruct (String.eqb_spec p "P2") as [->|N2]; [by destruct (auto_remediate_p2 cfg)|].
  rewrite (bool_decide_eq_false_2 (p = "P2")) by done.
  destruct (String.eqb_spec p "P3") as [->|N3];
    [by destruct (auto_remediate_p3_p4 cfg), ac|].
  destruct (String.eqb_spec p "P4") as [->|N4];
    [by destruct (auto_remediate_p3_p4 cfg), ac|].
  rewrite (bool_decide_eq_false_2 (p = "P3" \/ p = "P4")) by (intros [?|?]; congruence).
  done.
Qed.

Lemma categorize_from cfg ac (l : list Assessment) : forall acc,
  categorize cfg ac (AssessmentObject <$> l) acc =
  Ok (acc.1 ++ routed_to cfg ac AutoRemediate l,
      acc.2 ++ routed_to cfg ac ApprovalQueue l).
Proof.
  unfold routed_to.
  induction l as [|a l IH]; intros [l1 l2].
  - cbn. by rewrite !app_nil_r.
  - cbn [fmap list_fmap categorize]. rewrite decision_logic_policy.
    rewrite !filter_cons.
    destruct (policy_route cfg ac (priority_of a)) as [[]|] eqn:E;
      rewrite IH; cbn [fst snd];
      repeat case_decide; try congruence; try done;
      cbn [fmap list_fmap]; by rewrite <- ?app_assoc.
Qed.

(** C3, as stated, fails: with the low-priority switch off, a [P3]
    finding ends up in neither list. *)
Lemma low_priority_left_unrouted :
  categorize no_low_priority_settings true
             [AssessmentObject (sample_assessment "V1" "P3")] ([], [])
  = Ok ([], []).
Proof. reflexivity. Qed.

(** C3, amended.  The decision loop sends every assessment to at most
    one route, as the policy table says: the auto-remediation batch is
    exactly the assessments the table routes to auto-remediation, the
    approval list exactly those it routes to approval, both in the order
    of the assessments.  [P0]/[P1] go to approval iff
    [require_approval_p0_p1] and to auto-remediation otherwise; [P2]
    goes to auto-remediation iff [auto_remediate_p2] and to approval
    otherwise; [P3]/[P4] go to auto-remediation iff
    [auto_remediate_p3_p4] and the workflow's flag are both set, and are
    otherwise in neither list, as is every other label. *)
Theorem decision_routes_by_policy (cfg : Settings) (auto_remediate_config : bool)
    (l : list Assessment) :
  categorize cfg auto_remediate_config (AssessmentObject <$> l) ([], []) =
    Ok (routed_to cfg auto_remediate_config AutoRemediate l,
        routed_to cfg auto_remediate_config ApprovalQueue l)
  /\ (forall p, p = "P0" \/ p = "P1" ->
        policy_route cfg auto_remediate_config p =
        Some (if require_approval_p0_p1 cfg then ApprovalQueue else AutoRemediate))
  /\ policy_route cfg auto_remediate_config "P2" =
       Some (if auto_remediate_p2 cfg then AutoRemediate else ApprovalQueue)
  /\ (forall p, p = "P3" \/ p = "P4" ->
        policy_route cfg auto_remediate_config p =
        if auto_remediate_p3_p4 cfg && auto_remediate_config
        then Some AutoRemediate else None)
  /\ (forall p, p <> "P0" -> p <> "P1" -> p <> "P2" -> p <> "P3" -> p <> "P4" ->
        policy_route cfg auto_remediate_config p = None)
  /\ (forall a, a ∈ l ->
        let v := build_vuln a (priority_of a) in
        (v ∈ routed_to cfg auto_remediate_config AutoRemediate l <->
           policy_route cfg auto_remediate_config (priority_of a) = Some AutoRemediate)
        /\ (v ∈ routed_to cfg auto_remediate_config ApprovalQueue l <->
           policy_route cfg auto_remediate_config (priority_of a) = Some ApprovalQueue)).
Proof.
  split; [apply (categorize_from cfg auto_remediate_config l ([], []))|].
  split; [by intros p [-> | ->]|].
  split; [done|].
  split; [by intros p [-> | ->]|].
  split.
  { intros p N0 N1 N2 N3 N4. unfold policy_route.
    rewrite (bool_decide_eq_false_2 (p = "P0" \/ p = "P1")) by (intros [?|?]; congruence).
    rewrite (bool_decide_eq_false_2 (p = "P2")) by done.
    by rewrite (bool_decide_eq_false_2 (p = "P3" \/ p = "P4")) by (intros [?|?]; congruence). }
  intros a Ha v.
  assert (Hin : forall r,
    v ∈ routed_to cfg auto_remediate_config r l <->
    policy_route cfg auto_remediate_config (priority_of a) = Some r).
  { intros r. unfold routed_to. rewrite list_elem_of_fmap. split.
    - intros (a' & Hv & Ha'). apply list_elem_of_filter in Ha' as [Hr _].
      assert (priority_of a' = priority_of a) as <-; [|done].
      subst v. unfold build_vuln in Hv. by injection Hv.
    - intros Hr. exists a. split; [done|]. by apply list_elem_of_filter. }
  split; apply Hin.
Qed.

(** ** Bounds that hold in every environment *)

Lemma calls_at_most_run {A} env p (o : Outcome A) : forall b n,
  calls_at_most p b o -> (count_calls p (calls (run env n o)) <= b)%nat.
Proof.
  unfold count_calls.
  induction o as [r w | c w k IH]; intros b n H; cbn in *; [lia|].
  destruct (p c); cbn.
  - destruct b as [|b]; [done|]. apply le_n_S. apply IH, H.
  - apply IH, H.
Qed.

Lemma calls_at_most_mono {A} p (o : Outcome A) : forall b b',
  (b <= b')%nat -> calls_at_most p b o -> calls_at_most p b' o.
Proof.
  induction o as [r w | c w k IH]; intros b b' Hb H; cbn in *; [done|].
  destruct (p c).
  - destruct b as [|b]; [done|]. destruct b' as [|b']; [lia|].
    intros r w'. apply (IH r w' b); [lia | apply H].
  - intros r w'. apply (IH r w' b); [lia | apply H].
Qed.

Lemma calls_at_most_bind {A B} p (o : Outcome A) (f : A -> Task B) b2 : forall b1,
  calls_at_most p b1 o ->
  (forall a w, calls_at_most p b2 (f a w)) ->
  calls_at_most p (b1 + b2) (bind_outcome o f).
Proof.
  induction o as [r w | c w k IH]; intros b1 H Hf; cbn in *.
  - destruct r; cbn; try done.
    apply calls_at_most_mono with (b := b2); [lia | apply Hf].
  - destruct (p c).
    + destruct b1 as [|b1]; [done|]. cbn. intros r w'. apply IH; [apply H | done].
    + intros r w'. apply IH; [apply H | done].
Qed.

Lemma calls_at_most_try {A} p (o : Outcome A) (h : Exn -> Task A) b2 : forall b1,
  calls_at_most p b1 o ->
  (forall e w, calls_at_most p b2 (h e w)) ->
  calls_at_most p (b1 + b2) (try_outcome o h).
Proof.
  induction o as [r w | c w k IH]; intros b1 H Hh; cbn in *.
  - destruct r; cbn; try done.
    apply calls_at_most_mono with (b := b2); [lia | apply Hh].
  - destruct (p c).
    + destruct b1 as [|b1]; [done|]. cbn. intros r w'. apply IH; [apply H | done].
    + intros r w'. apply IH; [apply H | done].
Qed.

Lemma returns_run {A} env (P : Result A -> Prop) (o : Outcome A) : forall n,
  returns P o -> P (result (run env n o)).
Proof.
  induction o as [r w | c w k IH]; intros n H; cbn in *; [done|]. apply IH, H.
Qed.

Lemma returns_mono {A} (P Q : Result A -> Prop) (o : Outcome A) :
  returns P o -> (forall r, P r -> Q r) -> returns Q o.
Proof.
  intros H HPQ. induction o as [r w | c w k IH]; cbn in *; [by apply HPQ|].
  intros r w'. apply IH, H.
Qed.

Lemma returns_bind {A B} (P : Result A -> Prop) (Q : Result B -> Prop)
    (o : Outcome A) (f : A -> Task B) :
  returns P o ->
  (forall a w, P (Ok a) -> returns Q (f a w)) ->
  (forall e, P (Raised e) -> Q (Raised e)) ->
  (P NoReturn -> Q NoReturn) ->
  returns Q (bind_outcome o f).
Proof.
  intros H Hf He Hn.
  induction o as [r w | c w k IH]; cbn in *.
  - destruct r; cbn; auto.
  - intros r w'. apply IH, H.
Qed.

Lemma returns_try {A} (P Q : Result A -> Prop) (o : Outcome A) (h : Exn -> Task A) :
  returns P o ->
  (forall e w, P (Raised e) -> returns Q (h e w)) ->
  (forall a, P (Ok a) -> Q (Ok a)) ->
  (P NoReturn -> Q NoReturn) ->
  returns Q (try_outcome o h).
Proof.
  intros H Hh Ha Hn.
  induction o as [r w | c w k IH]; cbn in *.
  - destruct r; cbn; auto.
  - intros r w'. apply IH, H.
Qed.

(** ** Polling *)

Lemma ceil_div_step a b : 0 < b -> ceil_div (a - b) b = ceil_div a b - 1.
Proof.
  intros Hb. unfold ceil_div.
  replace (a - b + b - 1) with (a + b - 1 + (-1) * b) by lia.
  rewrite Z.div_add by lia. lia.
Qed.

Lemma ceil_div_nonpos a b : 0 < b -> a <= 0 -> ceil_div a b <= 0.
Proof.
  intros Hb Ha. unfold ceil_div.
  assert ((a + b - 1) / b < 1); [|lia].
  apply Z.div_lt_upper_bound; lia.
Qed.

Lemma ceil_div_pos a b : 0 < b -> 0 < a -> 1 <= ceil_div a b.
Proof.
  intros Hb Ha. unfold ceil_div.
  apply Z.div_le_lower_bound; lia.
Qed.

Lemma ceil_div_le a b : 0 < b -> 0 <= a -> ceil_div a b <= a.
Proof.
  intros Hb Ha. unfold ceil_div.
  assert ((a + b - 1) / b < a + 1); [|lia].
  apply Z.div_lt_upper_bound; nia.
Qed.

(** One more iteration of the loop is possible only when the bound
    allows one more. *)
Lemma poll_budget_step mw pi el :
  0 < pi -> el < mw ->
  Z.to_nat (ceil_div (mw - el) pi) =
  S (Z.to_nat (ceil_div (mw - (el + pi)) pi)).
Proof.
  intros Hpi Hel.
  replace (mw - (el + pi)) with (mw - el - pi) by lia.
  rewrite ceil_div_step by done.
  pose proof (ceil_div_pos (mw - el) pi). lia.
Qed.

Lemma poll_loop_calls kd sid mw pi :
  0 < pi ->
  forall fuel el w,
    calls_at_most (is_kind kd)
      (match kd with
       | GetScanResults | SleepCall => Z.to_nat (ceil_div (mw - el) pi)
       | _ => 0
       end)
      (poll_loop fuel sid mw pi el w).
Proof.
  intros Hpi. induction fuel as [|fuel IH]; intros el w; [done|].
  cbn [poll_loop]. destruct (Z.ltb_spec el mw) as [Hlt|Hge]; [|done].
  rewrite (poll_budget_step mw pi el) by done.
  exec. cbn [calls_at_most].
  destruct kd; cbn [is_kind call_kind bool_decide decide_rel CallKind_eq_dec];
    intros r w'; cbn [bind_outcome];
    (destruct (String.eqb _ "completed"); [done|]);
    (destruct (String.eqb _ "failed"); [done|]);
    cbn [bind_outcome calls_at_most];
    intros u w''; cbn [bind_outcome];
    first [ apply (IH (el + pi) w'')
          | eapply calls_at_most_mono; [|apply (IH (el + pi) w'')]; lia ].
Qed.

Lemma poll_loop_returns sid mw pi :
  0 < pi ->
  forall fuel el w,
    (Z.to_nat (ceil_div (mw - el) pi) < fuel)%nat ->
    returns poll_answer (poll_loop fuel sid mw pi el w).
Proof.
  intros Hpi. induction fuel as [|fuel IH]; intros el w Hf; [lia|].
  cbn [poll_loop]. destruct (Z.ltb_spec el mw) as [Hlt|Hge].
  - rewrite (poll_budget_step mw pi el) in Hf by done.
    exec. cbn [returns]. intros r w'. cbn [bind_outcome].
    destruct (String.eqb_spec (default "unknown" (sr_status r)) "completed") as [E|_].
    { cbn. exists r. split; [done|]. left.
      destruct (sr_status r); cbn in E; by subst. }
    destruct (String.eqb_spec (default "unknown" (sr_status r)) "failed") as [E|_].
    { cbn. exists r. split; [done|]. right; left.
      destruct (sr_status r); cbn in E; by subst. }
    cbn [bind_outcome returns]. intros _ w''. cbn [bind_outcome].
    apply IH. lia.
  - cbn. exists polling_timeout. split; [done|]. by right; right.
Qed.

Lemma poll_fuel_enough mw pi :
  0 < pi -> (Z.to_nat (ceil_div (mw - 0) pi) < poll_fuel mw)%nat.
Proof.
  intros Hpi. unfold poll_fuel. rewrite Z.sub_0_r.
  destruct (Z.le_gt_cases 0 mw).
  - pose proof (ceil_div_le mw pi). lia.
  - pose proof (ceil_div_nonpos mw pi). lia.
Qed.

(** ** How many calls an execution unit makes *)

Lemma is_kind_true kd c : call_kind c = kd -> is_kind kd c = true.
Proof. intros. by apply bool_decide_eq_true_2. Qed.

Lemma is_kind_false kd c : call_kind c <> kd -> is_kind kd c = false.
Proof. intros. by apply bool_decide_eq_false_2. Qed.

(** Walks through straight-line code: unfolds binds, splits on the
    tests of the code, and introduces the answers of the calls. *)
Ltac walk :=
  repeat first
    [ progress cbn [bind_outcome try_outcome calls_at_most returns]
    | progress (rewrite ?is_kind_true by done; rewrite ?is_kind_false by done)
    | match goal with
      | |- True => exact I
      | |- forall _, _ => intro
      | |- context [match ?x with Some _ => _ | None => _ end] => destruct x eqn:?
      | |- context [match ?x with [] => _ | _ :: _ => _ end] => destruct x eqn:?
      | |- context [match ?x with Ok _ => _ | Raised _ => _ | NoReturn => _ end] =>
          destruct x eqn:?
      | |- context [if ?x then _ else _] => destruct x eqn:?
      end ].

Lemma poll_bind_calls {B} kd scan_id mw w (k : ScanResult -> Task B) :
  (forall a w', calls_at_most (is_kind kd) 0 (k a w')) ->
  calls_at_most (is_kind kd)
    (match kd with
     | GetScanResults | SleepCall => Z.to_nat (ceil_div mw 5)
     | _ => 0
     end)
    (bind_outcome (poll_scan_completion scan_id mw 5 w) k).
Proof.
  intros Hk.
  pose proof (poll_loop_calls kd scan_id mw 5 eq_refl (poll_fuel mw) 0 w) as H.
  rewrite Z.sub_0_r in H.
  eapply calls_at_most_mono; [|apply calls_at_most_bind; [apply H | apply Hk]].
  lia.
Qed.

Lemma _execute_scan_calls kd cfg wid w :
  calls_at_most (is_kind kd)
    (match kd with
     | TriggerScan => 1
     | GetScanResults | SleepCall =>
         Z.to_nat (ceil_div (workflow_timeout_seconds cfg) 5)
     | _ => 0
     end)
    (_execute_scan cfg wid w).
Proof.
  unfold _execute_scan. exec.
  destruct kd; walk;
    try (apply (poll_bind_calls TriggerScan));
    try (apply (poll_bind_calls GetScanResults));
    try (apply (poll_bind_calls SleepCall));
    try (apply (poll_bind_calls AssessCall));
    try (apply (poll_bind_calls RemediateBatch));
    walk.
Qed.

Lemma _execute_assessment_calls kd wid w :
  calls_at_most (is_kind kd)
    (match kd with AssessCall => 1 | _ => 0 end)
    (_execute_assessment wid w).
Proof. unfold _execute_assessment. exec. destruct kd; walk. Qed.

Lemma _execute_remediation_decisions_calls kd cfg wid w :
  calls_at_most (is_kind kd)
    (match kd with RemediateBatch => 1 | _ => 0 end)
    (_execute_remediation_decisions cfg wid w).
Proof.
  unfold _execute_remediation_decisions, _send_notification. exec.
  destruct kd; walk.
Qed.

Lemma _complete_workflow_calls kd wid w :
  calls_at_most (is_kind kd) 0 (_complete_workflow wid w).
Proof. unfold _complete_workflow. exec. walk. Qed.

Lemma after_scan_calls kd cfg wid w :
  calls_at_most (is_kind kd)
    (match kd with AssessCall | RemediateBatch => 1 | _ => 0 end)
    (after_scan cfg wid w).
Proof.
  unfold after_scan. exec. walk.
  eapply calls_at_most_mono;
    [|apply calls_at_most_bind; [apply _execute_assessment_calls|]].
  2: { intros [] w1. walk.
       apply calls_at_most_bind; [apply _execute_remediation_decisions_calls|].
       intros [] w2. apply _complete_workflow_calls. }
  destruct kd; cbn; lia.
Qed.

Lemma _execute_workflow_calls kd cfg wid w :
  calls_at_most (is_kind kd) (unit_budget cfg kd) (_execute_workflow cfg wid w).
Proof.
  unfold _execute_workflow. exec.
  eapply calls_at_most_mono; [|apply calls_at_most_try with (b2 := 0%nat)].
  2: { apply calls_at_most_bind; [apply _execute_scan_calls|].
       intros [] w1. apply after_scan_calls. }
  2: { intros e w1. walk. }
  destruct kd; cbn; lia.
Qed.

(** ** Execution units end *)

Lemma poll_scan_completion_returns scan_id mw pi w :
  0 < pi -> returns poll_answer (poll_scan_completion scan_id mw pi w).
Proof. intros. apply poll_loop_returns; [done|]. by apply poll_fuel_enough. Qed.

Lemma _execute_scan_returns cfg wid w :
  returns (fun r => r = Ok tt) (_execute_scan cfg wid w).
Proof.
  unfold _execute_scan. exec. walk; try done.
  eapply returns_bind; [by apply poll_scan_completion_returns| | |].
  - intros a w1 _. walk; done.
  - by intros e (res & ? & _).
  - by intros (res & ? & _).
Qed.

Lemma _execute_assessment_returns wid w :
  returns (fun r => r = Ok tt) (_execute_assessment wid w).
Proof. unfold _execute_assessment. exec. walk; done. Qed.

Lemma categorize_returns cfg ac l : forall acc, categorize cfg ac l acc <> NoReturn.
Proof. induction l as [|[a|] l IH]; intros acc; cbn; [done| apply IH | done]. Qed.

Lemma _execute_remediation_decisions_returns cfg wid w :
  returns (fun r => r <> NoReturn) (_execute_remediation_decisions cfg wid w).
Proof.
  pose proof (categorize_returns cfg) as Hc.
  unfold _execute_remediation_decisions, _send_notification. exec.
  walk; try done.
  all: match goal with H : categorize _ _ _ _ = NoReturn |- _ => by apply Hc in H end.
Qed.

Lemma _complete_workflow_returns wid w :
  returns (fun r => r = Ok tt) (_complete_workflow wid w).
Proof. unfold _complete_workflow. exec. walk; done. Qed.

Lemma after_scan_returns cfg wid w :
  returns (fun r => r <> NoReturn) (after_scan cfg wid w).
Proof.
  unfold after_scan. exec. walk; [done|].
  eapply returns_bind; [apply _execute_assessment_returns| | |]; try done.
  intros [] w1 _. walk; [done|].
  eapply returns_bind; [apply _execute_remediation_decisions_returns| | |]; try done.
  intros [] w2 _.
  eapply returns_mono; [apply _complete_workflow_returns|]. by intros r ->.
Qed.

(** The execution unit always ends, and it ends without an exception:
    whatever is raised inside is caught by its handler. *)
Lemma _execute_workflow_returns cfg wid w :
  returns (fun r => r = Ok tt) (_execute_workflow cfg wid w).
Proof.
  unfold _execute_workflow. exec.
  eapply returns_try with (P := fun r => r <> NoReturn).
  - eapply returns_bind; [apply _execute_scan_returns| | |]; try done.
    intros [] w1 _. apply after_scan_returns.
  - intros e w1 _. walk. done.
  - by intros [].
  - done.
Qed.

Lemma poll_result_from_scanner env sid mw pi : forall fuel el n w res,
  result (run env n (poll_loop fuel sid mw pi el w)) = Ok res ->
  res = polling_timeout
  \/ exists m, res = respond env m (get_scan_results sid)
       /\ (sr_status res = Some "completed" \/ sr_status res = Some "failed").
Proof.
  induction fuel as [|fuel IH]; intros el n w res; [done|].
  cbn [poll_loop]. destruct (el <? mw); [|cbn; intros [= <-]; by left].
  exec. cbn [run result bind_outcome].
  set (r := respond env n (get_scan_results sid)).
  destruct (String.eqb_spec (default "unknown" (sr_status r)) "completed") as [E|_].
  { cbn. intros [= <-]. right. exists n. split; [done|]. left.
    destruct (sr_status r); cbn in E; by subst. }
  destruct (String.eqb_spec (default "unknown" (sr_status r)) "failed") as [E|_].
  { cbn. intros [= <-]. right. exists n. split; [done|]. right.
    destruct (sr_status r); cbn in E; by subst. }
  cbn [run result bind_outcome]. apply IH.
Qed.

(** C9.  For every positive poll interval, in every environment,
    [poll_scan_completion] ends after at most ⌈max_wait / interval⌉
    polls (and as many sleeps), and what it returns is the timeout
    dictionary or an answer of the scanner that says [completed] or
    [failed].  With the defaults (600 s, 5 s) that is at most 120 polls.
    In a whole execution unit these sleeps are the only waiting: the
    unit always ends, and besides the polls and their sleeps it calls
    each of the other three client methods (starting the scan, the
    assessment, the remediation batch), which are single requests with
    their own timeout, at most once. *)
Theorem poll_scan_completion_bounded (env : Env) (n : nat) (scan_id : option string)
    (max_wait poll_interval : Z) (w : World) :
  0 < poll_interval ->
  let r := run env n (poll_scan_completion scan_id max_wait poll_interval w) in
  (count_calls (is_kind GetScanResults) (calls r)
     <= Z.to_nat (ceil_div max_wait poll_interval))%nat
  /\ (count_calls (is_kind SleepCall) (calls r)
     <= Z.to_nat (ceil_div max_wait poll_interval))%nat
  /\ (exists res, result r = Ok res
        /\ (res = polling_timeout
            \/ exists m, res = respond env m (get_scan_results scan_id)
                 /\ (sr_status res = Some "completed"
                     \/ sr_status res = Some "failed")))
  /\ Z.to_nat (ceil_div 600 5) = 120%nat
  /\ forall cfg wid (env' : Env) (n' : nat) (w' : World),
       let u := run env' n' (_execute_workflow cfg wid w') in
       result u = Ok tt
       /\ forall kd, (count_calls (is_kind kd) (calls u) <= unit_budget cfg kd)%nat.
Proof.
  intros Hpi r.
  pose proof (poll_loop_calls GetScanResults scan_id max_wait poll_interval Hpi
                (poll_fuel max_wait) 0 w) as Hg.
  pose proof (poll_loop_calls SleepCall scan_id max_wait poll_interval Hpi
                (poll_fuel max_wait) 0 w) as Hs.
  rewrite Z.sub_0_r in Hg, Hs.
  split; [by apply calls_at_most_run|].
  split; [by apply calls_at_most_run|].
  split.
  { pose proof (returns_run env poll_answer _ n
                  (poll_scan_completion_returns scan_id max_wait poll_interval w Hpi))
      as (res & Hres & _).
    exists res. split; [done|]. by eapply poll_result_from_scanner. }
  split; [reflexivity|].
  intros cfg wid env' n' w' u. split.
  - apply (returns_run env' (fun r => r = Ok tt)), _execute_workflow_returns.
  - intros kd. apply calls_at_most_run, _execute_workflow_calls.
Qed.

Lemma poll_scan_completion_bounded_witness :
  0 < 5
  /\ (count_calls (is_kind GetScanResults)
        (calls (run failed_scan_env 1
                  (poll_scan_completion (Some "scan-1") 600 5 started_world)))
      <= Z.to_nat (ceil_div 600 5))%nat.
Proof.
  split; [reflexivity|].
  apply (poll_scan_completion_bounded failed_scan_env 1 (Some "scan-1") 600 5
           started_world).
  reflexivity.
Defined.

(** ** Rely and guarantee for resumptions *)

Section rely_guarantee.
Context (env : Env) (n0 : nat) (rely R : World -> World -> Prop).
Context (R_trans : forall a b c, R a b -> R b c -> R a c).

Lemma evolves_from {A} (Q : list Call -> Result A -> World -> Prop)
    tr prev prev' (o : Outcome A) :
  R prev prev' ->
  evolves env n0 rely R Q tr prev' o ->
  evolves env n0 rely R Q tr prev o.
Proof. destruct o; cbn; intros H [H1 H2]; split; eauto. Qed.

Lemma evolves_mono {A} (Q Q' : list Call -> Result A -> World -> Prop)
    (o : Outcome A) : forall tr prev,
  evolves env n0 rely R Q tr prev o ->
  (forall tr' r w, Q tr' r w -> Q' tr' r w) ->
  evolves env n0 rely R Q' tr prev o.
Proof.
  induction o as [r w | c w k IH]; intros tr prev [H1 H2] HQ; cbn; split; auto.
Qed.

Lemma evolves_bind {A B} (Q : list Call -> Result A -> World -> Prop)
    (Q' : list Call -> Result B -> World -> Prop)
    (o : Outcome A) (f : A -> Task B) : forall tr prev,
  evolves env n0 rely R Q tr prev o ->
  (forall tr' a w, Q tr' (Ok a) w -> evolves env n0 rely R Q' tr' w (f a w)) ->
  (forall tr' e w, Q tr' (Raised e) w -> Q' tr' (Raised e) w) ->
  (forall tr' w, Q tr' NoReturn w -> Q' tr' NoReturn w) ->
  evolves env n0 rely R Q' tr prev (bind_outcome o f).
Proof.
  induction o as [r w | c w k IH]; intros tr prev [H1 H2] Hf He Hn.
  - destruct r as [a | e |]; cbn.
    + eapply evolves_from; eauto.
    + split; auto.
    + split; auto.
  - cbn. split; [done|]. intros w' Hw'. apply IH; auto.
Qed.

Lemma evolves_try {A} (Q Q' : list Call -> Result A -> World -> Prop)
    (o : Outcome A) (h : Exn -> Task A) : forall tr prev,
  evolves env n0 rely R Q tr prev o ->
  (forall tr' e w, Q tr' (Raised e) w -> evolves env n0 rely R Q' tr' w (h e w)) ->
  (forall tr' a w, Q tr' (Ok a) w -> Q' tr' (Ok a) w) ->
  (forall tr' w, Q tr' NoReturn w -> Q' tr' NoReturn w) ->
  evolves env n0 rely R Q' tr prev (try_outcome o h).
Proof.
  induction o as [r w | c w k IH]; intros tr prev [H1 H2] Hh Ha Hn.
  - destruct r as [a | e |]; cbn.
    + split; auto.
    + eapply evolves_from; eauto.
    + split; auto.
  - cbn. split; [done|]. intros w' Hw'. apply IH; auto.
Qed.

(** What [evolves] says about a run in an environment that obeys
    [rely]. *)
Lemma evolves_run {A} (Q : list Call -> Result A -> World -> Prop)
    (o : Outcome A) : forall tr prev,
  obeys rely env ->
  evolves env n0 rely R Q tr prev o ->
  let r := run env (n0 + length tr) o in
  Q (tr ++ calls r) (result r) (final r)
  /\ guided rely R prev (observed r).
Proof.
  induction o as [r w | c w k IH]; intros tr prev Henv [H1 H2]; cbn.
  - rewrite app_nil_r. done.
  - specialize (H2 _ (Henv (n0 + length tr)%nat w)).
    specialize (IH _ _ _ _ Henv H2).
    rewrite length_app in IH. cbn [length] in IH.
    replace (n0 + (length tr + 1))%nat with (S (n0 + length tr)) in IH by lia.
    destruct IH as [IH1 IH2]. rewrite <- app_assoc in IH1. split; [done|].
    split; [done|].
    destruct (observed _) eqn:E; [by apply observed_nonempty in E|].
    eexists. split; [apply Henv | done].
Qed.
End rely_guarantee.

(** ** What other requests can do to a workflow *)

Lemma get_workflow_on_workflow wid wid' f w :
  get_workflow wid (on_workflow wid' f w) =
  if decide (wid' = wid) then f <$> get_workflow wid w else get_workflow wid w.
Proof.
  unfold get_workflow, on_workflow; cbn.
  case_decide as E; [subst; by rewrite lookup_alter_eq | by rewrite lookup_alter_ne].
Qed.

Lemma on_workflow_get wid f w wf :
  get_workflow wid w = Some wf -> on_workflow wid f w = put wid (f wf) w.
Proof. intros H. by rewrite <- (put_id wid wf w H) at 1; rewrite on_workflow_put. Qed.

Lemma the_workflow_get wid w wf :
  get_workflow wid w = Some wf -> the_workflow wid w = wf.
Proof. unfold the_workflow, get_workflow. by intros ->. Qed.

Lemma update_workflow_get wid w wf :
  get_workflow wid w = Some wf ->
  update_workflow wid w = put wid (set_updated_at (utcnow w) wf) w.
Proof. intros H. unfold update_workflow. by apply on_workflow_get. Qed.

Lemma update_step_get wid sid st out err w wf :
  get_workflow wid w = Some wf ->
  update_step wid sid st out err w =
  put wid (set_updated_at (utcnow w) (set_steps (mark sid st out err (utcnow w) (steps wf)) wf)) w.
Proof.
  intros H. rewrite <- (put_id wid wf w H) at 1. by rewrite update_step_put.
Qed.

Lemma complete_workflow_get wid st w wf :
  get_workflow wid w = Some wf ->
  complete_workflow wid st w =
  put wid (set_updated_at (utcnow w)
            (set_current_step None
              (set_completed_at (Some (utcnow w)) (set_status st wf)))) w.
Proof.
  intros H. rewrite <- (put_id wid wf w H) at 1. by rewrite complete_workflow_put.
Qed.

Lemma rely_api_refl wid w : rely_api wid w w.
Proof. intros wf H. exists wf. repeat split; auto. Qed.

Lemma rely_api_trans wid w1 w2 w3 :
  rely_api wid w1 w2 -> rely_api wid w2 w3 -> rely_api wid w1 w3.
Proof.
  intros H1 H2 wf Hwf.
  destruct (H1 wf Hwf) as (wf' & Hwf' & Hs & Hm & Hr & Hb & Hst).
  destruct (H2 wf' Hwf') as (wf'' & Hwf'' & Hs' & Hm' & Hr' & Hb' & Hst').
  exists wf''. repeat split; try congruence.
  destruct Hst' as [E|[E|E]]; rewrite E; auto.
Qed.

(** A request that rewrites the status of a stored workflow to
    [CANCELLED] or [COMPLETED] and touches neither its steps nor its
    metadata, repository or branch. *)
Lemma rely_api_overwrite wid wid' (f : Workflow -> Workflow) w :
  (forall wf, steps (f wf) = steps wf /\ metadata (f wf) = metadata wf
              /\ repository (f wf) = repository wf /\ branch (f wf) = branch wf
              /\ (status (f wf) = status wf \/ status (f wf) = CANCELLED
                  \/ status (f wf) = COMPLETED)) ->
  rely_api wid w (on_workflow wid' f w).
Proof.
  intros Hf wf Hwf. rewrite get_workflow_on_workflow, Hwf.
  case_decide; [|exists wf; repeat split; auto].
  exists (f wf). destruct (Hf wf) as (? & ? & ? & ? & ?). repeat split; auto.
Qed.

Lemma rely_api_same_workflows wid w w' :
  workflows w' = workflows w -> rely_api wid w w'.
Proof.
  intros E wf Hwf. exists wf. unfold get_workflow in *. rewrite E.
  repeat split; auto.
Qed.

Lemma apply_op_rely wid w op : rely_api wid w (apply_op w op).
Proof.
  destruct op as [wid' | request | request aid eid | aid decision eid | | d]; cbn.
  - unfold api_cancel_workflow, cancel_workflow.
    destruct (get_workflow wid' w) eqn:E; [|apply rely_api_refl].
    match goal with |- context [get_workflow wid' ?x] =>
      destruct (get_workflow wid' x) end; cbn [snd];
    (eapply rely_api_trans; [eapply rely_api_trans|]);
      apply rely_api_overwrite; intros wf; cbn; auto 10.
  - unfold api_reject. cbn [snd].
    destruct (get_workflow (ab_workflow_id request) w) eqn:E; [|apply rely_api_refl].
    (eapply rely_api_trans; [eapply rely_api_trans|]);
      apply rely_api_overwrite; intros wf; cbn; auto 10.
  - unfold create_approval. destruct (expiry_after _ _); [|apply rely_api_refl].
    by apply rely_api_same_workflows.
  - unfold decide_approval. destruct (approvals_store w !! aid); [|apply rely_api_refl].
    destruct (negb _); [apply rely_api_refl|]. by apply rely_api_same_workflows.
  - by apply rely_api_same_workflows.
  - by apply rely_api_same_workflows.
Qed.

(** Every environment obeys [rely_api]: whatever requests are served
    meanwhile, the steps of the workflow are not theirs to change. *)
Lemma obeys_rely_api wid env : obeys (rely_api wid) env.
Proof.
  intros n w. generalize (interfere env n). intros ops. revert w.
  induction ops as [|op ops IH]; intros w; cbn; [apply rely_api_refl|].
  eapply rely_api_trans; [apply apply_op_rely | apply IH].
Qed.

(** ** The stages of the execution unit, one by one *)

Lemma advances_refl v : advances v v.
Proof. split; [done|]. induction v; constructor; [by intros ?|done]. Qed.

Lemma advances_trans v1 v2 v3 : advances v1 v2 -> advances v2 v3 -> advances v1 v3.
Proof.
  intros [H1 F1] [H2 F2]. split; [auto|]. clear H1 H2.
  revert v3 F2. induction F1 as [|a b l1 l2 Hab F1 IH]; intros v3 F2.
  - by inversion F2.
  - inversion F2 as [|b' c l2' l3 Hbc F2' E1 E2]; subst. constructor; [|by apply IH].
    intros Ha. specialize (Hab Ha). subst b. by apply Hbc.
Qed.

Lemma unit_step_trans wid a b c : unit_step wid a b -> unit_step wid b c -> unit_step wid a c.
Proof.
  intros (wf1 & wf2 & Hg & -> & Hm & Hr & Hb & Hi & Ha)
         (wf2' & wf3 & Hg' & -> & Hm' & Hr' & Hb' & Hi' & Ha').
  rewrite get_workflow_put in Hg'. injection Hg' as <-.
  exists wf1, wf3. rewrite put_put. repeat split; try congruence.
  all: by eapply advances_trans.
Qed.

Lemma unit_step_put wid w wf wf' :
  get_workflow wid w = Some wf ->
  metadata wf' = metadata wf -> repository wf' = repository wf ->
  branch wf' = branch wf ->
  step_id <$> steps wf' = step_id <$> steps wf ->
  advances (step_status <$> steps wf) (step_status <$> steps wf') ->
  unit_step wid w (put wid wf' w).
Proof. intros. exists wf, wf'. done. Qed.

Lemma unit_step_refl wid w wf : get_workflow wid w = Some wf -> unit_step wid w w.
Proof.
  intros H. exists wf, wf. rewrite put_id by done.
  repeat split; try done; apply advances_refl.
Qed.

Lemma wf_at_rely wid md repo br L w w' :
  wf_at wid md repo br L is_calm w -> rely_api wid w w' ->
  wf_at wid md repo br L is_calm w'.
Proof.
  intros (wf & Hg & Hm & Hr & Hb & Hs & Hc) Hrely.
  destruct (Hrely wf Hg) as (wf' & Hg' & Hs' & Hm' & Hr' & Hb' & Hst).
  exists wf'. unfold is_calm, calm in *. repeat split; try congruence;
    destruct Hc, Hst as [->|[->| ->]]; done.
Qed.

Lemma poll_run_any_world env sid mw pi : forall fuel el m w1 w2,
  result (run env m (poll_loop fuel sid mw pi el w1)) =
  result (run env m (poll_loop fuel sid mw pi el w2))
  /\ calls (run env m (poll_loop fuel sid mw pi el w1)) =
     calls (run env m (poll_loop fuel sid mw pi el w2)).
Proof.
  induction fuel as [|fuel IH]; intros el m w1 w2; [done|].
  cbn [poll_loop]. destruct (el <? mw); [|done].
  exec. cbn [run result calls bind_outcome].
  destruct (String.eqb _ "completed"); [done|].
  destruct (String.eqb _ "failed"); [done|].
  cbn [run result calls bind_outcome].
  edestruct IH as [E1 E2]. rewrite E1, E2. done.
Qed.

Section stages.
Context (cfg : Settings) (env : Env) (n0 : nat) (wid : string).
Context (md : Metadata) (repo br : string).

#[local] Abbreviation evolves_unit := (evolves env n0 (rely_api wid) (unit_step wid)).
#[local] Abbreviation at_steps L := (wf_at wid md repo br L is_calm).

Lemma poll_loop_evolves L sid mw pi : forall fuel el tr prev w,
  unit_step wid prev w ->
  at_steps L w ->
  evolves_unit
    (fun tr' r w' =>
       r = result (run env (n0 + length tr) (poll_loop fuel sid mw pi el (empty_world 0)))
       /\ tr' = tr ++ calls (run env (n0 + length tr)
                              (poll_loop fuel sid mw pi el (empty_world 0)))
       /\ at_steps L w')
    tr prev (poll_loop fuel sid mw pi el w).
Proof.
  induction fuel as [|fuel IH]; intros el tr prev w HR HI.
  { cbn. rewrite app_nil_r. done. }
  cbn [poll_loop]. destruct (el <? mw); [|cbn; by rewrite app_nil_r].
  exec. cbn [evolves run result calls bind_outcome]. split; [done|].
  intros w' Hw'. pose proof (wf_at_rely _ _ _ _ _ _ _ HI Hw') as HI'.
  assert (HR' : unit_step wid w' w').
  { destruct HI' as (wf' & ? & _). by eapply unit_step_refl. }
  destruct (String.eqb _ "completed"); [by cbn|].
  destruct (String.eqb _ "failed"); [by cbn|].
  cbn [evolves run result calls bind_outcome]. split; [done|].
  intros w'' Hw''. pose proof (wf_at_rely _ _ _ _ _ _ _ HI' Hw'') as HI''.
  assert (HR'' : unit_step wid w'' w'').
  { destruct HI'' as (wf'' & ? & _). by eapply unit_step_refl. }
  eapply evolves_mono; [apply (IH (el + pi) _ w'' w'' HR'' HI'')|].
  intros tr' r w3 (-> & -> & HI3).
  rewrite !length_app. cbn [length].
  replace (n0 + (length tr + 1 + 1))%nat with (S (S (n0 + length tr))) by lia.
  match goal with
  |- context [run env (S (S _)) (poll_loop fuel sid mw pi (el + pi) (foldl ?f ?a ?b))] =>
  destruct (poll_run_any_world env sid mw pi fuel (el + pi)
              (S (S (n0 + length tr))) (empty_world 0) (foldl f a b)) as [E1 E2]
end.
rewrite E1, E2. rewrite <- !app_assoc. done.
Qed.
End stages.

(** Rewrites the operations on the store of workflow [wid] into the
    state they produce, given what is stored under [wid]. *)
Ltac norm_world :=
  repeat first
    [ match goal with
      | H : get_workflow ?wid ?w = Some ?wf |- context [on_workflow ?wid ?f ?w] =>
          rewrite (on_workflow_get wid f w wf H)
      | H : get_workflow ?wid ?w = Some ?wf
        |- context [update_step ?wid ?sid ?st ?out ?err ?w] =>
          rewrite (update_step_get wid sid st out err w wf H)
      | H : get_workflow ?wid ?w = Some ?wf |- context [update_workflow ?wid ?w] =>
          rewrite (update_workflow_get wid w wf H)
      | H : get_workflow ?wid ?w = Some ?wf |- context [complete_workflow ?wid ?st ?w] =>
          rewrite (complete_workflow_get wid st w wf H)
      | H : get_workflow ?wid ?w = Some ?wf |- context [the_workflow ?wid ?w] =>
          rewrite (the_workflow_get wid w wf H)
      end
    | progress autorewrite with world ].

(** Reads fields through the attribute assignments. *)
Ltac wsimpl :=
  cbn [workflow_id repository branch status current_step steps wf_scan_id
       wf_assessment_id remediation_ids total_vulnerabilities critical_count
       high_count wf_auto_remediated wf_awaiting_approval created_at updated_at
       completed_at triggered_by metadata
       set_status set_current_step set_steps set_scan_id set_assessment_id
       set_remediation_ids set_total_vulnerabilities set_counts
       set_auto_remediated set_awaiting_approval set_updated_at set_completed_at].

Ltac solve_advances :=
  vm_compute;
  split; [ intros; first [reflexivity | discriminate]
         | repeat (apply List.Forall2_cons; [intros [?|?]; congruence|]);
           apply List.Forall2_nil ].

Ltac rewrite_steps :=
  repeat match goal with H : steps _ = _ |- _ => rewrite H end.

(** The goal [unit_step wid w (put wid wf' w)]. *)
Ltac solve_unit_step :=
  eapply unit_step_put;
    [ eassumption
    | wsimpl; congruence
    | wsimpl; congruence
    | wsimpl; congruence
    | wsimpl; rewrite_steps; reflexivity
    | wsimpl; rewrite_steps; solve_advances ].

(** The goal [wf_at ... (put wid wf' w)]. *)
Ltac solve_wf_at :=
  eexists; split; [apply get_workflow_put|];
  unfold is_calm, calm, has_status in *; wsimpl;
  repeat split; try congruence; try done; try tauto;
  try (rewrite_steps; reflexivity).

Section scan_stage.
Context (cfg : Settings) (env : Env) (n0 : nat) (wid : string).
Context (md : Metadata) (repo br : string).

#[local] Abbreviation evolves_unit := (evolves env n0 (rely_api wid) (unit_step wid)).

Lemma poll_run_ok m sid mw :
  exists res, result (poll_run env m sid mw 5) = Ok res.
Proof.
  destruct (returns_run env poll_answer _ m
              (poll_scan_completion_returns sid mw 5 (empty_world 0) eq_refl))
    as (res & H & _).
  by exists res.
Qed.

Lemma _execute_scan_evolves tr w P :
  wf_at wid md repo br initial_steps P w ->
  evolves_unit (scan_post cfg env n0 wid md repo br tr) tr w (_execute_scan cfg wid w).
Proof.
  intros (wf & Hg & Hm & Hr & Hb & Hs & _).
  unfold _execute_scan. exec. norm_world. wsimpl. rewrite Hm, Hr, Hb, Hs.
  cbn [evolves]. split; [solve_unit_step|].
  intros w' Hw'.
  eapply wf_at_rely in Hw' as (wf' & Hg' & Hm' & Hr' & Hb' & Hs' & Hc');
    [|solve_wf_at].
  unfold scan_post. fold (the_trigger md repo br).
  set (trig := respond env (n0 + length tr) (the_trigger md repo br)).
  destruct (t_error trig) as [e|] eqn:E.
  - norm_world. wsimpl. cbn [evolves]. split; [solve_unit_step|].
    split; [done|]. split; [done|].
    exists (utcnow w), (utcnow w'). solve_wf_at.
  - norm_world. wsimpl.
    unfold poll_scan_completion.
    eapply evolves_bind; [apply unit_step_trans| | | |].
    + apply (poll_loop_evolves env n0 wid md repo br (steps_scanning (utcnow w)));
        [solve_unit_step | solve_wf_at].
    + intros tr' a w3 (Ha & -> & (wf3 & Hg3 & Hm3 & Hr3 & Hb3 & Hs3 & Hc3)).
      rewrite length_app in Ha |- *. cbn [length] in Ha |- *.
      replace (n0 + (length tr + 1))%nat with (S (n0 + length tr)) in Ha |- * by lia.
      fold (poll_scan_completion (t_scan_id trig) (workflow_timeout_seconds cfg) 5
              (empty_world 0)) in Ha |- *.
      fold (poll_run env (S (n0 + length tr)) (t_scan_id trig)
              (workflow_timeout_seconds cfg) 5) in Ha |- *.
      rewrite <- app_assoc. cbn [app].
      destruct (decide (sr_status a = Some "completed")) as [Hst|Hst] eqn:Ed;
        cbn [bind_outcome]; norm_world; wsimpl; cbn [evolves];
        (split; [solve_unit_step|]); (split; [done|]); (split; [done|]);
        exists a, (utcnow w), (utcnow w3); (split; [done|]); rewrite Ed;
        solve_wf_at.
    + intros tr' e w3 (Ha & _). exfalso.
      rewrite length_app in Ha. cbn [length] in Ha.
      destruct (poll_run_ok (n0 + (length tr + 1)) (t_scan_id trig)
                  (workflow_timeout_seconds cfg)) as (res & Hres).
      unfold poll_run, poll_scan_completion in Hres. congruence.
    + intros tr' w3 (Ha & _). exfalso.
      rewrite length_app in Ha. cbn [length] in Ha.
      destruct (poll_run_ok (n0 + (length tr + 1)) (t_scan_id trig)
                  (workflow_timeout_seconds cfg)) as (res & Hres).
      unfold poll_run, poll_scan_completion in Hres. congruence.
Qed.
End scan_stage.

Section assess_stage.
Context (cfg : Settings) (env : Env) (n0 : nat) (wid : string).
Context (md : Metadata) (repo br : string).

#[local] Abbreviation evolves_unit := (evolves env n0 (rely_api wid) (unit_step wid)).

Lemma _execute_assessment_evolves tr w t1 t2 sid k vs P :
  wf_at wid md repo br (steps_scanned t1 t2 (OutScan sid k vs)) P w ->
  evolves_unit
    (assess_post env n0 wid md repo br (steps_scanned t1 t2 (OutScan sid k vs)) vs tr)
    tr w (_execute_assessment wid w).
Proof.
  intros (wf & Hg & Hm & Hr & Hb & Hs & _).
  unfold _execute_assessment. exec. norm_world. wsimpl. rewrite ?Hm, ?Hr, ?Hb, ?Hs.
  cbn [find_step List.find steps_scanned steps_scanning mark update_first
       initial_steps initial_step step_id update_step_fields output_data
       output_truthy get_vulnerabilities String.eqb Ascii.eqb Bool.eqb negb].
  destruct vs as [|v vs'].
  - norm_world. wsimpl. cbn [evolves]. split; [solve_unit_step|].
    split; [done|]. split; [done|].
    exists (utcnow w), (utcnow w). solve_wf_at.
  - cbn [evolves]. split; [solve_unit_step|].
    intros w' Hw'.
    eapply wf_at_rely in Hw' as (wf' & Hg' & Hm' & Hr' & Hb' & Hs' & Hc');
      [|solve_wf_at].
    unfold assess_post.
    set (ar := respond env (n0 + length tr) (assess_vulnerabilities (v :: vs') repo)).
    destruct (a_error ar) as [e|] eqn:E;
      norm_world; wsimpl; cbn [evolves];
      (split; [solve_unit_step|]); (split; [done|]); (split; [done|]);
      exists (utcnow w), (utcnow w'); solve_wf_at.
Qed.
End assess_stage.

Section decision_stage.
Context (cfg : Settings) (env : Env) (n0 : nat) (wid : string).
Context (md : Metadata) (repo br : string).

#[local] Abbreviation evolves_unit := (evolves env n0 (rely_api wid) (unit_step wid)).

Lemma _execute_remediation_decisions_evolves tr w t1 t2 sout t3 t4 aout P :
  output_truthy aout = true ->
  wf_at wid md repo br (steps_assessed (steps_scanned t1 t2 sout) t3 t4 aout) P w ->
  evolves_unit
    (decisions_post cfg wid md repo br
       (steps_assessed (steps_scanned t1 t2 sout) t3 t4 aout) (get_assessments aout) tr)
    tr w (_execute_remediation_decisions cfg wid w).
Proof.
  intros Ht (wf & Hg & Hm & Hr & Hb & Hs & _).
  unfold _execute_remediation_decisions, _send_notification.
  exec. norm_world. wsimpl. rewrite ?Hm, ?Hr, ?Hb, ?Hs.
  repeat first
    [ rewrite Ht
    | progress cbn [find_step List.find steps_assessed steps_assessing steps_scanned
        steps_scanning mark update_first initial_steps initial_step step_id
        update_step_fields output_data String.eqb Ascii.eqb Bool.eqb negb] ].
  unfold decisions_post.
  destruct (get_assessments aout) as [|a0 l0] eqn:Ea.
  { cbn [evolves]. split; [solve_unit_step|]. split; [done|]. split; [done|].
    solve_wf_at. }
  destruct (categorize cfg (default true (md_auto_remediate md)) (a0 :: l0) ([], []))
    as [[to_auto to_await]| e |] eqn:Ec; cbn [bind_outcome fst snd].
  3: { by apply categorize_returns in Ec. }
  2: { cbn [evolves]. split; [solve_unit_step|]. split; [done|]. split; [done|].
       solve_wf_at. }
  assert (Hcalm : calm REMEDIATING) by done.
  destruct to_auto as [|x to_auto'].
  - destruct to_await as [|y to_await'];
      cbn [bind_outcome]; norm_world; wsimpl; cbn [length Nat.ltb Nat.leb];
      rewrite ?Hm;
      try (destruct (default true (md_notify md)));
      cbn [bind_outcome]; norm_world; wsimpl; cbn [evolves];
      (split; [solve_unit_step|]); (split; [done|]);
      (split; [by rewrite ?app_nil_r|]);
      exists (utcnow w); solve_wf_at.
  - cbn [bind_outcome evolves]. split; [solve_unit_step|].
    intros w' Hw'.
    eapply wf_at_rely in Hw' as (wf' & Hg' & Hm' & Hr' & Hb' & Hs' & Hc');
      [|solve_wf_at].
    destruct (r_error _);
      destruct to_await as [|y to_await'];
      cbn [bind_outcome]; norm_world; wsimpl; cbn [length Nat.ltb Nat.leb];
      rewrite ?Hm', ?Hm;
      try (destruct (default true (md_notify md)));
      cbn [bind_outcome]; norm_world; wsimpl; cbn [evolves];
      (split; [solve_unit_step|]); (split; [done|]);
      (split; [done|]);
      exists (utcnow w'); solve_wf_at.
Qed.
End decision_stage.

Section whole_unit.
Context (cfg : Settings) (env : Env) (n0 : nat) (wid : string).
Context (md : Metadata) (repo br : string).

#[local] Abbreviation evolves_unit := (evolves env n0 (rely_api wid) (unit_step wid)).

Lemma _complete_workflow_evolves tr w L P :
  wf_at wid md repo br L P w ->
  evolves_unit
    (fun tr' r w' =>
       r = Ok tt /\ tr' = tr
       /\ wf_at wid md repo br L
            (fun wf' =>
               (status wf' = AWAITING_APPROVAL /\ P wf')
               \/ (status wf' = COMPLETED
                   /\ exists wf, P wf /\ status wf <> AWAITING_APPROVAL)) w')
    tr w (_complete_workflow wid w).
Proof.
  intros (wf & Hg & Hm & Hr & Hb & Hs & HP).
  unfold _complete_workflow. exec. norm_world.
  destruct (decide (status wf = AWAITING_APPROVAL)) as [E|E];
    norm_world; cbn [evolves].
  - split; [by eapply unit_step_refl|]. split; [done|]. split; [done|].
    exists wf. repeat split; auto.
  - split.
    { eapply unit_step_put; [eassumption|wsimpl; done..|wsimpl; apply advances_refl]. }
    split; [done|]. split; [done|].
    eexists. split; [apply get_workflow_put|]. wsimpl.
    repeat split; try done. right. split; [done|]. by exists wf.
Qed.

Lemma decide_and_complete_evolves tr w t1 t2 sout t3 t4 aout :
  output_truthy aout = true ->
  wf_at wid md repo br (steps_assessed (steps_scanned t1 t2 sout) t3 t4 aout) is_calm w ->
  evolves_unit
    (decide_and_complete_post cfg wid md repo br false
       (steps_assessed (steps_scanned t1 t2 sout) t3 t4 aout) (get_assessments aout) tr)
    tr w
    (bind_outcome (_execute_remediation_decisions cfg wid w)
                  (fun _ => _complete_workflow wid)).
Proof.
  intros Ht Hw.
  eapply evolves_bind; [apply unit_step_trans| | | |].
  - by eapply _execute_remediation_decisions_evolves.
  - intros tr' [] w1 H. unfold decisions_post, decide_and_complete_post in *.
    destruct (get_assessments aout) as [|a0 l0].
    + destruct H as (_ & -> & H).
      eapply evolves_mono; [by eapply _complete_workflow_evolves|].
      intros tr2 r w2 (-> & -> & (wf & Hg & Hm & Hr & Hb & Hs & HP)).
      split; [done|]. split; [done|]. exists wf. repeat split; try done.
      unfold has_status in *. destruct HP as [[E1 E2]|[E1 _]]; congruence.
    + destruct (categorize _ _ _ _) as [[to_auto to_await]| e |]; [| |done].
      * destruct H as (_ & -> & t5 & H).
        eapply evolves_mono; [by eapply _complete_workflow_evolves|].
        intros tr2 r w2 (-> & -> & (wf & Hg & Hm & Hr & Hb & Hs & HP)).
        split; [done|]. split; [done|]. exists t5, wf. repeat split; try done.
        destruct to_await.
        -- destruct HP as [[E1 E2]|[E1 _]]; [|done].
           unfold is_calm, calm in E2. tauto.
        -- destruct HP as [[E1 E2]|[E1 (wf0 & [E2 _] & E3)]]; [done|congruence].
      * by destruct H as ([=] & _).
  - intros tr' e w1 H. unfold decisions_post, decide_and_complete_post in *.
    destruct (get_assessments aout) as [|a0 l0]; [by destruct H|].
    destruct (categorize _ _ _ _) as [[to_auto to_await]| e' |]; [by destruct H| |done].
    destruct H as (E & -> & H). split; [done|]. done.
  - intros tr' w1 H. unfold decisions_post, decide_and_complete_post in *.
    destruct (get_assessments aout) as [|a0 l0]; [by destruct H|].
    destruct (categorize _ _ _ _) as [[to_auto to_await]| e' |]; [by destruct H| |done].
    by destruct H.
Qed.

Lemma after_scan_evolves tr w t1 t2 sid k vs :
  wf_at wid md repo br (steps_scanned t1 t2 (OutScan sid k vs)) is_calm w ->
  evolves_unit
    (after_scan_post cfg env n0 wid md repo br false
       (steps_scanned t1 t2 (OutScan sid k vs)) vs tr)
    tr w (after_scan cfg wid w).
Proof.
  intros Hw. pose proof Hw as (wf & Hg & Hm & Hr & Hb & Hs & [Hc1 Hc2]).
  unfold after_scan. exec. norm_world.
  destruct (decide (status wf = FAILED)) as [E|_]; [done|].
  eapply evolves_bind; [apply unit_step_trans| | | |].
  - by eapply _execute_assessment_evolves.
  - intros tr' [] w1 [_ H]. unfold after_scan_post.
    destruct vs as [|v vs'].
    + destruct H as (-> & t3 & t4 & H).
      pose proof H as (wf1 & Hg1 & Hm1 & Hr1 & Hb1 & Hs1 & [Hd1 Hd2]).
      norm_world. destruct (decide (status wf1 = FAILED)) as [E|_]; [done|].
      eapply evolves_mono;
        [eapply (decide_and_complete_evolves tr w1 t1 t2 _ t3 t4 OutNoVulnerabilities);
           [reflexivity | exact H]|].
      intros tr2 r w2 H2. by exists t3, t4.
    + cbv zeta in H |- *. destruct H as (-> & t3 & t4 & H).
      destruct (a_error _) as [e|] eqn:Ee.
      * pose proof H as (wf1 & Hg1 & Hm1 & Hr1 & Hb1 & Hs1 & Hf).
        norm_world. destruct (decide (status wf1 = FAILED)) as [_|E]; [|done].
        cbn [evolves]. split; [by eapply unit_step_refl|].
        exists t3, t4. cbv zeta. by rewrite ?Ee.
      * pose proof H as (wf1 & Hg1 & Hm1 & Hr1 & Hb1 & Hs1 & [Hd1 Hd2]).
        norm_world. destruct (decide (status wf1 = FAILED)) as [E|_]; [done|].
        eapply evolves_mono;
          [eapply (decide_and_complete_evolves
                     (tr ++ [assess_vulnerabilities (v :: vs') repo])
                     w1 t1 t2 _ t3 t4 (OutAssess _ _ _));
             [reflexivity | exact H]|].
        intros tr2 r w2 H2. exists t3, t4. cbv zeta. by rewrite ?Ee.
  - by intros tr' e w1 [[=] _].
  - by intros tr' w1 [[=] _].
Qed.

Lemma after_scan_post_caught scanned vs tr tr' e w1 :
  after_scan_post cfg env n0 wid md repo br false scanned vs tr tr' (Raised e) w1 ->
  evolves_unit (after_scan_post cfg env n0 wid md repo br true scanned vs tr) tr' w1
    (bind_outcome (Finished (Ok tt) (on_workflow wid (set_status FAILED) w1))
                  (fun _ w2 => Finished (Ok tt) (update_workflow wid w2))).
Proof.
  assert (Hcase : forall assessed assessments tr,
    decide_and_complete_post cfg wid md repo br false assessed assessments tr tr'
                             (Raised e) w1 ->
    evolves_unit
      (decide_and_complete_post cfg wid md repo br true assessed assessments tr)
      tr' w1
      (bind_outcome (Finished (Ok tt) (on_workflow wid (set_status FAILED) w1))
                    (fun _ w2 => Finished (Ok tt) (update_workflow wid w2)))).
  { intros assessed assessments tr0 Hd. unfold decide_and_complete_post in *.
    destruct assessments as [|a0 l0]; [by destruct Hd as [[=] _]|].
    destruct (categorize _ _ _ _) as [[to_auto to_await]| e' |];
      [by destruct Hd as [[=] _]| |done].
    destruct Hd as (-> & _ & (wf1 & Hg1 & Hm1 & Hr1 & Hb1 & Hs1 & Hf)).
    cbn [bind_outcome]. norm_world. wsimpl. cbn [evolves]. split.
    { eapply unit_step_put; [eassumption|wsimpl; done..|wsimpl; apply advances_refl]. }
    split; [done|]. split; [done|]. solve_wf_at. }
  unfold after_scan_post. intros (t3 & t4 & H).
  destruct vs as [|v vs'].
  - eapply evolves_mono; [apply (Hcase _ _ _ H)|].
    intros tr2 r w2 H2. by exists t3, t4.
  - cbv zeta in H |- *. destruct (a_error _) as [e1|] eqn:Ee; [by destruct H as [[=] _]|].
    eapply evolves_mono; [apply (Hcase _ _ _ H)|].
    intros tr2 r w2 H2. exists t3, t4. by rewrite ?Ee.
Qed.

Lemma after_scan_post_ok scanned vs tr tr' w1 :
  after_scan_post cfg env n0 wid md repo br false scanned vs tr tr' (Ok tt) w1 ->
  after_scan_post cfg env n0 wid md repo br true scanned vs tr tr' (Ok tt) w1.
Proof.
  assert (Hcase : forall assessed assessments tr,
    decide_and_complete_post cfg wid md repo br false assessed assessments tr tr'
                             (Ok tt) w1 ->
    decide_and_complete_post cfg wid md repo br true assessed assessments tr tr'
                             (Ok tt) w1).
  { intros assessed assessments tr0 Hd. unfold decide_and_complete_post in *.
    destruct assessments as [|a0 l0]; [done|].
    destruct (categorize _ _ _ _) as [[to_auto to_await]| e' |]; [done| |done].
    by destruct Hd as (_ & [=] & _). }
  unfold after_scan_post. intros (t3 & t4 & H). exists t3, t4.
  destruct vs as [|v vs']; [by apply Hcase|].
  cbv zeta in H |- *. destruct (a_error _); [done|]. by apply Hcase.
Qed.

Lemma after_scan_post_returns scanned vs tr tr' w1 :
  ~ after_scan_post cfg env n0 wid md repo br false scanned vs tr tr' NoReturn w1.
Proof.
  assert (Hcase : forall assessed assessments tr,
    ~ decide_and_complete_post cfg wid md repo br false assessed assessments tr tr'
                               NoReturn w1).
  { intros assessed assessments tr0 Hd. unfold decide_and_complete_post in *.
    destruct assessments as [|a0 l0]; [by destruct Hd as [[=] _]|].
    destruct (categorize _ _ _ _) as [[to_auto to_await]| e' |];
      [by destruct Hd as [[=] _]| |done].
    by destruct Hd as (_ & [=] & _). }
  unfold after_scan_post. intros (t3 & t4 & H).
  destruct vs as [|v vs']; [by eapply Hcase|].
  cbv zeta in H. destruct (a_error _); [by destruct H as [[=] _]|]. by eapply Hcase.
Qed.

(** The execution unit, from a workflow whose steps are the initial
    ones, among any requests [rely_api] allows. *)
Lemma _execute_workflow_evolves w P :
  wf_at wid md repo br initial_steps P w ->
  evolves_unit (unit_post cfg env n0 wid md repo br true) [] w
               (_execute_workflow cfg wid w).
Proof.
  intros Hw. unfold _execute_workflow. exec.
  eapply evolves_try with (Q := unit_post cfg env n0 wid md repo br false);
    [apply unit_step_trans| | | |].
  - eapply evolves_bind; [apply unit_step_trans| | | |].
    + by eapply _execute_scan_evolves.
    + intros tr' [] w1 [_ H]. unfold unit_post.
      cbn [length] in H. rewrite Nat.add_0_r in H. cbn [app] in H.
      destruct (t_error _) as [e|] eqn:Ee.
      * destruct H as (-> & t1 & t2 & H).
        pose proof H as (wf1 & Hg1 & Hm1 & Hr1 & Hb1 & Hs1 & Hf).
        unfold after_scan. exec. norm_world.
        destruct (decide (status wf1 = FAILED)) as [_|E]; [|done].
        cbn [evolves]. split; [by eapply unit_step_refl|].
        split; [done|]. split; [done|]. by exists t1, t2.
      * destruct H as (-> & res & t1 & t2 & Hres & H).
        destruct (decide (sr_status res = Some "completed")) as [Hc|Hc] eqn:Ed.
        -- eapply evolves_mono; [by eapply after_scan_evolves|].
           intros tr2 r w2 H2. exists res, t1, t2. split; [done|]. by rewrite Ed.
        -- pose proof H as (wf1 & Hg1 & Hm1 & Hr1 & Hb1 & Hs1 & Hf).
           unfold after_scan. exec. norm_world.
           destruct (decide (status wf1 = FAILED)) as [_|E]; [|done].
           cbn [evolves]. split; [by eapply unit_step_refl|].
           exists res, t1, t2. split; [done|]. by rewrite Ed.
    + by intros tr' e w1 [[=] _].
    + by intros tr' w1 [[=] _].
  - (* the handler *)
    intros tr' e w1 H. unfold unit_post in H |- *.
    destruct (t_error _) as [e0|]; [by destruct H as [[=] _]|].
    destruct H as (res & t1 & t2 & Hres & H).
    destruct (decide (sr_status res = Some "completed")) as [Hc|Hc] eqn:Ed;
      [|by destruct H as [[=] _]].
    eapply evolves_mono; [exact (after_scan_post_caught _ _ _ _ e _ H)|].
    intros tr2 r w2 H2. exists res, t1, t2. split; [done|]. by rewrite Ed.
  - (* no exception: nothing for the handler to do *)
    intros tr' [] w1 H. unfold unit_post in H |- *.
    destruct (t_error _) as [e0|]; [done|].
    destruct H as (res & t1 & t2 & Hres & H). exists res, t1, t2. split; [done|].
    destruct (decide (sr_status res = Some "completed")); [|done].
    by apply after_scan_post_ok.
  - (* the unit always ends *)
    intros tr' w1 H. exfalso. unfold unit_post in H.
    destruct (t_error _) as [e0|]; [by destruct H as [[=] _]|].
    destruct H as (res & t1 & t2 & Hres & H).
    destruct (decide (sr_status res = Some "completed")); [|by destruct H as [[=] _]].
    by eapply after_scan_post_returns.
Qed.
End whole_unit.

(** ** From the stages to whole runs *)



(** Along the observed states, a relation that contains both the steps
    of the coroutine and what the others may do holds between any
    earlier state and any later one. *)
Lemma guided_all (rely R T : World -> World -> Prop) :
  (forall a b, rely a b -> T a b) ->
  (forall a b, R a b -> T a b) ->
  (forall a, T a a) ->
  (forall a b c, T a b -> T b c -> T a c) ->
  forall l prev, guided rely R prev l ->
    forall i wi, l !! i = Some wi ->
      T prev wi /\ forall j wj, (i <= j)%nat -> l !! j = Some wj -> T wi wj.
Proof.
  intros Hrely HR Hrefl Htrans.
  induction l as [|w rest IH]; intros prev Hg i wi Hi; [done|].
  destruct Hg as [HR1 Hrest].
  destruct i as [|i]; cbn in Hi.
  - injection Hi as <-. split; [auto|].
    intros j wj _ Hj. destruct j as [|j]; cbn in Hj; [by injection Hj as <-|].
    destruct rest as [|w2 rest2]; [done|].
    destruct Hrest as (w' & Hw' & Hg').
    destruct (IH w' Hg' j wj Hj) as [HT _]. eauto.
  - destruct rest as [|w2 rest2]; [done|].
    destruct Hrest as (w' & Hw' & Hg').
    destruct (IH w' Hg' i wi Hi) as [HT Hlater]. split; [eauto 6|].
    intros j wj Hij Hj. destruct j as [|j]; [lia|].
    apply (Hlater j wj); [lia | done].
Qed.

Lemma steps_advance_refl wid a : steps_advance wid a a.
Proof. intros H. split; [done|]. split; [done|]. apply advances_refl. Qed.

Lemma steps_advance_trans wid a b c :
  steps_advance wid a b -> steps_advance wid b c -> steps_advance wid a c.
Proof.
  intros H1 H2 Ha. destruct (H1 Ha) as (Hb & Hi & Hv).
  destruct (H2 Hb) as (Hc & Hi' & Hv'). split; [done|].
  split; [congruence|]. by eapply advances_trans.
Qed.

Lemma unit_step_advance wid a b : unit_step wid a b -> steps_advance wid a b.
Proof.
  intros (wf1 & wf2 & Hg & -> & _ & _ & _ & Hi & Ha) _.
  unfold step_ids, step_statuses.
  rewrite the_workflow_put, (the_workflow_get _ _ _ Hg), get_workflow_put.
  split; [by eexists|]. done.
Qed.

Lemma rely_api_advance wid a b : rely_api wid a b -> steps_advance wid a b.
Proof.
  intros Hr [wf Hg]. destruct (Hr wf Hg) as (wf' & Hg' & Hs & _).
  unfold step_ids, step_statuses.
  rewrite (the_workflow_get _ _ _ Hg), (the_workflow_get _ _ _ Hg'), Hs.
  split; [by eexists|]. split; [done|]. apply advances_refl.
Qed.




Lemma started_wf_at request trig wid w0 :
  wf_at wid (request_metadata request) (req_repository request) (req_branch request)
        initial_steps (has_status PENDING)
        (start_workflow request trig wid w0).
Proof.
  rewrite start_workflow_put. eexists. split; [apply get_workflow_put|]. done.
Qed.

(** The execution unit of a workflow that [start_workflow] has just
    created, in any environment: its calls, its result and the state it
    leaves are as [unit_post] says, and between any two states in which
    it can be observed the steps have only advanced. *)
Lemma unit_run cfg env n request trig wid w0 :
  let w := start_workflow request trig wid w0 in
  let r := run env n (_execute_workflow cfg wid w) in
  unit_post cfg env n wid (request_metadata request) (req_repository request)
            (req_branch request) true (calls r) (result r) (final r)
  /\ guided (rely_api wid) (unit_step wid) w (observed r).
Proof.
  intros w r.
  pose proof (evolves_run env n (rely_api wid) (unit_step wid) _ _ [] w
                (obeys_rely_api wid env)
                (_execute_workflow_evolves cfg env n wid _ _ _ w _
                   (started_wf_at request trig wid w0))) as H.
  cbn [length app] in H. rewrite Nat.add_0_r in H. exact H.
Qed.


(** ** A failed scan *)

Lemma poll_run_only_polls env m sid mw kd :
  kd <> GetScanResults -> kd <> SleepCall ->
  count_calls (is_kind kd) (calls (poll_run env m sid mw 5)) = 0%nat.
Proof.
  intros H1 H2.
  pose proof (poll_loop_calls kd sid mw 5 eq_refl (poll_fuel mw) 0 (empty_world 0)) as H.
  apply (calls_at_most_run env) with (n := m) in H.
  unfold poll_run, poll_scan_completion. destruct kd; try done; lia.
Qed.

Lemma count_calls_cons p c l :
  count_calls p (c :: l) = ((if p c then 1 else 0) + count_calls p l)%nat.
Proof. unfold count_calls. cbn. by destruct (p c). Qed.

Lemma count_calls_app p l1 l2 :
  count_calls p (l1 ++ l2) = (count_calls p l1 + count_calls p l2)%nat.
Proof. unfold count_calls. by rewrite List.filter_app, length_app. Qed.






(** ** Failures and the audit log *)

Lemma wf_at_status wid md repo br L P w :
  wf_at wid md repo br L P w ->
  exists wf, the_workflow wid w = wf /\ steps wf = L /\ P wf.
Proof.
  intros (wf & Hg & _ & _ & _ & Hs & HP). exists wf.
  by rewrite (the_workflow_get _ _ _ Hg).
Qed.

Lemma decide_and_complete_summary cfg wid md repo br L l tr tr' r w' :
  decide_and_complete_post cfg wid md repo br true L l tr tr' r w' ->
  r = Ok tt
  /\ (match l with
      | [] => false
      | _ => match categorize cfg (default true (md_auto_remediate md)) l ([], []) with
             | Raised _ => true
             | _ => false
             end
      end = true <-> status (the_workflow wid w') = FAILED)
  /\ (status (the_workflow wid w') = FAILED
      \/ status (the_workflow wid w') = COMPLETED
      \/ status (the_workflow wid w') = AWAITING_APPROVAL).
Proof.
  unfold decide_and_complete_post. destruct l as [|a l].
  { intros (-> & _ & H). apply wf_at_status in H as (wf & -> & _ & H).
    unfold has_status in H. rewrite H. split; [done|]. split; [|tauto].
    split; done. }
  destruct (categorize _ _ _ _) as [[to_auto to_await]|e|]; [| |done].
  - intros (-> & _ & t5 & H). apply wf_at_status in H as (wf & -> & _ & H).
    split; [done|].
    destruct to_await; [rewrite H | destruct H as [H _]; rewrite H];
      (split; [split; done | tauto]).
  - intros (_ & -> & H). apply wf_at_status in H as (wf & -> & _ & H).
    unfold has_status in H. rewrite H. tauto.
Qed.

(** What [unit_post] says about the result and the final status. *)
Lemma unit_post_summary cfg env n wid md repo br tr r w' :
  unit_post cfg env n wid md repo br true tr r w' ->
  r = Ok tt
  /\ (stage_failure cfg env n md repo br = true <-> status (the_workflow wid w') = FAILED)
  /\ (status (the_workflow wid w') = FAILED
      \/ status (the_workflow wid w') = COMPLETED
      \/ status (the_workflow wid w') = AWAITING_APPROVAL).
Proof.
  unfold unit_post, stage_failure, the_poll.
  destruct (t_error _) as [e|].
  { intros (-> & _ & t1 & t2 & H). apply wf_at_status in H as (wf & -> & _ & H).
    unfold has_status in H. rewrite H. tauto. }
  cbv zeta. intros (res & t1 & t2 & -> & H).
  destruct (decide (sr_status res = Some "completed")) as [E|E].
  2: { rewrite bool_decide_eq_false_2 by done.
       destruct H as (-> & _ & H). apply wf_at_status in H as (wf & -> & _ & H).
       unfold has_status in H. rewrite H. tauto. }
  rewrite bool_decide_eq_true_2 by done.
  destruct H as (t3 & t4 & H).
  destruct (_extract_vulnerabilities res) as [|v vs].
  { apply (decide_and_complete_summary _ _ _ _ _ _ []) in H. tauto. }
  cbv zeta in H. destruct (a_error _) as [e|].
  { destruct H as (-> & _ & H). apply wf_at_status in H as (wf & -> & _ & H).
    unfold has_status in H. rewrite H. tauto. }
  apply decide_and_complete_summary in H.
  by destruct (a_assessments _).
Qed.



(** ** The order of the steps *)

(** [approve_remediation] on a workflow that awaits approval, among
    other requests: it submits the selected findings as one batch (none
    when nothing is selected), then writes [COMPLETED] and clears the
    count of findings awaiting approval; the steps stay as they are. *)
Lemma approve_remediation_run env m wid ids who w wf :
  get_workflow wid w = Some wf ->
  status wf = AWAITING_APPROVAL ->
  let r := run env m (approve_remediation wid ids who w) in
  match approved_selection ids wf with
  | Ok batch =>
      calls r = match batch with
                | [] => []
                | _ => [remediate_batch batch (repository wf) (branch wf) false]
                end
      /\ exists wf', result r = Ok (Some wf')
           /\ get_workflow wid (final r) = Some wf'
           /\ status wf' = COMPLETED
           /\ wf_awaiting_approval wf' = 0%nat
           /\ steps wf' = steps wf
  | Raised e => result r = Raised e /\ final r = w /\ calls r = []
  | NoReturn => result r = NoReturn /\ final r = w /\ calls r = []
  end.
Proof.
  intros Hg Hs r. subst r. unfold approve_remediation, approved_selection. exec.
  rewrite Hg, bool_decide_eq_true_2 by done. cbn [negb].
  destruct (obeys_rely_api wid env m w wf Hg) as (wf2 & Hg2 & Hs2 & _).
  destruct (find_step "assess" (steps wf)) as [s|];
    [destruct (output_truthy (output_data s));
     [destruct (select_to_remediate _ _) as [[|x batch]|e|]|]|];
    cbn [bind_outcome run calls result final]; try done;
    (split; [done|]);
    unfold update_workflow; rewrite !get_workflow_on_workflow, !decide_True by done;
    rewrite ?Hg, ?Hg2; cbn [fmap option_fmap option_map];
    eexists; (split; [reflexivity|]); done.
Qed.

(** C4, as stated, fails: after a run in which the one finding is
    remediated automatically, [remediate] is [COMPLETED] although
    [decide] before it is still [PENDING]; [decide] and [complete]
    never leave [PENDING]. *)
Lemma completed_step_after_pending_step :
  let r := run (one_finding_env "P3") 0
               (_execute_workflow default_settings "wf-1" started_world) in
  result r = Ok tt
  /\ step_ids "wf-1" (final r) = ["scan"; "assess"; "decide"; "remediate"; "complete"]
  /\ step_statuses "wf-1" (final r) = [COMPLETED; COMPLETED; PENDING; COMPLETED; PENDING]
  /\ ordered (step_statuses "wf-1" (final r)) = false.
Proof. repeat split; reflexivity. Qed.

(** C4, amended.  Whatever the collaborators answer and whatever other
    requests are served meanwhile, in every state in which the
    execution unit of a freshly started workflow can be observed the
    steps are the five fixed ones, [decide] and [complete] are
    [PENDING], and the statuses of [scan], [assess] and [remediate],
    in that order, are a prefix of [COMPLETED], then at most one status
    that is neither [COMPLETED] nor [PENDING], then [PENDING]; from any
    observed state to any later one a step that is [COMPLETED] or
    [FAILED] keeps its status.  The other requests (cancel, reject,
    the approval endpoints) and [approve_remediation] leave the steps
    of a stored workflow as they are. *)
Theorem steps_keep_engine_order (cfg : Settings) (env : Env) (n : nat)
    (request : WorkflowRequest) (trig wid : string) (w0 : World) :
  let w := start_workflow request trig wid w0 in
  let r := run env n (_execute_workflow cfg wid w) in
  (forall w', w' ∈ observed r ->
     step_ids wid w' = canonical_ids
     /\ engine_ordered (step_statuses wid w') = true)
  /\ (forall i j wi wj, (i <= j)%nat ->
        observed r !! i = Some wi -> observed r !! j = Some wj ->
        Forall2 settled (step_statuses wid wi) (step_statuses wid wj))
  /\ (forall op w1 wf, get_workflow wid w1 = Some wf ->
        steps (the_workflow wid (apply_op w1 op)) = steps wf)
  /\ (forall env' m ids who w1 wf, get_workflow wid w1 = Some wf ->
        steps (the_workflow wid (final (run env' m (approve_remediation wid ids who w1))))
        = steps wf).
Proof.
  intros w r.
  destruct (unit_run cfg env n request trig wid w0) as [_ Hguided].
  fold w in Hguided. fold r in Hguided.
  pose proof (guided_all (rely_api wid) (unit_step wid) (steps_advance wid)
                (rely_api_advance wid) (unit_step_advance wid)
                (steps_advance_refl wid) (steps_advance_trans wid)
                _ _ Hguided) as Hall.
  assert (Hw : is_Some (get_workflow wid w)).
  { subst w. rewrite start_workflow_put, get_workflow_put. by eexists. }
  assert (Hids : step_ids wid w = canonical_ids).
  { subst w. unfold step_ids. by rewrite start_workflow_put, the_workflow_put. }
  assert (Hord : engine_ordered (step_statuses wid w) = true).
  { subst w. unfold step_statuses. by rewrite start_workflow_put, the_workflow_put. }
  split; [|split; [|split]].
  - intros w' Hin. apply list_elem_of_lookup in Hin as [i Hi].
    destruct (Hall i w' Hi) as [Hfrom _].
    destruct (Hfrom Hw) as (_ & Hi' & [Ho _]). split; [congruence | auto].
  - intros i j wi wj Hij Hi Hj.
    destruct (Hall i wi Hi) as [Hfrom Hto].
    destruct (Hfrom Hw) as (Hwi & _).
    by destruct (Hto j wj Hij Hj Hwi) as (_ & _ & [_ Hs]).
  - intros op w1 wf Hg.
    destruct (apply_op_rely wid w1 op wf Hg) as (wf' & Hg' & Hs & _).
    by rewrite (the_workflow_get _ _ _ Hg').
  - intros env' m ids who w1 wf Hg.
    destruct (decide (status wf = AWAITING_APPROVAL)) as [Hs|Hs].
    2: { rewrite (approve_remediation_not_awaiting _ _ _ _ wf) by done.
         cbn. by rewrite (the_workflow_get _ _ _ Hg). }
    pose proof (approve_remediation_run env' m wid ids who w1 wf Hg Hs) as H.
    cbv zeta in H. destruct (approved_selection ids wf) as [batch|e|].
    + destruct H as (_ & wf' & _ & Hg' & _ & _ & Hst).
      by rewrite (the_workflow_get _ _ _ Hg').
    + destruct H as (_ & -> & _). by rewrite (the_workflow_get _ _ _ Hg).
    + destruct H as (_ & -> & _). by rewrite (the_workflow_get _ _ _ Hg).
Qed.

(** ** Cancellation *)

(** The poll sees the answers of the scanner only: the requests served
    meanwhile change neither its result nor its calls. *)
Lemma poll_loop_undisturbed env sid mw pi : forall fuel el m w,
  result (run (undisturbed env) m (poll_loop fuel sid mw pi el w)) =
  result (run env m (poll_loop fuel sid mw pi el w))
  /\ calls (run (undisturbed env) m (poll_loop fuel sid mw pi el w)) =
     calls (run env m (poll_loop fuel sid mw pi el w)).
Proof.
  induction fuel as [|fuel IH]; intros el m w; [done|].
  cbn [poll_loop]. destruct (el <? mw); [|done].
  exec. cbn [run result calls bind_outcome undisturbed respond interfere foldl].
  destruct (String.eqb _ "completed"); [done|].
  destruct (String.eqb _ "failed"); [done|].
  cbn [run result calls bind_outcome undisturbed respond interfere foldl].
  destruct (IH (el + pi) (S (S m)) w) as [E1 E2]. rewrite E1, E2.
  match goal with
  |- context [run env (S (S m)) (poll_loop fuel sid mw pi (el + pi) (foldl ?f ?a ?b))] =>
    destruct (poll_run_any_world env sid mw pi fuel (el + pi) (S (S m)) w (foldl f a b))
      as [E3 E4]
  end.
  by rewrite E3, E4.
Qed.

Lemma unit_post_undisturbed cfg env n wid md repo br c tr r w' :
  unit_post cfg (undisturbed env) n wid md repo br c tr r w' <->
  unit_post cfg env n wid md repo br c tr r w'.
Proof.
  unfold unit_post, after_scan_post, poll_run, poll_scan_completion.
  cbv zeta. cbn [undisturbed respond].
  match goal with
  |- context [run (undisturbed env) ?m (poll_loop ?f ?sid ?mw ?pi ?el ?w)] =>
    destruct (poll_loop_undisturbed env sid mw pi f el m w) as [E1 E2]
  end.
  by rewrite E1, E2.
Qed.

Lemma decide_and_complete_determined cfg wid md repo br c L1 L2 l tr tr1 tr2 r1 r2 w1 w2 :
  decide_and_complete_post cfg wid md repo br c L1 l tr tr1 r1 w1 ->
  decide_and_complete_post cfg wid md repo br c L2 l tr tr2 r2 w2 ->
  tr1 = tr2 /\ status (the_workflow wid w1) = status (the_workflow wid w2).
Proof.
  unfold decide_and_complete_post. destruct l as [|a l].
  { intros (_ & -> & H1) (_ & -> & H2).
    apply wf_at_status in H1 as (? & -> & _ & H1).
    apply wf_at_status in H2 as (? & -> & _ & H2).
    unfold has_status in *. split; congruence. }
  destruct (categorize _ _ _ _) as [[to_auto to_await]|e|]; [| |done].
  - intros (_ & -> & ? & H1) (_ & -> & ? & H2).
    apply wf_at_status in H1 as (? & -> & _ & H1).
    apply wf_at_status in H2 as (? & -> & _ & H2).
    split; [done|]. destruct to_await; [congruence|].
    destruct H1 as [H1 _], H2 as [H2 _]. congruence.
  - intros (-> & H1) (-> & H2). split; [done|].
    destruct c; destruct H1 as [_ H1], H2 as [_ H2];
      apply wf_at_status in H1 as (? & -> & _ & H1);
      apply wf_at_status in H2 as (? & -> & _ & H2);
      unfold has_status in *; congruence.
Qed.

(** The calls of the unit and the status it leaves are determined by
    the answers of the collaborators. *)
Lemma unit_post_determined cfg env n wid md repo br c tr1 tr2 r1 r2 w1 w2 :
  unit_post cfg env n wid md repo br c tr1 r1 w1 ->
  unit_post cfg env n wid md repo br c tr2 r2 w2 ->
  tr1 = tr2 /\ status (the_workflow wid w1) = status (the_workflow wid w2).
Proof.
  unfold unit_post. destruct (t_error _) as [e|].
  { intros (_ & -> & ? & ? & H1) (_ & -> & ? & ? & H2).
    apply wf_at_status in H1 as (? & -> & _ & H1).
    apply wf_at_status in H2 as (? & -> & _ & H2).
    unfold has_status in *. split; congruence. }
  cbv zeta. intros (res & ? & ? & E1 & H1) (res' & ? & ? & E2 & H2).
  rewrite E1 in E2. injection E2 as <-.
  destruct (decide (sr_status res = Some "completed")) as [E|E].
  2: { destruct H1 as (_ & -> & H1), H2 as (_ & -> & H2).
       apply wf_at_status in H1 as (? & -> & _ & H1).
       apply wf_at_status in H2 as (? & -> & _ & H2).
       unfold has_status in *. split; congruence. }
  destruct H1 as (? & ? & H1), H2 as (? & ? & H2).
  destruct (_extract_vulnerabilities res) as [|v vs].
  { by eapply decide_and_complete_determined. }
  cbv zeta in H1, H2. destruct (a_error _) as [e|].
  { destruct H1 as (_ & -> & H1), H2 as (_ & -> & H2).
    apply wf_at_status in H1 as (? & -> & _ & H1).
    apply wf_at_status in H2 as (? & -> & _ & H2).
    unfold has_status in *. split; congruence. }
  by eapply decide_and_complete_determined.
Qed.

(** C7, as stated, fails: the workflow is cancelled while the first
    poll is pending and is seen [CANCELLED] at the next two
    suspensions; the unit goes on to assess and to remediate, and
    leaves the workflow [COMPLETED]. *)
Lemma cancelled_workflow_keeps_running :
  let r := run cancelling_env 0
               (_execute_workflow default_settings "wf-1" started_world) in
  statuses_seen "wf-1" r =
    [SCANNING; SCANNING; CANCELLED; CANCELLED; ASSESSING; REMEDIATING; COMPLETED]
  /\ call_kind <$> calls r =
       [TriggerScan; GetScanResults; SleepCall; GetScanResults; AssessCall; RemediateBatch]
  /\ status (the_workflow "wf-1" (final r)) = COMPLETED.
Proof. repeat split; reflexivity. Qed.

(** C7, amended.  [POST /workflow/{id}/cancel] marks a stored workflow
    [CANCELLED], but the execution unit never reads that mark: whatever
    requests are served while it is suspended, cancellations included,
    it makes exactly the calls it makes when left alone, ends normally,
    and leaves the workflow with the status it leaves when left alone,
    which is [FAILED], [COMPLETED] or [AWAITING_APPROVAL] and never
    [CANCELLED]. *)
Theorem cancellation_does_not_stop_unit (cfg : Settings) (env : Env) (n : nat)
    (request : WorkflowRequest) (trig wid : string) (w0 : World) :
  let w := start_workflow request trig wid w0 in
  let r := run env n (_execute_workflow cfg wid w) in
  let alone := run (undisturbed env) n (_execute_workflow cfg wid w) in
  (forall w1 wf, get_workflow wid w1 = Some wf ->
     status (the_workflow wid (apply_op w1 (OpCancel wid))) = CANCELLED)
  /\ calls r = calls alone
  /\ result r = Ok tt
  /\ status (the_workflow wid (final r)) = status (the_workflow wid (final alone))
  /\ (status (the_workflow wid (final r)) = FAILED
      \/ status (the_workflow wid (final r)) = COMPLETED
      \/ status (the_workflow wid (final r)) = AWAITING_APPROVAL).
Proof.
  intros w r alone.
  destruct (unit_run cfg env n request trig wid w0) as [Hpost _].
  destruct (unit_run cfg (undisturbed env) n request trig wid w0) as [Hpost0 _].
  fold w in Hpost, Hpost0. fold r in Hpost. fold alone in Hpost0.
  apply (proj1 (unit_post_undisturbed _ _ _ _ _ _ _ _ _ _ _)) in Hpost0.
  destruct (unit_post_determined _ _ _ _ _ _ _ _ _ _ _ _ _ _ Hpost Hpost0) as [Hc Hs].
  apply unit_post_summary in Hpost as (Hr & _ & Hst).
  split; [|done].
  intros w1 wf Hg. cbn [apply_op].
  unfold api_cancel_workflow. rewrite (cancel_workflow_stored w1 wid wf Hg).
  cbn [snd]. by rewrite the_workflow_put.
Qed.

(** ** Findings routed to approval *)







(** * Further properties of the orchestrator code *)

(** ** Sorting and slicing *)

(** The order [sorted] sorts by. *)
#[local] Abbreviation precedes key reverse :=
  (fun x y => if reverse : bool then key y <= key x else key x <= key y).

Lemma in_order_nil {A} (key : A -> Z) reverse : in_order key reverse [].
Proof. intros i j x y _ H. by rewrite lookup_nil in H. Qed.

Lemma in_order_cons {A} (key : A -> Z) reverse x l :
  in_order key reverse (x :: l) <->
  Forall (precedes key reverse x) l /\ in_order key reverse l.
Proof.
  split.
  - intros H. split.
    + apply Forall_lookup. intros i y Hy. by apply (H 0%nat (S i) x y); [lia| |].
    + intros i j a b Hij Ha Hb. by apply (H (S i) (S j) a b); [lia| |].
  - intros [Hx Hl] i j a b Hij Ha Hb.
    destruct i as [|i], j as [|j]; cbn in Ha, Hb; try lia.
    + injection Ha as <-. injection Hb as <-. destruct reverse; lia.
    + injection Ha as <-. rewrite Forall_lookup in Hx. by apply (Hx j).
    + apply (Hl i j a b); [lia|done..].
Qed.

Lemma insert_sorted_Permutation {A} (key : A -> Z) reverse x l :
  insert_sorted key reverse x l ≡ₚ x :: l.
Proof.
  induction l as [|y l IH]; [done|]. cbn.
  destruct (if reverse then _ else _); [done|].
  rewrite IH. apply Permutation_swap.
Qed.

Lemma sorted_Permutation {A} (key : A -> Z) reverse l : sorted key reverse l ≡ₚ l.
Proof.
  induction l as [|x l IH]; [done|]. cbn [sorted foldr].
  rewrite insert_sorted_Permutation. by f_equiv.
Qed.

Lemma sorted_elem_of {A} (key : A -> Z) reverse l x : x ∈ sorted key reverse l <-> x ∈ l.
Proof. by rewrite sorted_Permutation. Qed.

Lemma sorted_length {A} (key : A -> Z) reverse l : length (sorted key reverse l) = length l.
Proof. by rewrite sorted_Permutation. Qed.

Lemma insert_sorted_in_order {A} (key : A -> Z) reverse x l :
  in_order key reverse l -> in_order key reverse (insert_sorted key reverse x l).
Proof.
  induction l as [|y l IH]; intros Hl.
  { apply in_order_cons. split; [constructor | apply in_order_nil]. }
  cbn. apply in_order_cons in Hl as Hyl. destruct Hyl as [Hy Hl'].
  destruct (if reverse then key y <=? key x else key x <=? key y) eqn:E.
  - apply in_order_cons. split; [|done]. constructor.
    + destruct reverse; lia.
    + eapply Forall_impl; [exact Hy|]. intros z Hz. cbn in Hz |- *. destruct reverse; lia.
  - apply in_order_cons. split; [|by apply IH].
    rewrite insert_sorted_Permutation. constructor; [|done].
    destruct reverse; lia.
Qed.

Lemma sorted_in_order {A} (key : A -> Z) reverse l : in_order key reverse (sorted key reverse l).
Proof.
  induction l as [|x l IH]; [apply in_order_nil|].
  by apply insert_sorted_in_order.
Qed.

(** Stability: the elements with one key come out in the order they
    went in. *)
Lemma insert_sorted_stable {A} (key : A -> Z) reverse (k : Z) x l :
  filter (fun y => key y = k) (insert_sorted key reverse x l) =
  filter (fun y => key y = k) (x :: l).
Proof.
  induction l as [|y l IH]; [done|]. cbn [insert_sorted].
  destruct (if reverse then key y <=? key x else key x <=? key y) eqn:E; [done|].
  rewrite filter_cons, IH, !filter_cons.
  destruct (decide (key y = k)), (decide (key x = k)); try done.
  destruct reverse; lia.
Qed.

Lemma sorted_stable {A} (key : A -> Z) reverse (k : Z) l :
  filter (fun y => key y = k) (sorted key reverse l) = filter (fun y => key y = k) l.
Proof.
  induction l as [|x l IH]; [done|]. cbn [sorted foldr].
  rewrite insert_sorted_stable, !filter_cons. fold (sorted key reverse l).
  by rewrite IH.
Qed.

(** A list that is in order is left as it is. *)
Lemma sorted_id {A} (key : A -> Z) reverse l : in_order key reverse l -> sorted key reverse l = l.
Proof.
  induction l as [|x l IH]; [done|]. intros [Hx Hl]%in_order_cons.
  cbn [sorted foldr]. fold (sorted key reverse l). rewrite IH by done.
  destruct l as [|y l]; [done|]. cbn.
  apply Forall_cons in Hx as [Hxy _].
  destruct reverse; by rewrite (proj2 (Z.leb_le _ _)) by done.
Qed.

Lemma in_order_filter {A} (key : A -> Z) reverse (P : A -> Prop) `{!forall x, Decision (P x)} l :
  in_order key reverse l -> in_order key reverse (filter P l).
Proof.
  induction l as [|x l IH]; [done|]. intros [Hx Hl]%in_order_cons.
  rewrite filter_cons. case_decide; [|by apply IH].
  apply in_order_cons. split; [|by apply IH].
  rewrite Forall_forall in Hx |- *. intros y [_ Hy]%list_elem_of_filter. by apply Hx.
Qed.

Lemma in_order_take {A} (key : A -> Z) reverse n l :
  in_order key reverse l -> in_order key reverse (take n l).
Proof.
  intros H i j x y Hij Hx Hy.
  apply lookup_take_Some in Hx as [Hx _]. apply lookup_take_Some in Hy as [Hy _].
  by apply (H i j).
Qed.

Lemma slice_to_take {A} limit (l : list A) : exists n, slice_to limit l = take n l.
Proof. unfold slice_to. destruct (0 <=? limit); by eexists. Qed.

Lemma slice_to_elem_of {A} limit (l : list A) x : x ∈ slice_to limit l -> x ∈ l.
Proof.
  destruct (slice_to_take limit l) as [n ->].
  intros (i & Hi & _)%elem_of_take. by eapply list_elem_of_lookup_2.
Qed.

Lemma slice_to_length {A} limit (l : list A) :
  length (slice_to limit l) =
  if 0 <=? limit then Nat.min (Z.to_nat limit) (length l)
  else (length l - Z.to_nat (- limit))%nat.
Proof.
  unfold slice_to. destruct (0 <=? limit); rewrite length_take; lia.
Qed.

Lemma in_order_slice_to {A} (key : A -> Z) reverse limit l :
  in_order key reverse l -> in_order key reverse (slice_to limit l).
Proof. destruct (slice_to_take limit l) as [n ->]. apply in_order_take. Qed.

(** What a limit leaves out of a list sorted newest first is not newer
    than what it keeps. *)
Lemma slice_sorted_newest {A} (key : A -> Z) (limit : Z) (l : list A) x x' :
  x ∈ slice_to limit (sorted key true l) -> x' ∈ l ->
  x' ∉ slice_to limit (sorted key true l) -> key x' <= key x.
Proof.
  destruct (slice_to_take limit (sorted key true l)) as [n Hn]. rewrite Hn.
  intros Hx Hx' Hout.
  apply (sorted_elem_of key true) in Hx'. apply list_elem_of_lookup in Hx' as [j Hj].
  apply elem_of_take in Hx as (i & Hi & Hlt).
  destruct (decide (j < n)%nat) as [Hjn|Hjn].
  { destruct Hout. apply elem_of_take. eauto. }
  apply (sorted_in_order key true l i j x x'); [lia|done..].
Qed.

(** ** The audit log queries *)

Lemma filter_filter_and {A} (P Q : A -> Prop) `{!forall x, Decision (P x)}
    `{!forall x, Decision (Q x)} (l : list A) :
  filter Q (filter P l) = filter (fun x => P x /\ Q x) l.
Proof.
  induction l as [|x l IH]; [done|].
  rewrite !filter_cons. destruct (decide (P x)) as [HP|HP].
  - rewrite filter_cons. destruct (decide (Q x)) as [HQ|HQ].
    + rewrite decide_True by done. by rewrite IH.
    + rewrite decide_False by tauto. done.
  - rewrite decide_False by tauto. done.
Qed.

Lemma filter_True {A} (P : A -> Prop) `{!forall x, Decision (P x)} (l : list A) :
  (forall x, P x) -> filter P l = l.
Proof.
  intros HP. induction l as [|x l IH]; [done|].
  rewrite filter_cons, decide_True by done. by rewrite IH.
Qed.

(** The chain of filters of [get_entries] keeps the entries that match
    all the filters given. *)
Lemma get_entries_matching wid vid action who since limit w :
  AuditLogService.get_entries wid vid action who since limit w =
  slice_to limit (sorted timestamp true
    (filter (entry_matches wid vid action who since) (audit_entries w))).
Proof.
  destruct (str_truthy wid) eqn:E1, (str_truthy vid) eqn:E2, (str_truthy who) eqn:E4.
  all: unfold AuditLogService.get_entries; rewrite ?E1, ?E2, ?E4;
    destruct action, since; cbv beta iota zeta;
    rewrite ?filter_filter_and; do 2 f_equal;
    first [ apply list_filter_iff | symmetry; apply filter_True ];
    intros e; unfold entry_matches; rewrite E1, E2, E4; tauto.
Qed.

(** X1.  The timeline of a workflow holds exactly the audit entries of
    that workflow, each as often as the log does, in ascending time;
    entries with the same timestamp stay in the order they were logged.
    When the log itself is in time order -- it is as long as the clock
    never goes back -- the timeline is the entries of the workflow in
    the order they were logged. *)
Theorem timeline_in_time_order (wid : string) (w : World) :
  let timeline := AuditLogService.get_workflow_timeline wid w in
  let logged := filter (fun e => al_workflow_id e = Some wid) (audit_entries w) in
  timeline ≡ₚ logged
  /\ in_order timestamp false timeline
  /\ (forall t, filter (fun e => timestamp e = t) timeline =
                filter (fun e => timestamp e = t) logged)
  /\ (in_order timestamp false (audit_entries w) -> timeline = logged).
Proof.
  intros timeline logged. subst timeline logged.
  unfold AuditLogService.get_workflow_timeline.
  split; [apply sorted_Permutation|]. split; [apply sorted_in_order|].
  split; [intros t; apply sorted_stable|].
  intros H. apply sorted_id. by apply in_order_filter.
Qed.

(** X2.  [get_entries] returns entries of the log that pass every
    filter given, newest first; what it leaves out for the limit are
    the oldest: no entry that passes the filters and is not returned is
    newer than a returned one.  A filter given as the empty string is
    no filter. *)
Theorem get_entries_newest_first (wid vid : option string) (action : option AuditAction)
    (who : option string) (since : option Z) (limit : Z) (w : World) :
  let found := AuditLogService.get_entries wid vid action who since limit w in
  (forall e, e ∈ found -> e ∈ audit_entries w /\ entry_matches wid vid action who since e)
  /\ in_order timestamp true found
  /\ (forall e e', e ∈ found -> e' ∈ audit_entries w ->
        entry_matches wid vid action who since e' -> e' ∉ found ->
        timestamp e' <= timestamp e)
  /\ AuditLogService.get_entries (Some "") (Some "") action (Some "") since limit w
     = AuditLogService.get_entries None None action None since limit w.
Proof.
  intros found. subst found. rewrite get_entries_matching.
  set (matching := filter _ (audit_entries w)).
  destruct (slice_to_take limit (sorted timestamp true matching)) as [n Hn].
  split; [|split; [|split]].
  - intros e He%slice_to_elem_of%sorted_elem_of.
    apply list_elem_of_filter in He. tauto.
  - apply in_order_slice_to, sorted_in_order.
  - rewrite Hn. intros e e' He He' Hm Hout.
    assert (Hin : e' ∈ sorted timestamp true matching).
    { apply sorted_elem_of, list_elem_of_filter. done. }
    apply list_elem_of_lookup in Hin as [j Hj].
    apply elem_of_take in He as (i & Hi & Hlt).
    destruct (decide (j < n)%nat) as [Hjn|Hjn].
    { destruct Hout. apply elem_of_take. eauto. }
    apply (sorted_in_order timestamp true matching i j e e'); [lia|done..].
  - by rewrite !get_entries_matching.
Qed.

(** X3.  With a limit of at least zero [get_entries] returns that many
    entries, or all that pass the filters when there are fewer.  A
    negative limit is not refused: the query then returns all entries
    that pass the filters but the [-limit] oldest. *)
Theorem get_entries_limit (wid vid : option string) (action : option AuditAction)
    (who : option string) (since : option Z) (limit : Z) (w : World) :
  let found := AuditLogService.get_entries wid vid action who since limit w in
  let matching := filter (entry_matches wid vid action who since) (audit_entries w) in
  length found =
    (if 0 <=? limit then Nat.min (Z.to_nat limit) (length matching)
     else (length matching - Z.to_nat (- limit))%nat)
  /\ (0 <= limit -> (length matching <= Z.to_nat limit)%nat -> found ≡ₚ matching).
Proof.
  intros found matching. subst found. rewrite get_entries_matching. fold matching.
  split.
  - by rewrite slice_to_length, sorted_length.
  - intros Hpos Hlen. unfold slice_to. rewrite (proj2 (Z.leb_le _ _)) by done.
    rewrite take_ge by (rewrite sorted_length; lia). apply sorted_Permutation.
Qed.

(** X4.  [GET /hitl/audit] refuses a limit above 1000 with a
    validation error.  Otherwise it takes the action by its name: the
    name of a member of [AuditAction] filters by that member, and every
    member is found by its name; a name no member has is not refused
    and does not filter at all -- the answer is the one without an
    action.  The [total] of the answer is the number of entries
    returned, which a limit of at least zero bounds. *)
Theorem get_audit_log_action_names (wid vid who : option string) (limit : Z) (w : World) :
  (forall a, audit_action_of_value (audit_action_value a) = Some a)
  /\ (forall action, 1000 < limit ->
        HitlApi.get_audit_log wid vid action who limit w
        = Raised (RequestValidationError ["query"; "limit"]))
  /\ (forall a, limit <= 1000 ->
        HitlApi.get_audit_log wid vid (Some (audit_action_value a)) who limit w
        = Ok (length (AuditLogService.get_entries wid vid (Some a) who None limit w),
              AuditLogService.get_entries wid vid (Some a) who None limit w))
  /\ (forall name, (forall a, name <> audit_action_value a) ->
        HitlApi.get_audit_log wid vid (Some name) who limit w
        = HitlApi.get_audit_log wid vid None who limit w)
  /\ (forall action, limit <= 1000 ->
        exists total entries,
          HitlApi.get_audit_log wid vid action who limit w = Ok (total, entries)
          /\ total = length entries
          /\ (0 <= limit -> Z.of_nat total <= limit)).
Proof.
  assert (Hround : forall a, audit_action_of_value (audit_action_value a) = Some a)
    by (by intros []).
  split; [done|]. split; [|split; [|split]].
  - intros action Hbig. unfold HitlApi.get_audit_log.
    by rewrite (proj2 (Z.ltb_lt _ _)).
  - intros a Hle. unfold HitlApi.get_audit_log.
    rewrite (proj2 (Z.ltb_ge _ _)) by done. cbv zeta. rewrite Hround.
    by destruct a.
  - intros name Hname. unfold HitlApi.get_audit_log.
    destruct (1000 <? limit); [done|]. cbv zeta.
    destruct (str_truthy (Some name)); [|done].
    destruct (audit_action_of_value name) as [a|] eqn:E; [|done].
    apply List.find_some in E as [_ E]. apply String.eqb_eq in E.
    by destruct (Hname a).
  - intros action Hle. unfold HitlApi.get_audit_log.
    rewrite (proj2 (Z.ltb_ge _ _)) by done. cbv zeta.
    do 2 eexists. split; [reflexivity|]. split; [done|].
    intros Hpos. rewrite get_entries_matching, slice_to_length, sorted_length.
    rewrite (proj2 (Z.leb_le _ _)) by done. lia.
Qed.

(** ** Statistics *)

Lemma count_by_snoc {A} (key : A -> string) l x :
  count_by key (l ++ [x]) =
  <[key x := S (default 0%nat (count_by key l !! key x))]> (count_by key l).
Proof. unfold count_by. by rewrite foldl_app. Qed.

(** The dictionary [count_by] builds has, for a key that occurs, the
    number of its occurrences, and no entry for a key that does not. *)
Lemma count_by_lookup {A} (key : A -> string) l k :
  count_by key l !! k =
  let n := length (filter (fun x => key x = k) l) in
  if decide (n = 0%nat) then None else Some n.
Proof.
  induction l as [|x l IH] using rev_ind; [apply lookup_empty|].
  rewrite count_by_snoc, filter_app, length_app, filter_cons, filter_nil.
  cbv zeta in IH |- *. destruct (decide (key x = k)) as [->|N].
  - rewrite lookup_insert_eq, IH. cbn [length].
    rewrite (decide_False (P := (_ + 1 = 0)%nat)) by lia.
    case_decide as E; [rewrite E|]; cbn [default]; f_equal; unfold id; lia.
  - rewrite lookup_insert_ne, IH by done.
    cbn [length]. by rewrite Nat.add_0_r.
Qed.

Lemma count_by_sum {A} (key : A -> string) l :
  map_fold (fun _ n acc => (n + acc)%nat) 0%nat (count_by key l) = length l.
Proof.
  induction l as [|x l IH] using rev_ind; [done|].
  rewrite count_by_snoc, length_app. cbn [length].
  set (m := count_by key l) in *.
  destruct (m !! key x) as [n|] eqn:E; cbn [from_option]; unfold id.
  - rewrite <- insert_delete_eq.
    rewrite map_fold_insert_L; [|intros; lia|by rewrite lookup_delete_eq].
    rewrite (map_fold_delete_L _ _ (key x) n m) in IH; [|intros; lia|done]. lia.
  - rewrite map_fold_insert_L; [|intros; lia|done]. lia.
Qed.

(** X5.  The statistics of the state manager count every stored
    workflow once: [total] is their number; [by_status] has, under the
    value of each status that some workflow has, the number of
    workflows with that status, and no key at all -- not a zero -- for
    a status no workflow has, nor any other key; the counts add up to
    [total]. *)
Theorem workflow_stats_count (values : list Workflow) :
  let stats := StateManager.get_stats values in
  StateManager.total stats = length values
  /\ (forall s,
        StateManager.by_status stats !! workflow_status_value s =
        let n := length (filter (fun wf => status wf = s) values) in
        if decide (n = 0%nat) then None else Some n)
  /\ (forall k, is_Some (StateManager.by_status stats !! k) ->
        exists s, k = workflow_status_value s /\ exists wf, wf ∈ values /\ status wf = s)
  /\ map_fold (fun _ n acc => (n + acc)%nat) 0%nat (StateManager.by_status stats)
     = StateManager.total stats.
Proof.
  intros stats. subst stats. cbn [StateManager.get_stats StateManager.total
    StateManager.by_status].
  split; [done|]. split; [|split].
  - intros s. rewrite count_by_lookup. cbv zeta.
    rewrite (list_filter_iff _ (fun wf => status wf = s)); [done|].
    intros wf. split; [|by intros ->].
    by destruct (status wf), s.
  - intros k [n Hn]. rewrite count_by_lookup in Hn. cbv zeta in Hn.
    case_decide as E; [done|].
    destruct (filter _ values) as [|wf l] eqn:Ef; [done|].
    assert (Hin : wf ∈ filter (fun x => workflow_status_value (status x) = k) values)
      by (rewrite Ef; left).
    apply list_elem_of_filter in Hin as [Hk Hin]. eauto.
  - apply count_by_sum.
Qed.

(** X6.  The statistics of the audit log count every entry once:
    [by_action] has, under the name of each action that was logged, the
    number of its entries, and no key for an action that was not; the
    counts add up to [total_entries]; [total_comments] is the number of
    comments under all targets together. *)
Theorem audit_stats_count (comments : CommentStore) (w : World) :
  let stats := AuditLogService.get_stats comments w in
  AuditLogService.total_entries stats = length (audit_entries w)
  /\ (forall a,
        AuditLogService.by_action stats !! audit_action_value a =
        let n := length (filter (fun e => audit_action e = a) (audit_entries w)) in
        if decide (n = 0%nat) then None else Some n)
  /\ map_fold (fun _ n acc => (n + acc)%nat) 0%nat (AuditLogService.by_action stats)
     = AuditLogService.total_entries stats
  /\ AuditLogService.total_comments stats = length (mjoin comments.*2).
Proof.
  intros stats. subst stats. cbn [AuditLogService.get_stats AuditLogService.total_entries
    AuditLogService.by_action AuditLogService.total_comments].
  split; [done|]. split; [|split].
  - intros a. rewrite count_by_lookup. cbv zeta.
    rewrite (list_filter_iff _ (fun e => audit_action e = a)); [done|].
    intros e. split; [|by intros ->].
    by destruct (audit_action e), a.
  - apply count_by_sum.
  - induction comments as [|[t l] rest IH]; [done|].
    cbn [foldr fmap list_fmap mjoin list_join snd]. rewrite length_app. by rewrite IH.
Qed.

(** ** Listing the workflows *)

Lemma list_workflows_matching st repo limit values :
  StateManager.list_workflows st repo limit values =
  slice_to limit (sorted created_at true (filter (workflow_matches st repo) values)).
Proof.
  destruct (str_truthy repo) eqn:E.
  all: unfold StateManager.list_workflows; rewrite ?E; destruct st; cbv beta iota zeta;
    rewrite ?filter_filter_and; do 2 f_equal;
    first [ apply list_filter_iff | symmetry; apply filter_True ];
    intros wf; unfold workflow_matches; rewrite E; tauto.
Qed.

(** X7.  [list_workflows] returns stored workflows that have the status
    asked for and the repository asked for, newest first; what the
    limit leaves out are the oldest.  With a limit of at least zero it
    returns at most that many.  An empty repository name is no
    filter. *)
Theorem list_workflows_newest_first (st : option WorkflowStatus) (repo : option string)
    (limit : Z) (values : list Workflow) :
  let found := StateManager.list_workflows st repo limit values in
  (forall wf, wf ∈ found ->
     wf ∈ values
     /\ (forall s, st = Some s -> status wf = s)
     /\ (forall r, repo = Some r -> r <> "" -> repository wf = r))
  /\ in_order created_at true found
  /\ (forall wf wf', wf ∈ found -> wf' ∈ values -> workflow_matches st repo wf' ->
        wf' ∉ found -> created_at wf' <= created_at wf)
  /\ (0 <= limit ->
      length found = Nat.min (Z.to_nat limit)
                       (length (filter (workflow_matches st repo) values)))
  /\ StateManager.list_workflows st (Some "") limit values
     = StateManager.list_workflows st None limit values.
Proof.
  intros found. subst found. rewrite list_workflows_matching.
  set (matching := filter _ values).
  destruct (slice_to_take limit (sorted created_at true matching)) as [n Hn].
  split; [|split; [|split; [|split]]].
  - intros wf Hwf%slice_to_elem_of%sorted_elem_of.
    apply list_elem_of_filter in Hwf as [[Hs Hr] Hin]. split; [done|]. split.
    + by intros s ->.
    + intros r -> Hne. unfold str_truthy in Hr.
      destruct (String.eqb_spec r ""); [done|]. cbn in Hr. congruence.
  - apply in_order_slice_to, sorted_in_order.
  - rewrite Hn. intros wf wf' Hwf Hwf' Hm Hout.
    assert (Hin : wf' ∈ sorted created_at true matching).
    { apply sorted_elem_of, list_elem_of_filter. done. }
    apply list_elem_of_lookup in Hin as [j Hj].
    apply elem_of_take in Hwf as (i & Hi & Hlt).
    destruct (decide (j < n)%nat) as [Hjn|Hjn].
    { destruct Hout. apply elem_of_take. eauto. }
    apply (sorted_in_order created_at true matching i j wf wf'); [lia|done..].
  - intros Hpos. rewrite slice_to_length, sorted_length.
    by rewrite (proj2 (Z.leb_le _ _)).
  - by rewrite !list_workflows_matching.
Qed.

(** X8.  [GET /approvals] lists workflows that await approval, and at
    most 50 of them: when more than 50 await approval only the 50 most
    recently created are listed, and the [total] of the answer is the
    number listed, not the number awaiting. *)
Theorem pending_approvals_capped (values : list Workflow) :
  let awaiting := filter (fun wf => status wf = AWAITING_APPROVAL) values in
  let answer := Main.get_pending_approvals values in
  answer.1 = length answer.2
  /\ answer.1 = Nat.min 50 (length awaiting)
  /\ (forall wf, wf ∈ answer.2 -> wf ∈ values /\ status wf = AWAITING_APPROVAL)
  /\ in_order created_at true answer.2
  /\ ((length awaiting <= 50)%nat -> answer.2 ≡ₚ awaiting)
  /\ (forall wf wf', wf ∈ answer.2 -> wf' ∈ awaiting -> wf' ∉ answer.2 ->
        created_at wf' <= created_at wf).
Proof.
  intros awaiting answer. subst answer awaiting.
  unfold Main.get_pending_approvals, StateManager.get_pending_approvals. cbv zeta.
  cbn [fst snd]. rewrite list_workflows_matching.
  assert (Hf : filter (workflow_matches (Some AWAITING_APPROVAL) None) values
               = filter (fun wf => status wf = AWAITING_APPROVAL) values).
  { apply list_filter_iff. intros wf. unfold workflow_matches. cbn. tauto. }
  rewrite Hf. set (awaiting := filter _ values).
  split; [done|]. split; [|split; [|split; [|split]]].
  - rewrite slice_to_length, sorted_length. done.
  - intros wf Hwf%slice_to_elem_of%sorted_elem_of.
    by apply list_elem_of_filter in Hwf as [? ?].
  - apply in_order_slice_to, sorted_in_order.
  - intros Hle. unfold slice_to. cbn [Z.leb].
    rewrite take_ge by (rewrite sorted_length; cbn; lia). apply sorted_Permutation.
  - intros wf wf'. apply slice_sorted_newest.
Qed.

(** ** Writing to the store *)

Lemma update_first_ids sid f l :
  (forall s, step_id (f s) = step_id s) ->
  step_id <$> update_first sid f l = step_id <$> l.
Proof.
  intros Hf. induction l as [|s l IH]; [done|]. cbn.
  destruct (String.eqb (step_id s) sid); cbn; [by rewrite Hf | by rewrite IH].
Qed.

Lemma find_step_update_first sid f l :
  (forall s, step_id (f s) = step_id s) ->
  find_step sid (update_first sid f l) = f <$> find_step sid l.
Proof.
  intros Hf. unfold find_step. induction l as [|s l IH]; [done|]. cbn.
  destruct (String.eqb (step_id s) sid) eqn:E; cbn; [by rewrite Hf, E | by rewrite E, IH].
Qed.

Lemma find_step_update_first_ne sid sid' f l :
  sid' <> sid -> (forall s, step_id (f s) = step_id s) ->
  find_step sid' (update_first sid f l) = find_step sid' l.
Proof.
  intros Hne Hf. unfold find_step. induction l as [|s l IH]; [done|]. cbn.
  destruct (String.eqb_spec (step_id s) sid) as [E|E]; cbn.
  - rewrite Hf. destruct (String.eqb_spec (step_id s) sid'); [congruence | done].
  - by rewrite IH.
Qed.

Lemma update_first_absent sid f l : find_step sid l = None -> update_first sid f l = l.
Proof.
  unfold find_step. induction l as [|s l IH]; [done|]. cbn.
  destruct (String.eqb (step_id s) sid); [done|]. intros H. by rewrite IH.
Qed.

(** X9.  [update_step] on a workflow that is not stored changes
    nothing.  On a stored workflow it stamps [updated_at] and changes
    the first step with the given id and no other: the steps keep their
    number, ids and order, and with an id no step has they all stay as
    they are.  The step gets the status; it gets the output and the
    error message only when they are not empty, so neither can be
    cleared; [started_at] is set for [SCANNING], [completed_at] for
    [COMPLETED] and [FAILED], and for any other status both stay. *)
Theorem update_step_touches_one_step (wid sid : string) (st : WorkflowStatus)
    (out : option OutputData) (err : option string) (w : World) :
  (get_workflow wid w = None -> update_step wid sid st out err w = w)
  /\ (forall wf, get_workflow wid w = Some wf ->
      exists L,
        update_step wid sid st out err w
          = put wid (set_updated_at (utcnow w) (set_steps L wf)) w
        /\ step_id <$> L = step_id <$> steps wf
        /\ (forall sid', sid' <> sid -> find_step sid' L = find_step sid' (steps wf))
        /\ (find_step sid (steps wf) = None -> L = steps wf)
        /\ (forall s, find_step sid (steps wf) = Some s ->
            exists s', find_step sid L = Some s'
              /\ step_status s' = st
              /\ (out = None \/ out = Some OutEmpty -> output_data s' = output_data s)
              /\ (forall d, out = Some d -> d <> OutEmpty -> output_data s' = d)
              /\ (err = None \/ err = Some "" -> error_message s' = error_message s)
              /\ (forall e, err = Some e -> e <> "" -> error_message s' = Some e)
              /\ (st = SCANNING ->
                    started_at s' = Some (utcnow w)
                    /\ step_completed_at s' = step_completed_at s)
              /\ (st = COMPLETED \/ st = FAILED ->
                    step_completed_at s' = Some (utcnow w)
                    /\ started_at s' = started_at s)
              /\ (st <> SCANNING -> st <> COMPLETED -> st <> FAILED ->
                    started_at s' = started_at s
                    /\ step_completed_at s' = step_completed_at s))).
Proof.
  split.
  { intros H. unfold update_step. by rewrite H. }
  intros wf Hg. eexists. split; [by apply update_step_get|].
  unfold mark.
  assert (Hid : forall s, step_id (update_step_fields st out err (utcnow w) s) = step_id s)
    by done.
  split; [by apply update_first_ids|].
  split; [intros sid' Hne; by apply find_step_update_first_ne|].
  split; [apply update_first_absent|].
  intros s Hs. rewrite find_step_update_first, Hs by done. eexists. split; [done|].
  cbn [update_step_fields step_status output_data error_message started_at
       step_completed_at].
  split; [done|]. split; [by intros [-> | ->]|].
  split; [intros d -> Hd; by destruct d|].
  split; [by intros [-> | ->]|].
  split.
  { intros e -> He. unfold str_truthy. by destruct (String.eqb_spec e ""). }
  split; [by intros ->|].
  split.
  { intros Hst. repeat case_decide; first [done | tauto | by destruct Hst; subst]. }
  intros N1 N2 N3. repeat case_decide; first [done | tauto].
Qed.

(** X10.  The store round trip.  A workflow just created is found
    under its id: [PENDING], at step [scan], with the five fixed steps
    all [PENDING]; creating it leaves every other workflow, the
    approvals and the audit log alone, and replaces, without a check,
    whatever was stored under the id.  [delete_workflow] always answers
    [True]; afterwards nothing is found under the id and the other
    workflows are as before, so deleting what was created on a free id
    restores the store, and deleting under a free id changes
    nothing. *)
Theorem workflow_store_round_trip (wid repo br trig : string) (md : Metadata) (w : World) :
  let created := create_workflow wid repo br trig md w in
  let deleted := StateManager.delete_workflow wid created in
  (exists wf, get_workflow wid created = Some wf
     /\ workflow_id wf = wid /\ repository wf = repo /\ branch wf = br
     /\ metadata wf = md /\ triggered_by wf = trig
     /\ status wf = PENDING /\ current_step wf = Some "scan"
     /\ step_id <$> steps wf = canonical_ids
     /\ step_status <$> steps wf = [PENDING; PENDING; PENDING; PENDING; PENDING]
     /\ created_at wf = utcnow w)
  /\ (forall wid', wid' <> wid -> get_workflow wid' created = get_workflow wid' w)
  /\ same_records w created
  /\ create_workflow wid repo br trig md created = created
  /\ deleted.1 = true
  /\ get_workflow wid deleted.2 = None
  /\ (forall wid', wid' <> wid -> get_workflow wid' deleted.2 = get_workflow wid' w)
  /\ (get_workflow wid w = None ->
        deleted.2 = w /\ StateManager.delete_workflow wid w = (true, w)).
Proof.
  intros created deleted. subst deleted created.
  unfold create_workflow, _save_workflow, StateManager.delete_workflow, get_workflow.
  cbn [workflows set_workflows set_steps set_current_step new_Workflow workflow_id
       fst snd].
  rewrite lookup_insert_eq. rewrite bool_decide_eq_true_2 by (by eexists).
  cbn [workflows set_workflows].
  split; [eexists; split; [reflexivity|done]|].
  split; [intros wid' Hne; by rewrite lookup_insert_ne|].
  split; [done|].
  split; [by rewrite insert_insert_eq|].
  split; [done|].
  split; [by rewrite lookup_delete_eq|].
  split; [intros wid' Hne; by rewrite lookup_delete_ne, lookup_insert_ne|].
  intros Hnone. rewrite bool_decide_eq_false_2 by (rewrite Hnone; by intros [? ?]).
  split; [|done]. rewrite delete_insert_eq, delete_id by done. by destruct w.
Qed.

(** ** The paths of the execution unit *)

Lemma wf_at_the_workflow wid md repo br L P w :
  wf_at wid md repo br L P w ->
  steps (the_workflow wid w) = L /\ P (the_workflow wid w).
Proof. intros (wf & <- & HL & HP)%wf_at_status. done. Qed.

(** X11.  When the scan completes and finds no vulnerability, the unit
    ends with the workflow [COMPLETED] right after the poll: neither
    the assessor nor the remediator is called; the assess step is
    [COMPLETED] with the note that there were no vulnerabilities, and
    [decide], [remediate] and [complete] are left [PENDING]. *)
Theorem clean_scan_completes (cfg : Settings) (env : Env) (n : nat)
    (request : WorkflowRequest) (trig wid : string) (w0 : World) (res : ScanResult) :
  let md := request_metadata request in
  let repo := req_repository request in
  let br := req_branch request in
  let r := run env n (_execute_workflow cfg wid (start_workflow request trig wid w0)) in
  t_error (respond env n (the_trigger md repo br)) = None ->
  result (the_poll cfg env n md repo br) = Ok res ->
  sr_status res = Some "completed" ->
  _extract_vulnerabilities res = [] ->
  result r = Ok tt
  /\ calls r = the_trigger md repo br :: calls (the_poll cfg env n md repo br)
  /\ count_calls (is_kind AssessCall) (calls r) = 0%nat
  /\ count_calls (is_kind RemediateBatch) (calls r) = 0%nat
  /\ status (the_workflow wid (final r)) = COMPLETED
  /\ step_statuses wid (final r) = [COMPLETED; COMPLETED; PENDING; PENDING; PENDING]
  /\ output_data <$> find_step "assess" (steps (the_workflow wid (final r)))
     = Some OutNoVulnerabilities.
Proof.
  intros md repo br r Htrig Hres Hdone Hvs.
  destruct (unit_run cfg env n request trig wid w0) as [Hpost _].
  fold r md repo br in Hpost.
  unfold unit_post in Hpost. rewrite Htrig in Hpost. cbv zeta in Hpost.
  fold (the_poll cfg env n md repo br) in Hpost.
  destruct Hpost as (res' & t1 & t2 & Hres' & Hpost).
  rewrite Hres in Hres'. injection Hres' as <-.
  destruct (decide (sr_status res = Some "completed")) as [_|N]; [|done].
  destruct Hpost as (t3 & t4 & Hpost). rewrite Hvs in Hpost.
  destruct Hpost as (Hr & Hcalls & [Hs Hst]%wf_at_the_workflow).
  split; [done|]. split; [done|].
  rewrite Hcalls, !count_calls_cons. unfold the_poll.
  rewrite !poll_run_only_polls by done.
  split; [done|]. split; [done|]. split; [done|].
  unfold step_statuses. rewrite Hs. done.
Qed.

Lemma clean_scan_completes_witness :
  _extract_vulnerabilities scan_clean = []
  /\ status (the_workflow "wf-1"
       (final (run clean_scan_env 0
                 (_execute_workflow default_settings "wf-1" started_world))))
     = COMPLETED.
Proof.
  split; [reflexivity|].
  apply (clean_scan_completes default_settings clean_scan_env 0 sample_request
           "api" "wf-1" (empty_world 1000) scan_clean); reflexivity.
Defined.

(** X12.  When the scanner refuses to start the scan, the unit ends
    after that one call: it never polls; the workflow and the scan step
    are [FAILED], the other steps [PENDING], and the scan step carries
    the error text of the refusal -- unless that text is empty, in
    which case the step has no error message. *)
Theorem refused_scan_fails_at_once (cfg : Settings) (env : Env) (n : nat)
    (request : WorkflowRequest) (trig wid : string) (w0 : World) (e : string) :
  let md := request_metadata request in
  let repo := req_repository request in
  let br := req_branch request in
  let r := run env n (_execute_workflow cfg wid (start_workflow request trig wid w0)) in
  t_error (respond env n (the_trigger md repo br)) = Some e ->
  result r = Ok tt
  /\ calls r = [the_trigger md repo br]
  /\ status (the_workflow wid (final r)) = FAILED
  /\ step_statuses wid (final r) = [FAILED; PENDING; PENDING; PENDING; PENDING]
  /\ error_message <$> find_step "scan" (steps (the_workflow wid (final r)))
     = Some (if String.eqb e "" then None else Some e).
Proof.
  intros md repo br r Htrig.
  destruct (unit_run cfg env n request trig wid w0) as [Hpost _].
  fold r md repo br in Hpost.
  unfold unit_post in Hpost. rewrite Htrig in Hpost.
  destruct Hpost as (Hr & Hcalls & t1 & t2 & [Hs Hst]%wf_at_the_workflow).
  split; [done|]. split; [done|]. split; [done|].
  unfold step_statuses. rewrite Hs. split; [done|].
  cbn. unfold str_truthy. by destruct (String.eqb e "").
Qed.

Lemma refused_scan_fails_at_once_witness :
  t_error scan_refused = Some "Status 503"
  /\ calls (run refused_scan_env 0
              (_execute_workflow default_settings "wf-1" started_world))
     = [trigger_scan "acme/api" "main" ["dependency"]].
Proof.
  split; [reflexivity|].
  apply (refused_scan_fails_at_once default_settings refused_scan_env 0 sample_request
           "api" "wf-1" (empty_world 1000) "Status 503"); reflexivity.
Defined.

(** A scanner that never says [completed] or [failed] is polled until
    the time is used up. *)
Lemma poll_loop_never_finished env sid mw pi :
  0 < pi -> never_finished env sid ->
  forall fuel el m w,
    (Z.to_nat (ceil_div (mw - el) pi) < fuel)%nat ->
    result (run env m (poll_loop fuel sid mw pi el w)) = Ok polling_timeout
    /\ calls (run env m (poll_loop fuel sid mw pi el w))
       = mjoin (replicate (Z.to_nat (ceil_div (mw - el) pi))
                          [get_scan_results sid; sleep pi]).
Proof.
  intros Hpi Hnever. induction fuel as [|fuel IH]; intros el m w Hf; [lia|].
  cbn [poll_loop]. destruct (Z.ltb_spec el mw) as [Hlt|Hge].
  - rewrite (poll_budget_step mw pi el) in Hf |- * by done.
    exec. cbn [run result calls bind_outcome].
    destruct (Hnever m) as [N1 N2]. cbv zeta in N1, N2.
    rewrite (proj2 (String.eqb_neq _ _) N1), (proj2 (String.eqb_neq _ _) N2).
    cbn [run result calls bind_outcome].
    edestruct (IH (el + pi)) as [E1 E2]; [lia|]. rewrite E1, E2. done.
  - pose proof (ceil_div_nonpos (mw - el) pi Hpi). cbn.
    replace (Z.to_nat (ceil_div (mw - el) pi)) with 0%nat by lia. done.
Qed.

(** X13.  When the scanner never reports the end of the scan, the unit
    polls exactly ⌈timeout / 5⌉ times, sleeping five seconds after each
    poll, and then fails the workflow: the scan step is [FAILED] with
    the message ["Polling timeout"].  With a timeout of zero or less it
    does not poll at all. *)
Theorem unfinished_scan_times_out (cfg : Settings) (env : Env) (n : nat)
    (request : WorkflowRequest) (trig wid : string) (w0 : World) :
  let md := request_metadata request in
  let repo := req_repository request in
  let br := req_branch request in
  let r := run env n (_execute_workflow cfg wid (start_workflow request trig wid w0)) in
  let scan_id := t_scan_id (respond env n (the_trigger md repo br)) in
  t_error (respond env n (the_trigger md repo br)) = None ->
  never_finished env scan_id ->
  result r = Ok tt
  /\ calls r = the_trigger md repo br ::
               mjoin (replicate (Z.to_nat (ceil_div (workflow_timeout_seconds cfg) 5))
                                [get_scan_results scan_id; sleep 5])
  /\ (workflow_timeout_seconds cfg <= 0 -> calls r = [the_trigger md repo br])
  /\ status (the_workflow wid (final r)) = FAILED
  /\ step_statuses wid (final r) = [FAILED; PENDING; PENDING; PENDING; PENDING]
  /\ error_message <$> find_step "scan" (steps (the_workflow wid (final r)))
     = Some (Some "Polling timeout").
Proof.
  intros md repo br r scan_id Htrig Hnever.
  destruct (poll_loop_never_finished env scan_id (workflow_timeout_seconds cfg) 5
              eq_refl Hnever (poll_fuel (workflow_timeout_seconds cfg)) 0 (S n)
              (empty_world 0) (poll_fuel_enough _ 5 eq_refl)) as [Hres Hpolls].
  rewrite Z.sub_0_r in Hpolls.
  destruct (unit_run cfg env n request trig wid w0) as [Hpost _].
  fold r md repo br in Hpost.
  unfold unit_post in Hpost. rewrite Htrig in Hpost. cbv zeta in Hpost.
  fold scan_id in Hpost. unfold poll_run, poll_scan_completion in Hpost.
  destruct Hpost as (res' & t1 & t2 & Hres' & Hpost).
  rewrite Hres in Hres'. injection Hres' as <-.
  destruct (decide (sr_status polling_timeout = Some "completed")) as [N|_]; [done|].
  destruct Hpost as (Hr & Hcalls & [Hs Hst]%wf_at_the_workflow).
  rewrite Hpolls in Hcalls.
  split; [done|]. split; [done|]. split.
  { intros Hle. rewrite Hcalls.
    pose proof (ceil_div_nonpos (workflow_timeout_seconds cfg) 5 eq_refl Hle).
    replace (Z.to_nat (ceil_div (workflow_timeout_seconds cfg) 5)) with 0%nat by lia.
    done. }
  split; [done|]. unfold step_statuses. rewrite Hs. done.
Qed.

Lemma unfinished_scan_times_out_witness :
  never_finished stuck_scan_env (Some "scan-1")
  /\ count_calls (is_kind GetScanResults)
       (calls (run stuck_scan_env 0
                 (_execute_workflow default_settings "wf-1" started_world)))
     = 120%nat.
Proof.
  split; [intros m; split; discriminate|].
  destruct (unfinished_scan_times_out default_settings stuck_scan_env 0 sample_request
              "api" "wf-1" (empty_world 1000) eq_refl) as (_ & Hcalls & _).
  { intros m; split; discriminate. }
  unfold started_world. rewrite Hcalls. reflexivity.
Defined.

(** X14.  When the assessor answers with an error, the unit ends
    there: the workflow and the assess step are [FAILED], the scan step
    stays [COMPLETED], and the remediator is never called.  The assess
    step carries the error text, unless the text is empty. *)
Theorem failed_assessment_fails_workflow (cfg : Settings) (env : Env) (n : nat)
    (request : WorkflowRequest) (trig wid : string) (w0 : World) (res : ScanResult)
    (e : string) :
  let md := request_metadata request in
  let repo := req_repository request in
  let br := req_branch request in
  let r := run env n (_execute_workflow cfg wid (start_workflow request trig wid w0)) in
  let p := the_poll cfg env n md repo br in
  let assess := assess_vulnerabilities (_extract_vulnerabilities res) repo in
  t_error (respond env n (the_trigger md repo br)) = None ->
  result p = Ok res ->
  sr_status res = Some "completed" ->
  _extract_vulnerabilities res <> [] ->
  a_error (respond env (n + length (the_trigger md repo br :: calls p)) assess) = Some e ->
  result r = Ok tt
  /\ calls r = (the_trigger md repo br :: calls p) ++ [assess]
  /\ count_calls (is_kind RemediateBatch) (calls r) = 0%nat
  /\ status (the_workflow wid (final r)) = FAILED
  /\ step_statuses wid (final r) = [COMPLETED; FAILED; PENDING; PENDING; PENDING]
  /\ error_message <$> find_step "assess" (steps (the_workflow wid (final r)))
     = Some (if String.eqb e "" then None else Some e).
Proof.
  intros md repo br r p assess Htrig Hres Hdone Hvs Herr.
  destruct (unit_run cfg env n request trig wid w0) as [Hpost _].
  fold r md repo br in Hpost.
  unfold unit_post in Hpost. rewrite Htrig in Hpost. cbv zeta in Hpost.
  fold (the_poll cfg env n md repo br) in Hpost. fold p in Hpost.
  destruct Hpost as (res' & t1 & t2 & Hres' & Hpost).
  rewrite Hres in Hres'. injection Hres' as <-.
  destruct (decide (sr_status res = Some "completed")) as [_|N]; [|done].
  destruct Hpost as (t3 & t4 & Hpost).
  subst assess. destruct (_extract_vulnerabilities res) as [|v vs] eqn:Ev; [done|].
  cbv zeta in Hpost. rewrite Herr in Hpost.
  destruct Hpost as (Hr & Hcalls & [Hs Hst]%wf_at_the_workflow).
  split; [done|]. split; [done|]. split.
  { rewrite Hcalls, count_calls_app, count_calls_cons. subst p. unfold the_poll.
    by rewrite poll_run_only_polls. }
  split; [done|]. unfold step_statuses. rewrite Hs. split; [done|].
  cbn. unfold str_truthy. by destruct (String.eqb e "").
Qed.

Lemma failed_assessment_fails_workflow_witness :
  a_error assessment_refused = Some "Status 500"
  /\ step_statuses "wf-1"
       (final (run failed_assessment_env 0
                 (_execute_workflow default_settings "wf-1" started_world)))
     = [COMPLETED; FAILED; PENDING; PENDING; PENDING].
Proof.
  split; [reflexivity|].
  apply (failed_assessment_fails_workflow default_settings failed_assessment_env 0
           sample_request "api" "wf-1" (empty_world 1000) scan_completed "Status 500");
    first [reflexivity | discriminate].
Defined.

(** The decision loop raises as soon as it meets an assessment that is
    not an object. *)
Lemma categorize_raises cfg ac l : forall acc,
  AssessmentOther ∈ l ->
  categorize cfg ac l acc = Raised (AttributeError "object has no attribute 'get'").
Proof.
  induction l as [|[a|] l IH]; intros acc Hin.
  - by apply elem_of_nil in Hin.
  - apply elem_of_cons in Hin as [?|Hin]; [done|]. cbn. by apply IH.
  - done.
Qed.

(** X15.  When the list of assessments holds something that is not an
    object, the decision loop raises, the handler of [_execute_workflow]
    catches the exception and the unit ends normally with the workflow
    [FAILED] -- while no step is [FAILED]: scan and assess stay
    [COMPLETED] and the rest [PENDING].  The remediator is not called,
    not even for the assessments before the malformed one. *)
Theorem malformed_assessment_fails_workflow (cfg : Settings) (env : Env) (n : nat)
    (request : WorkflowRequest) (trig wid : string) (w0 : World) (res : ScanResult) :
  let md := request_metadata request in
  let repo := req_repository request in
  let br := req_branch request in
  let r := run env n (_execute_workflow cfg wid (start_workflow request trig wid w0)) in
  let p := the_poll cfg env n md repo br in
  let assess := assess_vulnerabilities (_extract_vulnerabilities res) repo in
  let answer := respond env (n + length (the_trigger md repo br :: calls p)) assess in
  t_error (respond env n (the_trigger md repo br)) = None ->
  result p = Ok res ->
  sr_status res = Some "completed" ->
  _extract_vulnerabilities res <> [] ->
  a_error answer = None ->
  AssessmentOther ∈ a_assessments answer ->
  result r = Ok tt
  /\ calls r = (the_trigger md repo br :: calls p) ++ [assess]
  /\ count_calls (is_kind RemediateBatch) (calls r) = 0%nat
  /\ status (the_workflow wid (final r)) = FAILED
  /\ step_statuses wid (final r) = [COMPLETED; COMPLETED; PENDING; PENDING; PENDING].
Proof.
  intros md repo br r p assess answer Htrig Hres Hdone Hvs Herr Hbad.
  destruct (unit_run cfg env n request trig wid w0) as [Hpost _].
  fold r md repo br in Hpost.
  unfold unit_post in Hpost. rewrite Htrig in Hpost. cbv zeta in Hpost.
  fold (the_poll cfg env n md repo br) in Hpost. fold p in Hpost.
  destruct Hpost as (res' & t1 & t2 & Hres' & Hpost).
  rewrite Hres in Hres'. injection Hres' as <-.
  destruct (decide (sr_status res = Some "completed")) as [_|N]; [|done].
  destruct Hpost as (t3 & t4 & Hpost).
  subst answer assess. destruct (_extract_vulnerabilities res) as [|v vs] eqn:Ev; [done|].
  cbv zeta in Hpost. rewrite Herr in Hpost.
  unfold decide_and_complete_post in Hpost.
  rewrite (categorize_raises _ _ _ _ Hbad) in Hpost.
  destruct (a_assessments _) as [|a0 l0]; [by apply elem_of_nil in Hbad|].
  destruct Hpost as (Hcalls & Hr & [Hs Hst]%wf_at_the_workflow).
  split; [done|]. split; [done|]. split.
  { rewrite Hcalls, count_calls_app, count_calls_cons. subst p. unfold the_poll.
    by rewrite poll_run_only_polls. }
  split; [done|]. unfold step_statuses. rewrite Hs. done.
Qed.

Lemma malformed_assessment_fails_workflow_witness :
  AssessmentOther ∈ a_assessments assessment_malformed
  /\ status (the_workflow "wf-1"
       (final (run malformed_assessment_env 0
                 (_execute_workflow default_settings "wf-1" started_world))))
     = FAILED.
Proof.
  split; [right; left|].
  apply (malformed_assessment_fails_workflow default_settings malformed_assessment_env 0
           sample_request "api" "wf-1" (empty_world 1000) scan_completed);
    first [reflexivity | discriminate | (right; left)].
Defined.




(** ** What the decision stage records *)

Lemma keeps_remediation_refl wid w : keeps_remediation wid w w.
Proof. intros wf H. exists wf. repeat split; auto. Qed.

Lemma keeps_remediation_trans wid w1 w2 w3 :
  keeps_remediation wid w1 w2 -> keeps_remediation wid w2 w3 -> keeps_remediation wid w1 w3.
Proof.
  intros H1 H2 wf Hwf.
  destruct (H1 wf Hwf) as (wf' & Hwf' & ? & ? & ? & ? & ? & ?).
  destruct (H2 wf' Hwf') as (wf'' & Hwf'' & ? & ? & ? & ? & ? & ?).
  exists wf''. repeat split; congruence.
Qed.

Lemma keeps_remediation_overwrite wid wid' (f : Workflow -> Workflow) w :
  (forall wf, steps (f wf) = steps wf /\ metadata (f wf) = metadata wf
              /\ repository (f wf) = repository wf /\ branch (f wf) = branch wf
              /\ wf_auto_remediated (f wf) = wf_auto_remediated wf
              /\ remediation_ids (f wf) = remediation_ids wf) ->
  keeps_remediation wid w (on_workflow wid' f w).
Proof.
  intros Hf wf Hwf. rewrite get_workflow_on_workflow, Hwf.
  case_decide; [|exists wf; repeat split; auto].
  exists (f wf). destruct (Hf wf) as (? & ? & ? & ? & ? & ?). repeat split; auto.
Qed.

Lemma keeps_remediation_same_workflows wid w w' :
  workflows w' = workflows w -> keeps_remediation wid w w'.
Proof.
  intros E wf Hwf. exists wf. unfold get_workflow in *. rewrite E.
  repeat split; auto.
Qed.

Lemma apply_op_keeps_remediation wid w op : keeps_remediation wid w (apply_op w op).
Proof.
  destruct op as [wid' | request | request aid eid | aid decision eid | | d]; cbn.
  - unfold api_cancel_workflow, cancel_workflow.
    destruct (get_workflow wid' w) eqn:E; [|apply keeps_remediation_refl].
    match goal with |- context [get_workflow wid' ?x] =>
      destruct (get_workflow wid' x) end; cbn [snd];
    (eapply keeps_remediation_trans; [eapply keeps_remediation_trans|]);
      apply keeps_remediation_overwrite; intros wf; cbn; auto 10.
  - unfold api_reject. cbn [snd].
    destruct (get_workflow (ab_workflow_id request) w) eqn:E; [|apply keeps_remediation_refl].
    (eapply keeps_remediation_trans; [eapply keeps_remediation_trans|]);
      apply keeps_remediation_overwrite; intros wf; cbn; auto 10.
  - unfold create_approval. destruct (expiry_after _ _); [|apply keeps_remediation_refl].
    by apply keeps_remediation_same_workflows.
  - unfold decide_approval. destruct (approvals_store w !! aid); [|apply keeps_remediation_refl].
    destruct (negb _); [apply keeps_remediation_refl|].
    by apply keeps_remediation_same_workflows.
  - by apply keeps_remediation_same_workflows.
  - by apply keeps_remediation_same_workflows.
Qed.

Lemma interfere_keeps_remediation wid ops : forall w,
  keeps_remediation wid w (foldl apply_op w ops).
Proof.
  induction ops as [|op ops IH]; intros w; cbn; [apply keeps_remediation_refl|].
  eapply keeps_remediation_trans; [apply apply_op_keeps_remediation | apply IH].
Qed.

(** X17.  When the decision stage sends a batch to the remediator, it
    records the answer in the workflow only if the answer is no error:
    then [auto_remediated] becomes the number of fixes the remediator
    reports and the batch id is appended to [remediation_ids]; after an
    error answer both stay as they were and the stage goes on as if
    nothing had happened.  Either way the stage ends normally after
    that one call and the remediate step reports the number of findings
    sent as auto-remediated.  This holds whatever requests are served
    while the stage waits for the remediator. *)
Theorem remediation_answer_recorded (cfg : Settings) (env : Env) (m : nat) (wid : string)
    (w : World) (wf : Workflow) (s : WorkflowStep)
    (to_auto to_await : list RemediationItem) :
  get_workflow wid w = Some wf ->
  find_step "assess" (steps wf) = Some s ->
  output_truthy (output_data s) = true ->
  categorize cfg (default true (md_auto_remediate (metadata wf)))
             (get_assessments (output_data s)) ([], []) = Ok (to_auto, to_await) ->
  to_auto <> [] ->
  let batch := remediate_batch to_auto (repository wf) (branch wf) false in
  let answer := respond env m batch in
  let r := run env m (_execute_remediation_decisions cfg wid w) in
  result r = Ok tt
  /\ calls r = [batch]
  /\ exists wf',
       get_workflow wid (final r) = Some wf'
       /\ wf_auto_remediated wf' =
            match r_error answer with
            | Some _ => wf_auto_remediated wf
            | None => default 0 (r_fixes_generated answer)
            end
       /\ remediation_ids wf' =
            match r_error answer with
            | Some _ => remediation_ids wf
            | None => remediation_ids wf ++ [default "" (r_batch_id answer)]
            end
       /\ (is_Some (find_step "remediate" (steps wf)) ->
           output_data <$> find_step "remediate" (steps wf')
           = Some (OutRemediate (length to_auto) (length to_await))).
Proof.
  intros Hg Hfind Ht Hcat Hauto batch answer r. subst r answer batch.
  unfold _execute_remediation_decisions, _send_notification.
  exec. norm_world. wsimpl. rewrite Hfind, Ht. cbn [negb].
  destruct (get_assessments (output_data s)) as [|a0 l0] eqn:Ea.
  { cbn in Hcat. injection Hcat as <- <-. done. }
  rewrite Hcat. cbn [bind_outcome fst snd].
  destruct to_auto as [|x to_auto']; [done|].
  cbn [bind_outcome run result calls final].
  match goal with |- context [foldl apply_op ?W (interfere env m)] =>
    destruct (interfere_keeps_remediation wid (interfere env m) W _
                (get_workflow_put wid _ w))
      as (wf1 & Hg1 & Hs1 & Hm1 & Hr1 & Hb1 & Ha1 & Hi1);
    generalize dependent (foldl apply_op W (interfere env m))
  end.
  intros w1 Hg1. cbn in Hs1, Hm1, Hr1, Hb1, Ha1, Hi1.
  destruct (r_error _); destruct to_await as [|y to_await'];
    cbn [bind_outcome]; norm_world; wsimpl; cbn [length Nat.ltb Nat.leb];
    try (destruct (default true (md_notify _)));
    cbn [bind_outcome run result calls final]; norm_world; wsimpl;
    (split; [done|]); (split; [done|]);
    (eexists; split; [first [apply get_workflow_put | reflexivity]|]); wsimpl;
    (split; [by rewrite ?Ha1|]); (split; [by rewrite ?Hi1|]);
    intros [st0 Hs0]; unfold mark;
    rewrite Hs1, find_step_update_first, Hs0 by done; done.
Qed.

Lemma remediation_answer_recorded_witness :
  exists wf',
    get_workflow "wf-1"
      (final (run failed_remediation_env 0
                (_execute_remediation_decisions default_settings "wf-1" assessed_world)))
    = Some wf'
    /\ wf_auto_remediated wf' = 0
    /\ remediation_ids wf' = []
    /\ output_data <$> find_step "remediate" (steps wf') = Some (OutRemediate 1 0).
Proof.
  destruct (remediation_answer_recorded default_settings failed_remediation_env 0 "wf-1"
              assessed_world (the_workflow "wf-1" assessed_world)
              (default (initial_step "assess" ASSESS "risk-assessment")
                 (find_step "assess" (steps (the_workflow "wf-1" assessed_world))))
              [build_vuln (sample_assessment "V1" "P3") "P3"] [])
    as (_ & _ & wf' & Hg & H1 & H2 & H3).
  - vm_compute; reflexivity.
  - vm_compute; reflexivity.
  - vm_compute; reflexivity.
  - vm_compute; reflexivity.
  - discriminate.
  - exists wf'. split; [exact Hg|]. vm_compute in H1. vm_compute in H2.
    split; [exact H1|]. split; [exact H2|].
    apply H3. vm_compute. eexists. reflexivity.
Defined.

(** ** Approval requests *)

(** What [get_pending_approvals] does to one approval. *)
#[local] Abbreviation expire now :=
  (fun a => if bool_decide (ar_status a = APPROVAL_PENDING) && expiry_passed now a
            then set_ar_status EXPIRED a else a).

Lemma expire_pending now a :
  ar_status (expire now a) = APPROVAL_PENDING <->
  ar_status a = APPROVAL_PENDING /\ expiry_passed now a = false.
Proof.
  cbn. destruct (bool_decide_reflect (ar_status a = APPROVAL_PENDING)) as [E|E];
    destruct (expiry_passed now a); cbn; split; try tauto; try (intros [? ?]; done).
  done.
Qed.

Lemma expire_idemp now a : expire now (expire now a) = expire now a.
Proof.
  cbn. destruct (bool_decide_reflect (ar_status a = APPROVAL_PENDING)) as [E|E];
    destruct (expiry_passed now a) eqn:Ex; cbn; try done.
  - by rewrite bool_decide_eq_true_2, Ex.
  - by rewrite bool_decide_eq_false_2.
  - by rewrite bool_decide_eq_false_2.
Qed.

Lemma get_pending_approvals_lookup w aid :
  approvals_store (get_pending_approvals w).2 !! aid
  = expire (utcnow w) <$> approvals_store w !! aid.
Proof. unfold get_pending_approvals. cbn [snd approvals_store set_approvals]. apply lookup_fmap. Qed.

Lemma get_pending_approvals_listed w a :
  a ∈ (get_pending_approvals w).1 <->
  exists aid, approvals_store w !! aid = Some a
    /\ ar_status a = APPROVAL_PENDING /\ expiry_passed (utcnow w) a = false.
Proof.
  unfold get_pending_approvals. cbn [fst].
  rewrite list_elem_of_filter, list_elem_of_fmap. split.
  - intros (Hp & [aid a'] & -> & Hin). cbn [snd] in *.
    apply elem_of_map_to_list in Hin. rewrite lookup_fmap in Hin.
    destruct (approvals_store w !! aid) as [a0|] eqn:E; [|done].
    injection Hin as <-. apply expire_pending in Hp as Hp'. destruct Hp' as [Hp1 Hp2].
    exists aid. cbn. rewrite bool_decide_eq_true_2, Hp2 by done. cbn. done.
  - intros (aid & Hin & Hp & Hx). split; [done|].
    exists (aid, a). split; [done|]. apply elem_of_map_to_list.
    rewrite lookup_fmap, Hin. cbn. by rewrite Hx, andb_false_r.
Qed.

(** X18.  [GET /hitl/approvals/pending] returns exactly the stored
    approvals that are pending and whose expiry has not passed.  It
    marks the pending ones whose expiry has passed [EXPIRED] and changes
    nothing else about them; approvals that are resolved or not yet due
    stay as they are, and none is added or removed.  Expiring is not
    audited and touches no workflow.  Asking again at the same time
    gives the same answer and changes nothing more. *)
Theorem pending_listing_expires (w : World) :
  let listed := (get_pending_approvals w).1 in
  let after := (get_pending_approvals w).2 in
  (forall a, a ∈ listed <->
     exists aid, approvals_store w !! aid = Some a
       /\ ar_status a = APPROVAL_PENDING /\ expiry_passed (utcnow w) a = false)
  /\ (forall aid, approvals_store after !! aid = None <-> approvals_store w !! aid = None)
  /\ (forall aid a, approvals_store w !! aid = Some a ->
        ar_status a = APPROVAL_PENDING -> expiry_passed (utcnow w) a = true ->
        approvals_store after !! aid = Some (set_ar_status EXPIRED a))
  /\ (forall aid a, approvals_store w !! aid = Some a ->
        ar_status a <> APPROVAL_PENDING \/ expiry_passed (utcnow w) a = false ->
        approvals_store after !! aid = Some a)
  /\ (forall aid a, approvals_store after !! aid = Some a ->
        ar_status a = APPROVAL_PENDING -> expiry_passed (utcnow w) a = false)
  /\ workflows after = workflows w
  /\ audit_entries after = audit_entries w
  /\ get_pending_approvals after = (listed, after).
Proof.
  intros listed after. subst listed after.
  split; [apply get_pending_approvals_listed|].
  unfold get_pending_approvals. cbn [fst snd approvals_store set_approvals workflows
    audit_entries utcnow].
  split; [intros aid; rewrite lookup_fmap; by destruct (approvals_store w !! aid)|].
  split.
  { intros aid a Hin Hp Hx. rewrite lookup_fmap, Hin. cbn.
    by rewrite bool_decide_eq_true_2, Hx. }
  split.
  { intros aid a Hin [Hp|Hx]; rewrite lookup_fmap, Hin; cbn.
    - by rewrite bool_decide_eq_false_2.
    - by rewrite Hx, andb_false_r. }
  split.
  { intros aid a Hin Hp. rewrite lookup_fmap in Hin.
    destruct (approvals_store w !! aid) as [a0|]; [|done]. injection Hin as <-.
    apply expire_pending in Hp as [Hp Hx]. cbn. by rewrite Hx, andb_false_r. }
  split; [done|]. split; [done|].
  rewrite <- map_fmap_compose.
  rewrite (map_fmap_ext (expire (utcnow w) ∘ expire (utcnow w)) (expire (utcnow w)));
    [done|].
  intros aid a _. apply expire_idemp.
Qed.

(** When the clock shows a [datetime], the expiry can be computed
    exactly when it is a [datetime] too. *)
Lemma expiry_after_datetime now h :
  datetime_min <= now <= datetime_max ->
  (expiry_after now h = Some (now + 3600 * h) <->
   datetime_min <= now + 3600 * h <= datetime_max)
  /\ (expiry_after now h = None <->
      ~ (datetime_min <= now + 3600 * h <= datetime_max)).
Proof.
  unfold expiry_after, timedelta_hours, datetime_add, datetime_min, datetime_max.
  intros Hnow. cbv zeta.
  destruct (Z.leb_spec (-999999999) (3600 * h / 86400));
    destruct (Z.leb_spec (3600 * h / 86400) 999999999);
    cbn [andb];
    try (destruct (Z.leb_spec (-62135596800) (now + 3600 * h));
         destruct (Z.leb_spec (now + 3600 * h) 253402300799); cbn [andb]);
    (split; split; intros H'; first [done | lia | (exfalso; Z.div_mod_to_equations; lia)]).
Qed.

Lemma expiry_after_Some now h expiry :
  expiry_after now h = Some expiry -> expiry = now + 3600 * h.
Proof.
  unfold expiry_after, timedelta_hours, datetime_add. cbv zeta.
  destruct (_ && _); [|done]. destruct (_ && _); [|done]. by intros [= <-].
Qed.

(** X19.  An approval request created at time [t] with
    [expires_in_hours = h] is stored as pending with expiry [t + h]
    hours, and the sign of [h] is not checked: at a time [elapsed]
    seconds later the pending listing returns it exactly when
    [elapsed <= 3600 * h], and marks it [EXPIRED] otherwise, so a
    request created with a negative [h] is never listed.  Only when
    [t + h] hours is no [datetime] is the request refused: the
    endpoint raises [OverflowError] and nothing is stored or logged. *)
Theorem approval_listed_until_expiry (creq : CreateApprovalRequest) (aid eid : string)
    (w : World) (elapsed : Z) :
  let h := car_expires_in_hours creq in
  let created := create_approval creq aid eid w in
  let later := set_utcnow (utcnow w + elapsed) created.2 in
  (datetime_min <= utcnow w <= datetime_max ->
     (expiry_after (utcnow w) h = None <->
      ~ (datetime_min <= utcnow w + 3600 * h <= datetime_max)))
  /\ (expiry_after (utcnow w) h = None -> created = (Raised OverflowError, w))
  /\ (forall expiry, expiry_after (utcnow w) h = Some expiry ->
      expiry = utcnow w + 3600 * h
      /\ created.1 = Ok aid
      /\ exists a,
           approvals_store created.2 !! aid = Some a
           /\ ar_status a = APPROVAL_PENDING
           /\ expires_at a = Some expiry
           /\ (a ∈ (get_pending_approvals later).1 <-> elapsed <= 3600 * h)
           /\ ar_status <$> approvals_store (get_pending_approvals later).2 !! aid
              = Some (if decide (elapsed <= 3600 * h) then APPROVAL_PENDING else EXPIRED)
           /\ (h < 0 -> 0 <= elapsed -> a ∉ (get_pending_approvals later).1)).
Proof.
  intros h created later. subst later created h.
  split; [intros Hnow; by apply expiry_after_datetime|].
  unfold create_approval. split; [by intros ->|].
  intros expiry Hex. rewrite Hex. apply expiry_after_Some in Hex as Hexp.
  unfold log_approval_requested, log. cbn [fst snd].
  split; [done|]. split; [done|].
  eexists. split; [apply lookup_insert_eq|]. split; [done|]. split; [done|].
  set (a := {| approval_id := aid |}).
  assert (Hx : expiry_passed (utcnow w + elapsed) a = false <->
               elapsed <= 3600 * car_expires_in_hours creq).
  { unfold expiry_passed. cbn. rewrite Z.ltb_ge. lia. }
  assert (Hiff : forall w', approvals_store w' !! aid = Some a ->
            utcnow w' = utcnow w + elapsed ->
            (a ∈ (get_pending_approvals w').1 <->
             elapsed <= 3600 * car_expires_in_hours creq)).
  { intros w' Hl Hnow. rewrite get_pending_approvals_listed, Hnow, <- Hx. split.
    - by intros (_ & _ & _ & H).
    - intros H. by exists aid. }
  split; [apply Hiff; [apply lookup_insert_eq | done]|]. split.
  - rewrite get_pending_approvals_lookup.
    cbn [approvals_store set_utcnow set_audit set_approvals utcnow].
    rewrite lookup_insert_eq. cbn [fmap option_fmap option_map].
    case_decide as E.
    + apply Hx in E. by rewrite E, andb_false_r.
    + assert (Ex : expiry_passed (utcnow w + elapsed) a = true).
      { apply not_false_iff_true. intros Ex. by apply Hx in Ex. }
      by rewrite Ex.
  - intros Hneg Hpos. rewrite Hiff; [lia | apply lookup_insert_eq | done].
Qed.

(** X20.  Whether a pending approval whose expiry has passed can still
    be decided depends on which request comes first.  Decided first, it
    is resolved, and a later pending listing leaves it resolved.
    Listed first, it is marked [EXPIRED], and the decision is then
    refused with 400 and changes nothing. *)
Theorem expiry_depends_on_listing (w : World) (aid : string) (a : ApprovalRequest)
    (d : ApprovalDecision) (eid : string) :
  approvals_store w !! aid = Some a ->
  ar_status a = APPROVAL_PENDING ->
  expiry_passed (utcnow w) a = true ->
  let verdict := if dec_approved d then APPROVED else REJECTED in
  let decided := decide_approval aid d eid w in
  let listed := get_pending_approvals w in
  decided.1 = Ok verdict
  /\ ar_status <$> approvals_store (get_pending_approvals decided.2).2 !! aid
     = Some verdict
  /\ (forall x, x ∈ (get_pending_approvals decided.2).1 -> x ∈ listed.1)
  /\ decide_approval aid d eid listed.2
     = (Raised (HTTPException 400 "Approval already expired"), listed.2).
Proof.
  intros Hin Hp Hx verdict decided listed. subst decided listed.
  destruct (decide_approval_pending w aid a d eid Hin Hp)
    as (w' & a' & E & Hl & Hst & _).
  rewrite E. cbn [fst snd]. fold verdict in Hst |- *.
  split; [done|].
  split.
  { rewrite get_pending_approvals_lookup, Hl. cbn [fmap option_fmap option_map].
    rewrite bool_decide_eq_false_2; [cbn; by rewrite Hst|].
    rewrite Hst. subst verdict. by destruct (dec_approved d). }
  split.
  { intros x. rewrite !get_pending_approvals_listed.
    intros (k & Hk & Hkp & Hkx).
    unfold decide_approval in E. rewrite Hin, bool_decide_eq_true_2 in E by done.
    cbn [negb] in E. injection E as <-.
    cbn [approvals_store set_approvals log_approval_decision log set_audit utcnow]
      in Hk, Hkx.
    destruct (decide (k = aid)) as [->|Hne].
    - rewrite lookup_insert_eq in Hk. injection Hk as <-.
      cbn in Hkp. by destruct (dec_approved d).
    - rewrite lookup_insert_ne in Hk by done. eauto. }
  apply (decide_approval_not_pending _ aid (set_ar_status EXPIRED a)); [|done].
  rewrite get_pending_approvals_lookup, Hin. cbn [fmap option_fmap option_map].
  by rewrite bool_decide_eq_true_2, Hx.
Qed.

Lemma expiry_depends_on_listing_witness :
  expiry_passed (utcnow stale_world) stale_approval = true
  /\ decide_approval "ap-1" approve_by_alice "e-1" (get_pending_approvals stale_world).2
     = (Raised (HTTPException 400 "Approval already expired"),
        (get_pending_approvals stale_world).2).
Proof.
  split; [reflexivity|].
  apply (expiry_depends_on_listing stale_world "ap-1" stale_approval approve_by_alice "e-1");
    reflexivity.
Defined.

Lemma in_order_app_last {A} (key : A -> Z) l1 l2 :
  in_order key false l1 -> in_order key false l2 ->
  (forall x y, x ∈ l1 -> y ∈ l2 -> key x <= key y) ->
  in_order key false (l1 ++ l2).
Proof.
  intros H1 H2 H12 i j x y Hij Hx Hy.
  apply lookup_app_Some in Hx as [Hx|[Hi Hx]];
    apply lookup_app_Some in Hy as [Hy|[Hj Hy]].
  - by apply (H1 i j).
  - apply H12; by eapply list_elem_of_lookup_2.
  - apply lookup_lt_Some in Hy. lia.
  - apply (H2 (i - length l1)%nat (j - length l1)%nat); [lia|done..].
Qed.

(** X21.  The audit trail of an approval.  Creating a request whose
    expiry is a [datetime] and deciding it later appends two entries to
    the audit log, the request by the orchestrator and then the
    decision by the resolver, both successful and both under the
    workflow and the approval of the request; whether the expiry has
    passed by then plays no part.  When time has not gone back and the
    log was in time order and not ahead of the clock, the timeline of
    the workflow is the one from before, followed by these two
    entries. *)
Theorem approval_audit_trail (creq : CreateApprovalRequest) (aid eid1 eid2 : string)
    (d : ApprovalDecision) (w : World) (elapsed : Z) :
  is_Some (expiry_after (utcnow w) (car_expires_in_hours creq)) ->
  let wid := car_workflow_id creq in
  let created := (create_approval creq aid eid1 w).2 in
  let decided := decide_approval aid d eid2 (set_utcnow (utcnow w + elapsed) created) in
  exists requested decision,
    decided.1 = Ok (if dec_approved d then APPROVED else REJECTED)
    /\ audit_entries decided.2 = audit_entries w ++ [requested; decision]
    /\ audit_action requested = APPROVAL_REQUESTED
    /\ actor requested = "orchestrator"
    /\ timestamp requested = utcnow w
    /\ audit_action decision = (if dec_approved d then APPROVAL_GRANTED else APPROVAL_DENIED)
    /\ actor decision = dec_resolver d
    /\ timestamp decision = utcnow w + elapsed
    /\ Forall (fun e => al_workflow_id e = Some wid /\ al_approval_id e = Some aid
                        /\ success e = true) [requested; decision]
    /\ (0 <= elapsed ->
        in_order timestamp false (audit_entries w) ->
        (forall e, e ∈ audit_entries w -> timestamp e <= utcnow w) ->
        AuditLogService.get_workflow_timeline wid decided.2
        = AuditLogService.get_workflow_timeline wid w ++ [requested; decision]).
Proof.
  intros [expiry Hex] wid created decided. subst decided created.
  unfold create_approval. rewrite Hex.
  unfold log_approval_requested, log. cbn [snd].
  unfold decide_approval.
  cbn [approvals_store set_utcnow set_audit set_approvals utcnow audit_entries].
  rewrite lookup_insert_eq. cbn [ar_status bool_decide negb].
  rewrite bool_decide_eq_true_2 by done. cbn [negb fst snd].
  unfold log_approval_decision, log.
  cbn [approvals_store set_utcnow set_audit set_approvals utcnow audit_entries
       ar_workflow_id].
  do 2 eexists. split; [done|]. split; [by rewrite <- app_assoc|].
  do 6 (split; [done|]). split; [repeat constructor|].
  intros Hpos Hord Hclock.
  unfold AuditLogService.get_workflow_timeline.
  cbn [audit_entries set_audit]. rewrite <- app_assoc. cbn [app].
  rewrite filter_app, !filter_cons, filter_nil.
  cbn [al_workflow_id]. fold wid. rewrite !decide_True by done.
  rewrite !sorted_id; [done| |].
  - by apply in_order_filter.
  - apply in_order_app_last.
    + by apply in_order_filter.
    + apply in_order_cons. split; [|apply in_order_cons; split;
        [constructor | apply in_order_nil]].
      constructor; [cbn; lia | constructor].
    + intros x y [_ Hx]%list_elem_of_filter Hy. specialize (Hclock x Hx).
      apply elem_of_cons in Hy as [->|Hy]; [cbn; lia|].
      apply list_elem_of_singleton in Hy as ->. cbn. lia.
Qed.

Lemma approval_audit_trail_witness :
  is_Some (expiry_after 1000 24)
  /\ exists requested decision,
       audit_entries
         (decide_approval "ap-2" approve_by_alice "e-2"
            (set_utcnow (1000 + 60)
               (create_approval sample_approval_request "ap-2" "e-1" (empty_world 1000)).2)).2
       = [requested; decision]
       /\ audit_action requested = APPROVAL_REQUESTED
       /\ audit_action decision = APPROVAL_GRANTED.
Proof.
  split; [by eexists|].
  destruct (approval_audit_trail sample_approval_request "ap-2" "e-1" "e-2"
              approve_by_alice (empty_world 1000) 60)
    as (requested & decision & _ & Hl & H1 & _ & _ & H2 & _).
  - by eexists.
  - exists requested, decision. split; [exact Hl|]. split; [exact H1 | exact H2].
Defined.

(** ** Listing the approvals *)

Lemma list_approvals_matching st wid prio limit values :
  limit <= 200 ->
  HitlApi.list_approvals st wid prio limit values =
  Ok (length (filter (approval_matches st wid prio) values),
      slice_to limit (sorted requested_at true (filter (approval_matches st wid prio) values))).
Proof.
  intros Hle.
  assert (E : forall l : list ApprovalRequest,
            Ok (length (sorted requested_at true l), slice_to limit (sorted requested_at true l))
            = Ok (length l, slice_to limit (sorted requested_at true l)))
    by (intros l; by rewrite sorted_length).
  destruct (str_truthy wid) eqn:E1, (str_truthy prio) eqn:E2.
  all: unfold HitlApi.list_approvals; rewrite (proj2 (Z.ltb_ge _ _)) by done;
    rewrite ?E1, ?E2;
    destruct st; cbv beta iota zeta; rewrite E;
    rewrite ?filter_filter_and;
    match goal with
    | |- Ok (length ?l, _) = Ok (length ?l', _) => assert (El : l = l'); [|by rewrite <- El]
    end;
    first [ apply list_filter_iff | symmetry; apply filter_True ];
    intros ap; unfold approval_matches; rewrite E1, E2; tauto.
Qed.

(** X23.  [GET /hitl/approvals] refuses a limit above 200 with a
    validation error.  Otherwise it returns approvals that pass the
    filters given, newest first, and what the limit leaves out are the
    oldest.  Its [total] is the number of approvals that pass the
    filters, whatever the limit, so it can exceed the number returned;
    the [total] of [GET /workflows], whose limit has no bound, is the
    number of workflows returned. *)
Theorem list_approvals_total_before_limit (st : option ApprovalStatus)
    (wid prio : option string) (limit : Z) (values : list ApprovalRequest) :
  let answer := HitlApi.list_approvals st wid prio limit values in
  let matching := filter (approval_matches st wid prio) values in
  (200 < limit -> answer = Raised (RequestValidationError ["query"; "limit"]))
  /\ (limit <= 200 ->
      exists total listed,
        answer = Ok (total, listed)
        /\ total = length matching
        /\ (forall a, a ∈ listed -> a ∈ matching)
        /\ in_order requested_at true listed
        /\ (forall a a', a ∈ listed -> a' ∈ matching -> a' ∉ listed ->
              requested_at a' <= requested_at a)
        /\ (0 <= limit -> length listed = Nat.min (Z.to_nat limit) total))
  /\ (forall stw repo wfs,
        let listed := Main.list_workflows stw repo limit wfs in
        listed.1 = length listed.2
        /\ (0 <= limit ->
            listed.1 = Nat.min (Z.to_nat limit)
                         (length (filter (workflow_matches stw repo) wfs)))).
Proof.
  intros answer matching. subst answer. split; [|split].
  - intros Hbig. unfold HitlApi.list_approvals. by rewrite (proj2 (Z.ltb_lt _ _)).
  - intros Hle. rewrite list_approvals_matching by done. fold matching.
    do 2 eexists. split; [reflexivity|]. split; [done|]. split; [|split; [|split]].
    + by intros a Ha%slice_to_elem_of%sorted_elem_of.
    + apply in_order_slice_to, sorted_in_order.
    + intros a a'. apply slice_sorted_newest.
    + intros Hpos. rewrite slice_to_length, sorted_length.
      by rewrite (proj2 (Z.leb_le _ _)).
  - intros stw repo wfs. unfold Main.list_workflows.
    cbv zeta. cbn [fst snd]. split; [done|]. intros Hpos.
    rewrite list_workflows_matching, slice_to_length, sorted_length.
    by rewrite (proj2 (Z.leb_le _ _)).
Qed.

(** ** Editing a comment *)

Lemma find_app_first {A} (f : A -> bool) l1 x l2 :
  (forall y, y ∈ l1 -> f y = false) -> f x = true ->
  List.find f (l1 ++ x :: l2) = Some x.
Proof.
  intros H1 Hx. induction l1 as [|y l1 IH]; cbn.
  - by rewrite Hx.
  - rewrite (H1 y) by left. apply IH. intros z Hz. apply H1. by right.
Qed.

Lemma find_app_none {A} (f : A -> bool) l1 l2 :
  (forall y, y ∈ l1 -> f y = false) ->
  List.find f (l1 ++ l2) = List.find f l2.
Proof.
  intros H1. induction l1 as [|y l1 IH]; cbn; [done|].
  rewrite (H1 y) by left. apply IH. intros z Hz. apply H1. by right.
Qed.

(** What the inner loop of [edit_comment] finds in one list. *)
Lemma edit_in_first cid new editor now l :
  match AuditLogService.edit_in cid new editor now l with
  | AuditLogService.NotFound =>
      forall x, x ∈ l -> String.eqb (comment_id x) cid = false
  | AuditLogService.NotAuthor =>
      exists l1 c0 l2, l = l1 ++ c0 :: l2
        /\ (forall x, x ∈ l1 -> String.eqb (comment_id x) cid = false)
        /\ String.eqb (comment_id c0) cid = true
        /\ String.eqb (author c0) editor = false
  | AuditLogService.Edited c l' =>
      exists l1 c0 l2, l = l1 ++ c0 :: l2 /\ l' = l1 ++ c :: l2
        /\ (forall x, x ∈ l1 -> String.eqb (comment_id x) cid = false)
        /\ String.eqb (comment_id c0) cid = true
        /\ String.eqb (author c0) editor = true
        /\ c = AuditLogService.set_content new now c0
  end.
Proof.
  induction l as [|c l IH]; cbn.
  - intros x Hx. by apply elem_of_nil in Hx.
  - destruct (String.eqb (comment_id c) cid) eqn:Eid.
    + destruct (String.eqb (author c) editor) eqn:Eau; cbn.
      * exists [], c, l. repeat split; try done. intros x Hx. by apply elem_of_nil in Hx.
      * exists [], c, l. repeat split; try done. intros x Hx. by apply elem_of_nil in Hx.
    + destruct (AuditLogService.edit_in cid new editor now l) as [| |c' l'].
      * intros x [->|Hx]%elem_of_cons; [done | by apply IH].
      * destruct IH as (l1 & c0 & l2 & -> & Hl1 & Hc0 & Ha).
        exists (c :: l1), c0, l2. repeat split; try done.
        intros x [->|Hx]%elem_of_cons; [done | by apply Hl1].
      * destruct IH as (l1 & c0 & l2 & -> & -> & Hl1 & Hc0 & Ha & ->).
        exists (c :: l1), c0, l2. repeat split; try done.
        intros x [->|Hx]%elem_of_cons; [done | by apply Hl1].
Qed.

(** X24.  [edit_comment] looks at the first comment with the given id,
    in the order of the targets and of their comments.  It edits that
    comment when its author is the editor: the content is replaced and
    [edited_at] is set, nothing else of it changes, and no other comment
    changes.  When there is no such comment, or its author is someone
    else, nothing changes at all; the endpoint answers 404 with the same
    message in both cases, and with the edited comment otherwise. *)
Theorem comment_edited_by_author_only (cid new editor : string) (now : Z)
    (comments : CommentStore) :
  let all := concat comments.*2 in
  let first := List.find (fun c => String.eqb (comment_id c) cid) all in
  let r := AuditLogService.edit_comment cid new editor now comments in
  r.1 = match first with
        | Some c0 => if String.eqb (author c0) editor
                     then Some (AuditLogService.set_content new now c0) else None
        | None => None
        end
  /\ (r.1 = None -> r.2 = comments)
  /\ r.2.*1 = comments.*1
  /\ length <$> r.2.*2 = length <$> comments.*2
  /\ (forall c, r.1 = Some c ->
        exists l1 c0 l2, all = l1 ++ c0 :: l2 /\ concat r.2.*2 = l1 ++ c :: l2
                         /\ first = Some c0)
  /\ HitlApi.edit_comment cid new editor now comments
     = (match r.1 with
        | Some c => Ok c
        | None => Raised (HTTPException 404 "Comment not found or not authorized to edit")
        end, r.2).
Proof.
  intros all first r. subst all first r.
  split; [|split; [|split; [|split; [|split]]]].
  6: { unfold HitlApi.edit_comment.
       by destruct (AuditLogService.edit_comment _ _ _ _ _) as [[c|] ?]. }
  all: induction comments as [|[target l] rest IH]; [done|]; cbn.
  all: pose proof (edit_in_first cid new editor now l) as Hl.
  all: destruct (AuditLogService.edit_in cid new editor now l) as [| |c' l'].
  all: try destruct (AuditLogService.edit_comment cid new editor now rest)
         as [res rest'] eqn:Er; cbn in *.
  - rewrite find_app_none by done. exact IH.
  - destruct Hl as (l1 & c0 & l2 & -> & Hl1 & Hc0 & Ha).
    rewrite <- app_assoc. cbn. rewrite find_app_first by done. by rewrite Ha.
  - destruct Hl as (l1 & c0 & l2 & -> & -> & Hl1 & Hc0 & Ha & ->).
    rewrite <- app_assoc. cbn. rewrite find_app_first by done. by rewrite Ha.
  - intros Hres. by rewrite IH.
  - done.
  - done.
  - by rewrite IH.
  - done.
  - done.
  - by rewrite IH.
  - done.
  - destruct Hl as (l1 & c0 & l2 & -> & -> & _). by rewrite !length_app.
  - intros c Hc. destruct (IH c Hc) as (k1 & c0 & k2 & Hall & Hnew & Hfirst).
    exists (l ++ k1), c0, k2. rewrite Hall, Hnew, <- !app_assoc.
    split; [done|]. split; [done|].
    rewrite find_app_none by done. by rewrite <- Hall.
  - done.
  - intros c [= <-]. destruct Hl as (l1 & c0 & l2 & -> & -> & Hl1 & Hc0 & Ha & ->).
    exists l1, c0, (l2 ++ concat rest.*2). rewrite <- !app_assoc. cbn.
    split; [done|]. split; [done|]. by apply find_app_first.
Qed.
